(** * mergedeep: a deep merge of nested Python mappings

    A shallow embedding of [mergedeep/mergedeep.py] and a verification of the
    properties its specification states.

    The program mutates Python objects in place, so the embedding is written
    in store-passing style: a heap maps locations to the mutable objects
    ([dict], [list], [set] and trivial subclasses of them), immutable values
    (None, bool, int, float, str, tuple) are carried inline, and every
    operation takes the heap and returns the new one.  Functions that follow
    references through the heap take a recursion budget ([fuel]), the
    counterpart of the interpreter's recursion limit. *)

From stdpp Require Import base option list strings gmap.
From Stdlib Require Import ZArith Lia.

Local Open Scope Z_scope.
Local Open Scope nat_scope.

(** ** Python values and the heap *)

Abbreviation loc := nat (only parsing).

(** Values of the universe the specification covers: scalars, tuples
    (immutable, hence inline) and references to mutable containers.  A float
    [VFloat m e] stands for the finite number [m * 2^e]; the infinities and
    NaN are not among the values. *)
#[warnings="-register-all"]
Inductive value : Type :=
| VNone
| VBool (b : bool)
| VInt (z : Z)
| VFloat (m e : Z)
| VStr (s : string)
| VTuple (items : list value)
| VRef (l : loc).

(** Mutable objects.  [sub] is [None] for the builtin class and [Some name]
    for a subclass [class name(dict): pass] (resp. list, set) that overrides
    nothing.  Dictionary keys are strings; entries keep insertion order.  A
    set is kept as the list of its elements; the order carries no meaning. *)
Inductive obj : Type :=
| ODict (sub : option string) (entries : list (string * value))
| OList (sub : option string) (items : list value)
| OSet (sub : option string) (items : list value).

Abbreviation heap := (list obj).

(** [type(x)] *)
Inductive pytype : Type :=
| TNoneType | TBool | TInt | TFloat | TStr | TTuple
| TDict (sub : option string)
| TList (sub : option string)
| TSet (sub : option string).

#[global] Instance pytype_eq_dec : EqDecision pytype.
Proof. solve_decision. Defined.

(** Exceptions the modelled code can raise. *)
Inductive exn : Type :=
| TypeMismatch (dst_type src_type : pytype) (key : string)
    (* TypeError raised by _handle_merge_typesafe *)
| NotCallable (s : string)
    (* TypeError: 'Strategy' object is not callable *)
| KeyError (key : string)
| DictChangedSize.
    (* RuntimeError: dictionary changed size during iteration *)

(** The result of running a piece of code: a value, an exception together
    with the heap at the point where it was raised, a state outside the
    modelled input types ([Stuck]: a dangling reference, or a non-mapping
    where the signature demands a mapping), or an exhausted budget. *)
Inductive outcome (A : Type) : Type :=
| Ok (a : A)
| Raise (e : exn) (h : heap)
| Stuck
| OutOfFuel.
Arguments Ok {A} a.
Arguments Raise {A} e h.
Arguments Stuck {A}.
Arguments OutOfFuel {A}.

#[global] Instance outcome_ret : MRet outcome := fun A a => Ok a.
#[global] Instance outcome_bind : MBind outcome := fun A B f m =>
  match m with
  | Ok a => f a
  | Raise e h => Raise e h
  | Stuck => Stuck
  | OutOfFuel => OutOfFuel
  end.

(** ** Dictionaries *)

Fixpoint dict_get (key : string) (es : list (string * value)) : option value :=
  match es with
  | [] => None
  | (k, v) :: es' => if String.eqb key k then Some v else dict_get key es'
  end.

(** [d[key] = v] on the entries: an existing key keeps its position. *)
Fixpoint dict_set (key : string) (v : value) (es : list (string * value))
  : list (string * value) :=
  match es with
  | [] => [(key, v)]
  | (k, v0) :: es' =>
      if String.eqb key k then (k, v) :: es' else (k, v0) :: dict_set key v es'
  end.

Definition get_dict (h : heap) (d : loc)
  : outcome (option string * list (string * value)) :=
  match h !! d with
  | Some (ODict c es) => Ok (c, es)
  | _ => Stuck
  end.

(** [d[key]] *)
Definition getitem (h : heap) (d : loc) (key : string) : outcome value :=
  '(_, es) ← get_dict h d;
  match dict_get key es with
  | Some v => Ok v
  | None => Raise (KeyError key) h
  end.

(** [d[key] = v] *)
Definition setitem (h : heap) (d : loc) (key : string) (v : value) : outcome heap :=
  '(c, es) ← get_dict h d;
  Ok (<[d := ODict c (dict_set key v es)]> h).

(** ** [type] and [isinstance] *)

Definition type_of (h : heap) (v : value) : outcome pytype :=
  match v with
  | VNone => Ok TNoneType
  | VBool _ => Ok TBool
  | VInt _ => Ok TInt
  | VFloat _ _ => Ok TFloat
  | VStr _ => Ok TStr
  | VTuple _ => Ok TTuple
  | VRef l =>
      match h !! l with
      | Some (ODict c _) => Ok (TDict c)
      | Some (OList c _) => Ok (TList c)
      | Some (OSet c _) => Ok (TSet c)
      | None => Stuck
      end
  end.

(** [isinstance(v, Mapping)], giving the location of the mapping. *)
Definition mapping_loc (h : heap) (v : value) : option loc :=
  match v with
  | VRef l => match h !! l with Some (ODict _ _) => Some l | _ => None end
  | _ => None
  end.

Definition is_mapping (h : heap) (v : value) : bool :=
  match mapping_loc h v with Some _ => true | None => false end.

Definition is_list (h : heap) (v : value) : bool :=
  match v with
  | VRef l => match h !! l with Some (OList _ _) => true | _ => false end
  | _ => false
  end.

Definition is_set (h : heap) (v : value) : bool :=
  match v with
  | VRef l => match h !! l with Some (OSet _ _) => true | _ => false end
  | _ => false
  end.

Definition is_tuple (v : value) : bool :=
  match v with VTuple _ => true | _ => false end.

(** ** Equality ([==]) *)

Definition num_of (v : value) : option (Z * Z) :=
  match v with
  | VBool b => Some (Z.b2z b, 0%Z)
  | VInt z => Some (z, 0%Z)
  | VFloat m e => Some (m, e)
  | _ => None
  end.

(** [m1 * 2^e1 = m2 * 2^e2], compared exactly as Python compares numbers. *)
Definition num_eqb (x y : Z * Z) : bool :=
  let e := Z.min (snd x) (snd y) in
  (fst x * 2 ^ (snd x - e) =? fst y * 2 ^ (snd y - e))%Z.

Definition atom_eq (a b : value) : bool :=
  match a, b with
  | VNone, VNone => true
  | VStr s, VStr t => String.eqb s t
  | _, _ =>
      match num_of a, num_of b with
      | Some x, Some y => num_eqb x y
      | _, _ => false
      end
  end.

Fixpoint all2M {A} (f : A → A → outcome bool) (xs ys : list A) : outcome bool :=
  match xs, ys with
  | [], [] => Ok true
  | x :: xs', y :: ys' => b ← f x y; if b : bool then all2M f xs' ys' else Ok false
  | _, _ => Ok false
  end.

Fixpoint existsM {A} (f : A → outcome bool) (xs : list A) : outcome bool :=
  match xs with
  | [] => Ok false
  | x :: xs' => b ← f x; if b : bool then Ok true else existsM f xs'
  end.

Fixpoint forallM {A} (f : A → outcome bool) (xs : list A) : outcome bool :=
  match xs with
  | [] => Ok true
  | x :: xs' => b ← f x; if b : bool then forallM f xs' else Ok false
  end.

(** Comparison of two items inside a container: the interpreter first tests
    identity and only then calls [==]. *)
Definition item_eq (eq : value → value → outcome bool) (x y : value) : outcome bool :=
  match x, y with
  | VRef lx, VRef ly => if lx =? ly then Ok true else eq x y
  | _, _ => eq x y
  end.

(** One level of [==]: scalars are compared by value, tuples and lists item
    by item, sets and dicts by membership; [item] compares the items. *)
Definition eq_step (item : value → value → outcome bool) (h : heap) (a b : value)
  : outcome bool :=
  match a, b with
  | VTuple xs, VTuple ys => all2M item xs ys
  | VRef la, VRef lb =>
      match h !! la, h !! lb with
      | Some (OList _ xs), Some (OList _ ys) =>
          if length xs =? length ys then all2M item xs ys else Ok false
      | Some (OSet _ xs), Some (OSet _ ys) =>
          if length xs =? length ys
          then forallM (fun x => existsM (fun y => item y x) ys) xs
          else Ok false
      | Some (ODict _ xs), Some (ODict _ ys) =>
          if length xs =? length ys
          then forallM (fun kv : string * value =>
                          match dict_get (fst kv) ys with
                          | Some w => item (snd kv) w
                          | None => Ok false
                          end) xs
          else Ok false
      | Some _, Some _ => Ok false
      | _, _ => Stuck
      end
  | VTuple _, _ | _, VTuple _ | VRef _, _ | _, VRef _ => Ok false
  | _, _ => Ok (atom_eq a b)
  end.

Fixpoint py_eq (fuel : nat) (h : heap) (a b : value) {struct fuel} : outcome bool :=
  match fuel with
  | 0 => OutOfFuel
  | S fuel' => eq_step (item_eq (py_eq fuel' h)) h a b
  end.

(** ** [copy.deepcopy]

    Scalars are returned as they are; a tuple is rebuilt from the copies of
    its items; a mutable object is copied once per call, the [memo] mapping
    every original to its copy.  As in the library, the copy of a list or of
    a dict is created (empty) and entered in the memo before its items are
    copied, and the copy of a set after.  The items are written into the new
    list or dict in one step when all of them are copied: no copy reads the
    object in between, so the heap that results is the one item-by-item
    appending produces. *)

Definition copy_state : Type := heap * gmap loc loc.

Fixpoint copy_items (copy : copy_state → value → outcome (copy_state * value))
    (st : copy_state) (xs : list value) : outcome (copy_state * list value) :=
  match xs with
  | [] => Ok (st, [])
  | x :: xs' =>
      '(st1, y) ← copy st x;
      '(st2, ys) ← copy_items copy st1 xs';
      Ok (st2, y :: ys)
  end.

Fixpoint copy_entries (copy : copy_state → value → outcome (copy_state * value))
    (st : copy_state) (es : list (string * value))
  : outcome (copy_state * list (string * value)) :=
  match es with
  | [] => Ok (st, [])
  | (k, x) :: es' =>
      '(st1, y) ← copy st x;
      '(st2, ys) ← copy_entries copy st1 es';
      Ok (st2, (k, y) :: ys)
  end.

Fixpoint deepcopy_memo (fuel : nat) (st : copy_state) (v : value) {struct fuel}
  : outcome (copy_state * value) :=
  match fuel with
  | 0 => OutOfFuel
  | S fuel' =>
      match v with
      | VTuple xs =>
          '(st1, ys) ← copy_items (deepcopy_memo fuel') st xs;
          Ok (st1, VTuple ys)
      | VRef l =>
          let '(h, memo) := st in
          match memo !! l with
          | Some l' => Ok (st, VRef l')
          | None =>
              match h !! l with
              | None => Stuck
              | Some (OList c xs) =>
                  let l' := length h in
                  '((h1, memo1), ys) ←
                    copy_items (deepcopy_memo fuel') (h ++ [OList c []], <[l := l']> memo) xs;
                  Ok ((<[l' := OList c ys]> h1, memo1), VRef l')
              | Some (ODict c es) =>
                  let l' := length h in
                  '((h1, memo1), es') ←
                    copy_entries (deepcopy_memo fuel') (h ++ [ODict c []], <[l := l']> memo) es;
                  Ok ((<[l' := ODict c es']> h1, memo1), VRef l')
              | Some (OSet c xs) =>
                  '((h1, memo1), ys) ← copy_items (deepcopy_memo fuel') st xs;
                  let l' := length h1 in
                  Ok ((h1 ++ [OSet c ys], <[l := l']> memo1), VRef l')
              end
          end
      | _ => Ok (st, v)
      end
  end.

(** [deepcopy(v)]: every call starts from an empty memo. *)
Definition deepcopy (fuel : nat) (h : heap) (v : value) : outcome (heap * value) :=
  '((h1, _), c) ← deepcopy_memo fuel (h, ∅) v;
  Ok (h1, c).

(** ** The strategies and their handlers *)

Inductive Strategy : Type :=
| REPLACE
| ADDITIVE
| TYPESAFE
| TYPESAFE_REPLACE
| TYPESAFE_ADDITIVE.

(** What a caller can pass as [strategy=]: a member of the enumeration, or
    any other (hashable) Python object, known here by its [repr]. *)
Inductive strategy_arg : Type :=
| Member (s : Strategy)
| Other (repr : string).

(** A handler is called as [handler(destination, source, key)]. *)
Definition handler : Type := nat → heap → loc → loc → string → outcome heap.

Definition _handle_merge_replace : handler :=
  fun fuel h destination source key =>
    sv ← getitem h source key;
    '(h1, c) ← deepcopy fuel h sv;
    setitem h1 destination key c.

(** [lst.extend(other)] for the list at [dv] and the list at [c]. *)
Definition list_extend (h : heap) (dv c : value) : outcome heap :=
  match dv, c with
  | VRef ld, VRef lc =>
      match h !! ld, h !! lc with
      | Some (OList s xs), Some (OList _ ys) => Ok (<[ld := OList s (xs ++ ys)]> h)
      | _, _ => Stuck
      end
  | _, _ => Stuck
  end.

(** [s.add(x)] for each [x] of [new]: an element equal to one already
    present is not added. *)
Fixpoint set_add_all (eq : value → value → outcome bool) (items new : list value)
  : outcome (list value) :=
  match new with
  | [] => Ok items
  | x :: new' =>
      b ← existsM (fun y => eq y x) items;
      set_add_all eq (if b : bool then items else items ++ [x]) new'
  end.

(** [s.update(other)] for the set at [dv] and the set at [c]. *)
Definition set_update (fuel : nat) (h : heap) (dv c : value) : outcome heap :=
  match dv, c with
  | VRef ld, VRef lc =>
      match h !! ld, h !! lc with
      | Some (OSet s xs), Some (OSet _ ys) =>
          zs ← set_add_all (item_eq (py_eq fuel h)) xs ys;
          Ok (<[ld := OSet s zs]> h)
      | _, _ => Stuck
      end
  | _, _ => Stuck
  end.

(** [t + u] for two tuples. *)
Definition tuple_concat (dv c : value) : outcome value :=
  match dv, c with
  | VTuple xs, VTuple ys => Ok (VTuple (xs ++ ys))
  | _, _ => Stuck
  end.

(** [destination[key]] and [source[key]] are read once here: the source
    reads them again in every test, with no assignment in between. *)
Definition _handle_merge_additive : handler :=
  fun fuel h destination source key =>
    dv ← getitem h destination key;
    sv ← getitem h source key;
    if is_list h dv && is_list h sv then
      '(h1, c) ← deepcopy fuel h sv;
      list_extend h1 dv c
    else if is_set h dv && is_set h sv then
      '(h1, c) ← deepcopy fuel h sv;
      set_update fuel h1 dv c
    else if is_tuple dv && is_tuple sv then
      '(h1, c) ← deepcopy fuel h sv;
      t ← tuple_concat dv c;
      setitem h1 destination key t
    else
      _handle_merge_replace fuel h destination source key.

(** [_handle_merge_typesafe(destination, source, key, strategy)]; [inner] is
    [_handle_merge[strategy]], which the table below fixes by [partial]. *)
Definition _handle_merge_typesafe (inner : handler) : handler :=
  fun fuel h destination source key =>
    dv ← getitem h destination key;
    sv ← getitem h source key;
    td ← type_of h dv;
    ts ← type_of h sv;
    if decide (td = ts) then inner fuel h destination source key
    else Raise (TypeMismatch td ts key) h.

(** The dispatch table [_handle_merge]. *)
Definition _handle_merge (s : Strategy) : handler :=
  match s with
  | REPLACE => _handle_merge_replace
  | ADDITIVE => _handle_merge_additive
  | TYPESAFE => _handle_merge_typesafe _handle_merge_replace
  | TYPESAFE_REPLACE => _handle_merge_typesafe _handle_merge_replace
  | TYPESAFE_ADDITIVE => _handle_merge_typesafe _handle_merge_additive
  end.

(** What [_handle_merge.get(strategy, Strategy.REPLACE)] evaluates to: the
    handler registered for a member, and otherwise the default, which is
    the enumeration member [Strategy.REPLACE] itself. *)
Inductive callee : Type :=
| Handler (f : handler)
| EnumMember (s : Strategy).

Definition handle_merge_get (strategy : strategy_arg) : callee :=
  match strategy with
  | Member s => Handler (_handle_merge s)
  | Other _ => EnumMember REPLACE
  end.

(** Calling the object that [get] returned with [(dst, src, key)]. *)
Definition call (c : callee) : handler :=
  fun fuel h dst src key =>
    match c with
    | Handler f => f fuel h dst src key
    | EnumMember _ => Raise (NotCallable "Strategy") h
    end.

(** ** [merge] and its inner [_deepmerge] *)

(** The branch the body of the loop takes for one key. *)
Inductive branch : Type :=
| BothMappings (d s : loc)   (* recurse *)
| Equal                      (* pass *)
| Conflict                   (* call the strategy's handler *)
| Absent.                    (* key only in src *)

Definition select_branch (fuel : nat) (h : heap) (dst src : loc) (key : string)
  : outcome branch :=
  '(_, des) ← get_dict h dst;
  match dict_get key des with
  | None => Ok Absent
  | Some dv =>
      sv ← getitem h src key;
      match mapping_loc h dv, mapping_loc h sv with
      | Some d, Some s => Ok (BothMappings d s)
      | _, _ =>
          b ← py_eq fuel h dv sv;
          Ok (if b : bool then Equal else Conflict)
      end
  end.

(** The body of [for key in src]. *)
Definition merge_key (rec : heap → loc → loc → outcome (heap * loc))
    (strategy : strategy_arg) (fuel : nat) (dst src : loc) (key : string) (h : heap)
  : outcome heap :=
  b ← select_branch fuel h dst src key;
  match b with
  | BothMappings d s => '(h1, _) ← rec h d s; Ok h1
  | Equal => Ok h
  | Conflict => call (handle_merge_get strategy) fuel h dst src key
  | Absent =>
      sv ← getitem h src key;
      '(h1, c) ← deepcopy fuel h sv;
      setitem h1 dst key c
  end.

(** [for key in src: body]: the iterator remembers the size of the dict
    ([used]) and its position; each call of [next] first compares the size,
    then yields the key at the position or stops.  [steps] bounds the number
    of keys still to come. *)
Fixpoint for_keys (body : string → heap → outcome heap) (src : loc)
    (used pos steps : nat) (h : heap) {struct steps} : outcome heap :=
  '(_, es) ← get_dict h src;
  if negb (length es =? used) then Raise DictChangedSize h
  else
    match steps, es !! pos with
    | S steps', Some (key, _) =>
        h1 ← body key h;
        for_keys body src used (S pos) steps' h1
    | _, _ => Ok h
    end.

Fixpoint _deepmerge (fuel : nat) (strategy : strategy_arg) (h : heap) (dst src : loc)
    {struct fuel} : outcome (heap * loc) :=
  match fuel with
  | 0 => OutOfFuel
  | S fuel' =>
      '(_, es) ← get_dict h src;
      h1 ← for_keys (merge_key (_deepmerge fuel' strategy) strategy fuel' dst src)
             src (length es) 0 (length es) h;
      Ok (h1, dst)
  end.

(** [functools.reduce(function, iterable, initial)] *)
Fixpoint reduce (f : heap → loc → loc → outcome (heap * loc)) (sources : list loc)
    (h : heap) (acc : loc) : outcome (heap * loc) :=
  match sources with
  | [] => Ok (h, acc)
  | s :: rest => '(h1, acc1) ← f h acc s; reduce f rest h1 acc1
  end.

Definition merge (fuel : nat) (strategy : strategy_arg) (h : heap)
    (destination : loc) (sources : list loc) : outcome (heap * loc) :=
  reduce (_deepmerge fuel strategy) sources h destination.

(** ** Regions of the heap and reachability *)

(** The locations a value mentions, looking through tuples. *)
Fixpoint val_refs (v : value) : list loc :=
  match v with
  | VRef l => [l]
  | VTuple xs => flat_map val_refs xs
  | _ => []
  end.

Definition obj_vals (o : obj) : list value :=
  match o with
  | ODict _ es => es.*2
  | OList _ xs => xs
  | OSet _ xs => xs
  end.

Definition obj_refs (o : obj) : list loc := flat_map val_refs (obj_vals o).

(** [reach h v l]: the object at [l] can be reached from the value [v]. *)
Inductive reach (h : heap) (v : value) : loc → Prop :=
| reach_val l : l ∈ val_refs v → reach h v l
| reach_obj l o l' : reach h v l → h !! l = Some o → l' ∈ obj_refs o → reach h v l'.

(** A region [P] is closed when the objects in it refer to objects in it. *)
Definition closed (P : loc → Prop) (h : heap) : Prop :=
  ∀ l o l', P l → h !! l = Some o → l' ∈ obj_refs o → P l'.

(** A checker for [closed] on a region given as a list. *)
Definition closedb (ls : list loc) (h : heap) : bool :=
  forallb (fun l =>
             match h !! l with
             | Some o => forallb (fun l' => bool_decide (l' ∈ ls)) (obj_refs o)
             | None => true
             end) ls.

(** No object of the heap refers to a location that is not allocated. *)
Definition heap_wf (h : heap) : Prop :=
  Forall (fun o => Forall (fun l => l < length h) (obj_refs o)) h.

#[global] Instance heap_wf_dec (h : heap) : Decision (heap_wf h).
Proof. unfold heap_wf. apply _. Defined.

(** A dictionary holds each key once. *)
Definition obj_keys_wf (o : obj) : Prop :=
  match o with
  | ODict _ es => NoDup es.*1
  | _ => True
  end.

#[global] Instance obj_keys_wf_dec (o : obj) : Decision (obj_keys_wf o).
Proof. destruct o; simpl; apply _. Defined.

Definition keys_wf (h : heap) : Prop := Forall obj_keys_wf h.

#[global] Instance keys_wf_dec (h : heap) : Decision (keys_wf h).
Proof. unfold keys_wf. apply _. Defined.

(** [finite n h v]: [v] unfolds in [h] to a tree of height below [n]; it has
    no dangling reference and lies on no cycle. *)
Fixpoint finite (n : nat) (h : heap) (v : value) {struct n} : bool :=
  match n with
  | 0 => false
  | S n' =>
      match v with
      | VTuple xs => forallb (finite n' h) xs
      | VRef l =>
          match h !! l with
          | Some o => forallb (finite n' h) (obj_vals o)
          | None => false
          end
      | _ => true
      end
  end.

(** ** Outcomes *)

(** A computation that raises no exception. *)
Definition no_raise {A} (m : outcome A) : Prop := ∀ e h, m ≠ Raise e h.

(** [wlp m Q E]: if [m] returns, [Q] holds of what it returns, and if it
    raises, [E] holds of the exception and of the heap it leaves. *)
Definition wlp {A} (m : outcome A) (Q : A → Prop) (E : exn → heap → Prop) : Prop :=
  match m with
  | Ok a => Q a
  | Raise e h => E e h
  | _ => True
  end.

(** [ends_in m h']: the run [m] returned or raised, leaving the heap [h']. *)
Definition ends_in {A} (m : outcome (heap * A)) (h' : heap) : Prop :=
  match m with
  | Ok (h1, _) => h1 = h'
  | Raise _ h1 => h1 = h'
  | _ => False
  end.

Definition is_type_mismatch (e : exn) : Prop :=
  match e with TypeMismatch _ _ _ => True | _ => False end.

(** The strategies that compare the types of the two values. *)
Definition typesafe (s : Strategy) : bool :=
  match s with
  | TYPESAFE | TYPESAFE_REPLACE | TYPESAFE_ADDITIVE => true
  | _ => false
  end.

(** The exceptions expected of a merge called with [strategy]: the type
    mismatch of the type-safe strategies and, for an argument that is not a
    strategy, the failed call of the default. *)
Definition allowed (strategy : strategy_arg) (e : exn) : Prop :=
  match e, strategy with
  | TypeMismatch _ _ _, Member s => typesafe s = true
  | NotCallable _, Other _ => True
  | _, _ => False
  end.

(** Where a type mismatch comes from: in the heap [h] some mapping [dst] and
    some mapping [src] hold at [key] two values that are not both mappings,
    that are unequal, and whose types [td] and [ts] differ. *)
Definition conflict_site (h : heap) (td ts : pytype) (key : string) : Prop :=
  ∃ dst src dv sv fuel,
    getitem h dst key = Ok dv ∧ getitem h src key = Ok sv ∧
    is_mapping h dv && is_mapping h sv = false ∧
    py_eq fuel h dv sv = Ok false ∧
    type_of h dv = Ok td ∧ type_of h sv = Ok ts ∧ td ≠ ts.

(** A type mismatch is raised under a type-safe strategy, at a conflict. *)
Definition mismatch_at_conflict (strategy : strategy_arg) (e : exn) (h : heap) : Prop :=
  match e with
  | TypeMismatch td ts key =>
      (∃ s, strategy = Member s ∧ typesafe s = true) ∧ conflict_site h td ts key
  | _ => True
  end.

(** ** What a deep copy is

    The copy is the image of the original under a renaming [ρ] of locations:
    every object reachable from the original has a new object, at a location
    that was not allocated before, that holds the same items, renamed. *)

(** [heap_ext h h']: [h'] is [h] with new objects allocated after it. *)
Definition heap_ext (h h' : heap) : Prop :=
  length h ≤ length h' ∧ ∀ l, l < length h → h' !! l = h !! l.

Fixpoint rename_val (ρ : gmap loc loc) (v : value) : value :=
  match v with
  | VRef l => match ρ !! l with Some l' => VRef l' | None => VRef l end
  | VTuple xs => VTuple (rename_val ρ <$> xs)
  | _ => v
  end.

Definition rename_obj (ρ : gmap loc loc) (o : obj) : obj :=
  match o with
  | ODict c es => ODict c (prod_map id (rename_val ρ) <$> es)
  | OList c xs => OList c (rename_val ρ <$> xs)
  | OSet c xs => OSet c (rename_val ρ <$> xs)
  end.

Definition copied (ρ : gmap loc loc) (h h1 : heap) (l l' : loc) : Prop :=
  length h ≤ l' ∧
  ∃ o, h !! l = Some o ∧ h1 !! l' = Some (rename_obj ρ o) ∧
       ∀ x, x ∈ obj_refs o → is_Some (ρ !! x).

(** [deep_copy_by ρ h v h1 c]: in [h1], [c] is a deep copy of the value [v]
    of [h], and [ρ] maps the objects of [v] to their copies. *)
Definition deep_copy_by (ρ : gmap loc loc) (h : heap) (v : value) (h1 : heap)
    (c : value) : Prop :=
  c = rename_val ρ v ∧
  (∀ x, x ∈ val_refs v → is_Some (ρ !! x)) ∧
  (∀ l l', ρ !! l = Some l' → copied ρ h h1 l l') ∧
  heap_ext h h1.

Definition deep_copy (h : heap) (v : value) (h1 : heap) (c : value) : Prop :=
  ∃ ρ : gmap loc loc, deep_copy_by ρ h v h1 c.

(** During a copy started when [n0] locations were allocated: the copies,
    and all they refer to, lie at [n0] and above. *)
Definition copy_ok (n0 : nat) (st : copy_state) : Prop :=
  n0 ≤ length st.1 ∧
  (∀ l l', st.2 !! l = Some l' → n0 ≤ l') ∧
  closed (le n0) st.1.

Definition copy_post (n0 : nat) (st : copy_state) (st' : copy_state) (refs : list loc) : Prop :=
  copy_ok n0 st' ∧ heap_ext st.1 st'.1 ∧ Forall (le n0) refs.

(** The state of a copy of values of [h0] that is under way: the memo [ρ]
    is injective and maps into the new part of the heap, and the copy of
    every original that is not still being filled (not in [A]) is the
    original, renamed by [ρ]. *)
Definition copying (h0 : heap) (A : loc → Prop) (st : copy_state) : Prop :=
  heap_ext h0 st.1 ∧
  (∀ l l', st.2 !! l = Some l' →
           l' < length st.1 ∧ (A l ∨ copied st.2 h0 st.1 l l')) ∧
  (∀ l1 l2 l', st.2 !! l1 = Some l' → st.2 !! l2 = Some l' → l1 = l2).

Definition copy_result (h0 : heap) (A : loc → Prop) (st : copy_state)
    (reached : loc → Prop) (st' : copy_state) : Prop :=
  copying h0 A st' ∧ st.2 ⊆ st'.2 ∧ heap_ext st.1 st'.1 ∧
  (∀ x, is_Some (st'.2 !! x) → is_Some (st.2 !! x) ∨ reached x).

(** ** Separation of the destination from the sources *)

(** [frame R h h']: from [h] to [h'] the heap grew and changed only in [R]. *)
Definition frame (R : loc → Prop) (h h' : heap) : Prop :=
  length h ≤ length h' ∧ ∀ l, ¬ R l → h' !! l = h !! l.

(** A region that a computation may write: it is closed and contains all
    the locations not allocated yet. *)
Definition region (R : loc → Prop) (h : heap) : Prop :=
  (∀ l, length h ≤ l → R l) ∧ closed R h.

(** [step R h h']: a run from [h] to [h'] that wrote only in the region [R]
    and left it a region. *)
Definition step (R : loc → Prop) (h h' : heap) : Prop :=
  frame R h h' ∧ region R h'.

(** [R] is the region the merge may write (what the destination reaches,
    and what is not allocated yet), [Q] the region of the sources. *)
Definition sep (R Q : loc → Prop) (h : heap) : Prop :=
  region R h ∧ closed Q h ∧ ∀ l, Q l → ¬ R l.

(** No object that the destination reaches is reached by a source. *)
Definition separate (h : heap) (D : loc) (sources : list loc) : Prop :=
  ∀ s l, s ∈ sources → reach h (VRef s) l → ¬ reach h (VRef D) l.

(** ** What a merge keeps

    The code writes to existing objects in three ways only: [d[key] = v],
    [lst.extend] and [s.update].  None of them removes anything. *)

(** [obj_grows o o']: [o'] has the class of [o]; a dictionary has kept its
    keys, in their order, before any new key; a list or a set has kept its
    items, in their order, before any new item. *)
Definition obj_grows (o o' : obj) : Prop :=
  match o, o' with
  | ODict c es, ODict c' es' => c = c' ∧ es.*1 `prefix_of` es'.*1
  | OList c xs, OList c' xs' => c = c' ∧ xs `prefix_of` xs'
  | OSet c xs, OSet c' xs' => c = c' ∧ xs `prefix_of` xs'
  | _, _ => False
  end.

Definition heap_grows (h h' : heap) : Prop :=
  ∀ l o, h !! l = Some o → ∃ o', h' !! l = Some o' ∧ obj_grows o o'.

(** The keys of the dictionary at [d], in its order. *)
Definition dict_keys (h : heap) (d : loc) : list string :=
  match h !! d with
  | Some (ODict _ es) => es.*1
  | _ => []
  end.

(** The exceptions a merge can raise on any input: those of [allowed], and
    the one of the iterator over a dictionary that has changed size. *)
Definition expected (strategy : strategy_arg) (e : exn) : Prop :=
  allowed strategy e ∨ e = DictChangedSize.

(** The strategy that an entry of the table hands over to: a type-safe
    entry is [partial(_handle_merge_typesafe, strategy=...)], the two others
    stand for themselves. *)
Definition delegate (s : Strategy) : Strategy :=
  match s with
  | TYPESAFE | TYPESAFE_REPLACE => REPLACE
  | TYPESAFE_ADDITIVE => ADDITIVE
  | REPLACE => REPLACE
  | ADDITIVE => ADDITIVE
  end.

(** [m1] does what [m2] does, or raises a type mismatch. *)
Definition refines {A} (m1 m2 : outcome A) : Prop :=
  match m1 with
  | Ok a => m2 = Ok a
  | Raise e h => is_type_mismatch e ∨ m2 = Raise e h
  | _ => True
  end.






(** Every reference of the value is allocated. *)
Definition valid (h : heap) (v : value) : Prop :=
  ∀ x, x ∈ val_refs v → x < length h.

(** A run that returns or raises: it does not stop for want of budget, and
    it does not leave the types the model covers. *)
Definition runs {A} (m : outcome A) : Prop :=
  match m with
  | Ok _ | Raise _ _ => True
  | _ => False
  end.

(** [isinstance(v, float)] *)
Definition is_float (v : value) : bool :=
  match v with VFloat _ _ => true | _ => false end.

(** ** Example heaps

    Each heap holds the destination at location 0 and the (first) source at
    location 1. *)

(* D = {"a": 1, "b": 2}, S = {"a": 9, "c": 3} *)
Definition heap_replace : heap :=
  [ODict None [("a", VInt 1); ("b", VInt 2)];
   ODict None [("a", VInt 9); ("c", VInt 3)]].

(* D = {"items": [1, 2]}, S = {"items": [3, 4]} *)
Definition heap_lists : heap :=
  [ODict None [("items", VRef 2)]; ODict None [("items", VRef 3)];
   OList None [VInt 1; VInt 2]; OList None [VInt 3; VInt 4]].

(* D = {"tags": {1, 2}}, S = {"tags": {2, 3}} *)
Definition heap_sets : heap :=
  [ODict None [("tags", VRef 2)]; ODict None [("tags", VRef 3)];
   OSet None [VInt 1; VInt 2]; OSet None [VInt 2; VInt 3]].

(* D = {"t": (1, 2)}, S = {"t": (3,)} *)
Definition heap_tuples : heap :=
  [ODict None [("t", VTuple [VInt 1; VInt 2])]; ODict None [("t", VTuple [VInt 3])]].

(* D = {"k": [1]}, S = {"k": "str"} *)
Definition heap_mismatch : heap :=
  [ODict None [("k", VRef 2)]; ODict None [("k", VStr "str")]; OList None [VInt 1]].

(* D = {"k": [1]}, S = {"k": [2]} *)
Definition heap_same_type : heap :=
  [ODict None [("k", VRef 2)]; ODict None [("k", VRef 3)];
   OList None [VInt 1]; OList None [VInt 2]].

(* D = {"a": 1}, S = {"a": 1.0} *)
Definition heap_int_float : heap :=
  [ODict None [("a", VInt 1)]; ODict None [("a", VFloat 1 0)]].

(* D = {"x": {"a": 1}}, S = {"x": Settings(b=2), where class Settings(dict): pass} *)
Definition heap_nested : heap :=
  [ODict None [("x", VRef 2)]; ODict None [("x", VRef 3)];
   ODict None [("a", VInt 1)]; ODict (Some "Settings") [("b", VInt 2)]].

(* D = {"x": {"a": 1}}, S = {"x": Settings(a=1.0)} *)
Definition heap_equal_nested : heap :=
  [ODict None [("x", VRef 2)]; ODict None [("x", VRef 3)];
   ODict None [("a", VInt 1)]; ODict (Some "Settings") [("a", VFloat 1 0)]].

(* D = {"k": {"a": 1}}, S = {"k": 5} *)
Definition heap_mapping_scalar : heap :=
  [ODict None [("k", VRef 2)]; ODict None [("k", VInt 5)]; ODict None [("a", VInt 1)]].

(* Y = {"a": {"q": 1}}, D = {"a": Y}, S = Y *)
Definition heap_nested_alias : heap :=
  [ODict None [("a", VRef 1)]; ODict None [("a", VRef 2)]; ODict None [("q", VInt 1)]].

(* L = [1], D = {"k": L}, S = {"k": [2], "z": L} *)
Definition heap_shared_list : heap :=
  [ODict None [("k", VRef 2)]; ODict None [("k", VRef 3); ("z", VRef 2)];
   OList None [VInt 1]; OList None [VInt 2]].

(* D = {"a": 1}, S1 = {"b": [2]}, S2 = {"b": [3], "c": 4} (at location 2) *)
Definition heap_two_sources : heap :=
  [ODict None [("a", VInt 1)]; ODict None [("b", VRef 3)];
   ODict None [("b", VRef 4); ("c", VInt 4)]; OList None [VInt 2]; OList None [VInt 3]].

(** * Properties *)

Arguments outcome_bind {_ _} _ !_ /.
Arguments outcome_ret {_} _ /.

(** ** The outcome monad *)

Lemma bind_Ok {A B} (m : outcome A) (f : A → outcome B) (b : B) :
  m ≫= f = Ok b → ∃ a, m = Ok a ∧ f a = Ok b.
Proof. destruct m; simpl; try discriminate; eauto. Qed.

Lemma wlp_bind {A B} (m : outcome A) (f : A → outcome B) Q E :
  wlp m (fun a => wlp (f a) Q E) E → wlp (m ≫= f) Q E.
Proof. destruct m; simpl; auto. Qed.

Lemma wlp_mono {A} (m : outcome A) (Q Q' : A → Prop) (E E' : exn → heap → Prop) :
  wlp m Q E → (∀ a, Q a → Q' a) → (∀ e h, E e h → E' e h) → wlp m Q' E'.
Proof. destruct m; simpl; auto. Qed.

Ltac inv_bind H :=
  let a := fresh "a" in
  let Ha := fresh "Ha" in
  apply bind_Ok in H as (a & Ha & H).

(** ** Dictionaries *)

Lemma dict_get_set_eq key v es : dict_get key (dict_set key v es) = Some v.
Proof.
  induction es as [|[k v0] es IH]; simpl.
  - by rewrite String.eqb_refl.
  - destruct (String.eqb key k) eqn:E; simpl; rewrite E; [done | apply IH].
Qed.


Lemma dict_get_lookup es pos key v :
  es !! pos = Some (key, v) → is_Some (dict_get key es).
Proof.
  revert pos. induction es as [|[k v0] es IH]; intros pos; [done|].
  simpl. destruct (String.eqb key k) eqn:E; [eauto|].
  destruct pos as [|pos]; simpl.
  - intros [= -> ->]. by rewrite String.eqb_refl in E.
  - apply IH.
Qed.

Lemma dict_get_elem key es v : dict_get key es = Some v → v ∈ es.*2.
Proof.
  induction es as [|[k v0] es IH]; simpl; [done|].
  destruct (String.eqb key k).
  - intros [= ->]. left.
  - intros H. right. auto.
Qed.

Lemma dict_set_elem key v es w :
  w ∈ (dict_set key v es).*2 → w = v ∨ w ∈ es.*2.
Proof.
  induction es as [|[k v0] es IH]; simpl.
  - intros H. apply list_elem_of_singleton in H. auto.
  - destruct (String.eqb key k); simpl; intros H.
    + apply elem_of_cons in H as [->|H]; [auto|]. right. by right.
    + apply elem_of_cons in H as [->|H]; [right; left|].
      destruct (IH H); [auto|]. right. by right.
Qed.

Lemma getitem_inv h d key v :
  getitem h d key = Ok v →
  ∃ c es, h !! d = Some (ODict c es) ∧ dict_get key es = Some v.
Proof.
  unfold getitem, get_dict.
  destruct (h !! d) as [[c es| |]|]; simpl; try done.
  destruct (dict_get key es) eqn:E; [|done]. intros [= ->]. eauto.
Qed.

Lemma getitem_intro h d key c es v :
  h !! d = Some (ODict c es) → dict_get key es = Some v → getitem h d key = Ok v.
Proof. intros Hd Hk. unfold getitem, get_dict. rewrite Hd. simpl. by rewrite Hk. Qed.

(** ** The branches of the loop body *)

Lemma select_branch_present fuel h dst src key dv sv :
  getitem h dst key = Ok dv → getitem h src key = Ok sv →
  select_branch fuel h dst src key =
  match mapping_loc h dv, mapping_loc h sv with
  | Some d, Some s => Ok (BothMappings d s)
  | _, _ => b ← py_eq fuel h dv sv; Ok (if b : bool then Equal else Conflict)
  end.
Proof.
  intros (c & es & Hd & Hk)%getitem_inv Hs.
  unfold select_branch, get_dict. rewrite Hd. simpl. rewrite Hk, Hs. done.
Qed.


Lemma select_branch_mappings fuel h dst src key dv sv d s :
  getitem h dst key = Ok dv → getitem h src key = Ok sv →
  mapping_loc h dv = Some d → mapping_loc h sv = Some s →
  select_branch fuel h dst src key = Ok (BothMappings d s).
Proof.
  intros Hd Hs Hmd Hms. rewrite (select_branch_present _ _ _ _ _ _ _ Hd Hs).
  by rewrite Hmd, Hms.
Qed.

Lemma select_branch_compare fuel h dst src key dv sv :
  getitem h dst key = Ok dv → getitem h src key = Ok sv →
  is_mapping h dv && is_mapping h sv = false →
  select_branch fuel h dst src key =
  b ← py_eq fuel h dv sv; Ok (if b : bool then Equal else Conflict).
Proof.
  intros Hd Hs Hm. rewrite (select_branch_present _ _ _ _ _ _ _ Hd Hs).
  unfold is_mapping in Hm.
  destruct (mapping_loc h dv), (mapping_loc h sv); done.
Qed.

Lemma select_branch_conflict fuel h dst src key dv sv :
  getitem h dst key = Ok dv → getitem h src key = Ok sv →
  (select_branch fuel h dst src key = Ok Conflict ↔
   is_mapping h dv && is_mapping h sv = false ∧ py_eq fuel h dv sv = Ok false).
Proof.
  intros Hd Hs. rewrite (select_branch_present _ _ _ _ _ _ _ Hd Hs).
  unfold is_mapping.
  destruct (mapping_loc h dv), (mapping_loc h sv); simpl;
    [split; [done|by intros [? _]]|..];
    destruct (py_eq fuel h dv sv) as [[]| | |]; simpl;
    (split; [done|by intros [_ ?]]).
Qed.

Lemma merge_key_mappings rec strategy fuel h dst src key dv sv d s :
  getitem h dst key = Ok dv → getitem h src key = Ok sv →
  mapping_loc h dv = Some d → mapping_loc h sv = Some s →
  merge_key rec strategy fuel dst src key h = '(h1, _) ← rec h d s; Ok h1.
Proof.
  intros Hd Hs Hmd Hms. unfold merge_key.
  by rewrite (select_branch_mappings _ _ _ _ _ _ _ _ _ Hd Hs Hmd Hms).
Qed.

Lemma merge_key_equal rec strategy fuel h dst src key dv sv :
  getitem h dst key = Ok dv → getitem h src key = Ok sv →
  is_mapping h dv && is_mapping h sv = false → py_eq fuel h dv sv = Ok true →
  merge_key rec strategy fuel dst src key h = Ok h.
Proof.
  intros Hd Hs Hm He. unfold merge_key.
  rewrite (select_branch_compare _ _ _ _ _ _ _ Hd Hs Hm), He. done.
Qed.

Lemma merge_key_conflict rec strategy fuel h dst src key dv sv :
  getitem h dst key = Ok dv → getitem h src key = Ok sv →
  is_mapping h dv && is_mapping h sv = false → py_eq fuel h dv sv = Ok false →
  merge_key rec strategy fuel dst src key h =
  call (handle_merge_get strategy) fuel h dst src key.
Proof.
  intros Hd Hs Hm He. unfold merge_key.
  rewrite (select_branch_compare _ _ _ _ _ _ _ Hd Hs Hm), He. done.
Qed.

(** ** The fold over the sources *)

Lemma reduce_app f ss1 ss2 h acc :
  reduce f (ss1 ++ ss2) h acc = '(h1, acc1) ← reduce f ss1 h acc; reduce f ss2 h1 acc1.
Proof.
  revert h acc. induction ss1 as [|s ss1 IH]; intros h acc; simpl; [done|].
  destruct (f h acc s) as [[h1 acc1]| | |]; simpl; auto.
Qed.

Lemma deepmerge_returns_dst fuel strategy h dst src h' r :
  _deepmerge fuel strategy h dst src = Ok (h', r) → r = dst.
Proof.
  destruct fuel as [|fuel]; simpl; [done|].
  intros H. inv_bind H. destruct a as [c es]. inv_bind H. by injection H as _ <-.
Qed.

Lemma reduce_returns_acc fuel strategy sources h acc h' r :
  reduce (_deepmerge fuel strategy) sources h acc = Ok (h', r) → r = acc.
Proof.
  revert h acc. induction sources as [|s ss IH]; intros h acc; simpl.
  - by intros [= _ ->].
  - intros H. inv_bind H. destruct a as [h1 acc1].
    apply deepmerge_returns_dst in Ha as ->. eauto.
Qed.

(** C5. Sources are folded into the destination from left to right:
    [merge(D, S1, S2)] does what [merge(merge(D, S1), S2)] does, for every
    strategy; the second source is merged into the destination that the
    first merge returned, in the heap that it left, and an exception of the
    first merge is the exception of the whole.  The same holds for any two
    runs of sources, one after the other. *)
Theorem merge_left_to_right_fold fuel strategy h D :
  (∀ S1 S2,
     merge fuel strategy h D [S1; S2] =
     '(h1, D1) ← merge fuel strategy h D [S1]; merge fuel strategy h1 D1 [S2]) ∧
  (∀ ss1 ss2,
     merge fuel strategy h D (ss1 ++ ss2) =
     '(h1, D1) ← merge fuel strategy h D ss1; merge fuel strategy h1 D1 ss2).
Proof.
  split.
  - intros S1 S2. unfold merge. apply (reduce_app _ [S1] [S2]).
  - intros ss1 ss2. unfold merge. apply reduce_app.
Qed.

(** C6. [merge(D)] with no source returns [D] and leaves the heap as it
    is, and every call of [merge] that returns, returns the reference [D]
    it was given. *)
Theorem merge_returns_destination fuel strategy h D sources :
  merge fuel strategy h D [] = Ok (h, D) ∧
  (∀ h' r, merge fuel strategy h D sources = Ok (h', r) → r = D).
Proof.
  split; [done|]. intros h' r. apply reduce_returns_acc.
Qed.

Lemma merge_returns_destination_witness :
  merge 5 (Member ADDITIVE) heap_lists 0 [1] =
    Ok ([ODict None [("items", VRef 2)]; ODict None [("items", VRef 3)];
         OList None [VInt 1; VInt 2; VInt 3; VInt 4];
         OList None [VInt 3; VInt 4]; OList None [VInt 3; VInt 4]], 0) ∧
  0 = 0.
Proof.
  split; [vm_compute; reflexivity|].
  eapply (proj2 (merge_returns_destination 5 (Member ADDITIVE) heap_lists 0 [1])).
  vm_compute. reflexivity.
Defined.

(** C1 (the code does not do what the claim says).  With a [strategy] that
    is not a member of [Strategy], [_handle_merge.get(strategy,
    Strategy.REPLACE)] returns the member [Strategy.REPLACE], which is not a
    function: at every conflicting key the call raises [TypeError:
    'Strategy' object is not callable] and the destination is left as it
    was, where the claim has the value replaced.  So does
    [merge({"a": 1, "b": 2}, {"a": 9, "c": 3}, strategy="replace")]. *)
Theorem unknown_strategy_is_not_callable :
  (∀ rec repr fuel h dst src key,
     select_branch fuel h dst src key = Ok Conflict →
     merge_key rec (Other repr) fuel dst src key h = Raise (NotCallable "Strategy") h) ∧
  merge 5 (Other "replace") heap_replace 0 [1] =
    Raise (NotCallable "Strategy") heap_replace.
Proof.
  split; [|vm_compute; reflexivity].
  intros rec repr fuel h dst src key H. unfold merge_key. by rewrite H.
Qed.

Lemma unknown_strategy_is_not_callable_witness :
  select_branch 5 heap_replace 0 1 "a" = Ok Conflict ∧
  merge_key (_deepmerge 5 (Other "replace")) (Other "replace") 5 0 1 "a" heap_replace =
    Raise (NotCallable "Strategy") heap_replace.
Proof.
  split; [vm_compute; reflexivity|].
  apply (proj1 unknown_strategy_is_not_callable). vm_compute. reflexivity.
Defined.

(** ** [==] raises nothing *)

Lemma no_raise_bind {A B} (m : outcome A) (f : A → outcome B) :
  no_raise m → (∀ a, no_raise (f a)) → no_raise (m ≫= f).
Proof.
  intros Hm Hf e h. destruct m; simpl; try done.
  - apply Hf.
  - intros [= -> ->]. by eapply Hm.
Qed.

Lemma all2M_no_raise {A} (f : A → A → outcome bool) xs ys :
  (∀ x y, no_raise (f x y)) → no_raise (all2M f xs ys).
Proof.
  intros Hf. revert ys. induction xs as [|x xs IH]; intros [|y ys]; simpl; try done.
  apply no_raise_bind; [done|]. intros []; [apply IH|done].
Qed.

Lemma existsM_no_raise {A} (f : A → outcome bool) xs :
  (∀ x, no_raise (f x)) → no_raise (existsM f xs).
Proof.
  intros Hf. induction xs as [|x xs IH]; simpl; [done|].
  apply no_raise_bind; [done|]. by intros [].
Qed.

Lemma forallM_no_raise {A} (f : A → outcome bool) xs :
  (∀ x, no_raise (f x)) → no_raise (forallM f xs).
Proof.
  intros Hf. induction xs as [|x xs IH]; simpl; [done|].
  apply no_raise_bind; [done|]. by intros [].
Qed.

Lemma item_eq_no_raise eq x y :
  (∀ a b, no_raise (eq a b)) → no_raise (item_eq eq x y).
Proof.
  intros Heq. unfold item_eq. destruct x, y; try apply Heq.
  destruct (_ =? _); [done|apply Heq].
Qed.

Lemma py_eq_no_raise fuel h a b : no_raise (py_eq fuel h a b).
Proof.
  revert a b. induction fuel as [|fuel IH]; intros a b; simpl; [done|].
  assert (Hitem : ∀ x y, no_raise (item_eq (py_eq fuel h) x y))
    by (intros; by apply item_eq_no_raise).
  unfold eq_step. destruct a, b; try done.
  - by apply all2M_no_raise.
  - destruct (h !! l) as [[]|], (h !! l0) as [[]|]; try done;
      destruct (_ =? _); try done.
    + apply forallM_no_raise. intros [k v]. simpl.
      destruct (dict_get k entries0); [apply Hitem|done].
    + by apply all2M_no_raise.
    + apply forallM_no_raise. intros x. by apply existsM_no_raise.
Qed.

(** ** The type-safe handlers *)


Lemma handle_merge_typesafe_match inner fuel h dst src key dv sv t :
  getitem h dst key = Ok dv → getitem h src key = Ok sv →
  type_of h dv = Ok t → type_of h sv = Ok t →
  _handle_merge_typesafe inner fuel h dst src key = inner fuel h dst src key.
Proof.
  intros Hd Hs Htd Hts. unfold _handle_merge_typesafe.
  rewrite Hd, Hs. simpl. rewrite Htd, Hts. simpl. by rewrite decide_True.
Qed.

Lemma for_keys_ext body1 body2 src used :
  (∀ key h, body1 key h = body2 key h) →
  ∀ steps pos h,
    for_keys body1 src used pos steps h = for_keys body2 src used pos steps h.
Proof.
  intros Hb. induction steps as [|steps IH]; intros pos h; simpl; [done|].
  destruct (get_dict h src) as [[c es]| | |]; simpl; try done.
  destruct (negb (length es =? used)); [done|].
  destruct (es !! pos) as [[key v]|]; [|done].
  rewrite Hb. destruct (body2 key h); simpl; auto.
Qed.

Lemma deepmerge_typesafe_alias fuel :
  ∀ h dst src,
    _deepmerge fuel (Member TYPESAFE) h dst src =
    _deepmerge fuel (Member TYPESAFE_REPLACE) h dst src.
Proof.
  induction fuel as [|fuel IH]; intros h dst src; simpl; [done|].
  destruct (get_dict h src) as [[c es]| | |]; simpl; try done.
  rewrite (for_keys_ext _ (merge_key (_deepmerge fuel (Member TYPESAFE_REPLACE))
                             (Member TYPESAFE_REPLACE) fuel dst src)); [done|].
  intros key h0. unfold merge_key.
  destruct (select_branch fuel h0 dst src key) as [[]| | |]; simpl; try done.
  by rewrite IH.
Qed.

Lemma reduce_ext f g sources :
  (∀ h d s, f h d s = g h d s) →
  ∀ h acc, reduce f sources h acc = reduce g sources h acc.
Proof.
  intros Hfg. induction sources as [|s ss IH]; intros h acc; simpl; [done|].
  rewrite Hfg. destruct (g h acc s) as [[h1 acc1]| | |]; simpl; auto.
Qed.

(** C9. Merging with TYPESAFE is merging with TYPESAFE_REPLACE: the same
    outcome, hence the same heap, the same returned reference and the same
    exception, for every input.  Under either, a conflict between two values
    of one concrete type is resolved as REPLACE resolves it, and
    [merge({"k": [1]}, {"k": [2]}, strategy=TYPESAFE_REPLACE)] leaves
    [{"k": [2]}], the new list being a copy. *)
Theorem typesafe_is_typesafe_replace :
  (∀ fuel h D sources,
     merge fuel (Member TYPESAFE) h D sources =
     merge fuel (Member TYPESAFE_REPLACE) h D sources) ∧
  (∀ rec s fuel h dst src key dv sv t,
     s = TYPESAFE ∨ s = TYPESAFE_REPLACE →
     getitem h dst key = Ok dv → getitem h src key = Ok sv →
     is_mapping h dv && is_mapping h sv = false → py_eq fuel h dv sv = Ok false →
     type_of h dv = Ok t → type_of h sv = Ok t →
     merge_key rec (Member s) fuel dst src key h =
     _handle_merge_replace fuel h dst src key) ∧
  merge 5 (Member TYPESAFE_REPLACE) heap_same_type 0 [1] =
    Ok ([ODict None [("k", VRef 4)]; ODict None [("k", VRef 3)];
         OList None [VInt 1]; OList None [VInt 2]; OList None [VInt 2]], 0).
Proof.
  split; [|split; [|vm_compute; reflexivity]].
  - intros fuel h D sources. unfold merge.
    apply reduce_ext. intros. apply deepmerge_typesafe_alias.
  - intros rec s fuel h dst src key dv sv t Hs Hd Hsv Hm He Htd Hts.
    rewrite (merge_key_conflict _ _ _ _ _ _ _ _ _ Hd Hsv Hm He).
    destruct Hs as [-> | ->]; simpl;
      apply (handle_merge_typesafe_match _ _ _ _ _ _ _ _ _ Hd Hsv Htd Hts).
Qed.

Lemma typesafe_is_typesafe_replace_witness :
  let h := heap_same_type in
  type_of h (VRef 2) = Ok (TList None) ∧ type_of h (VRef 3) = Ok (TList None) ∧
  merge_key (_deepmerge 5 (Member TYPESAFE)) (Member TYPESAFE) 5 0 1 "k" h =
  _handle_merge_replace 5 h 0 1 "k".
Proof.
  intros h. split; [vm_compute; reflexivity|]. split; [vm_compute; reflexivity|].
  apply (proj1 (proj2 typesafe_is_typesafe_replace)
           (_deepmerge 5 (Member TYPESAFE)) TYPESAFE 5 h 0 1 "k" (VRef 2) (VRef 3)
           (TList None));
    first [by left | vm_compute; reflexivity].
Defined.

(** ** Heaps that grow *)

Lemma heap_ext_refl h : heap_ext h h.
Proof. split; auto. Qed.

Lemma heap_ext_trans h1 h2 h3 : heap_ext h1 h2 → heap_ext h2 h3 → heap_ext h1 h3.
Proof.
  intros [L1 E1] [L2 E2]. split; [lia|].
  intros l Hl. rewrite E2 by lia. by apply E1.
Qed.

Lemma heap_ext_app h o : heap_ext h (h ++ [o]).
Proof.
  split; [rewrite length_app; simpl; lia|].
  intros l Hl. by apply lookup_app_l.
Qed.

Lemma heap_ext_insert_fresh h h1 l o :
  heap_ext h h1 → length h ≤ l → heap_ext h (<[l := o]> h1).
Proof.
  intros [L E] Hl. split; [by rewrite length_insert|].
  intros l2 Hl2. rewrite list_lookup_insert_ne by lia. by apply E.
Qed.

Lemma elem_of_flat_map {A B} (f : A → list B) (xs : list A) (b : B) :
  b ∈ flat_map f xs ↔ ∃ x, x ∈ xs ∧ b ∈ f x.
Proof.
  rewrite list_elem_of_In, in_flat_map. split; intros (x & H1 & H2); exists x.
  - by rewrite !list_elem_of_In.
  - by rewrite <- !list_elem_of_In.
Qed.

Lemma obj_refs_elem o l : l ∈ obj_refs o ↔ ∃ v, v ∈ obj_vals o ∧ l ∈ val_refs v.
Proof. apply elem_of_flat_map. Qed.

Lemma val_refs_tuple xs l : l ∈ val_refs (VTuple xs) ↔ ∃ x, x ∈ xs ∧ l ∈ val_refs x.
Proof. apply elem_of_flat_map. Qed.

Lemma closed_app (P : loc → Prop) h o :
  closed P h → (∀ l, l ∈ obj_refs o → P l) → closed P (h ++ [o]).
Proof.
  intros Hc Ho l o' l' HP Hl Hl'.
  destruct (decide (l < length h)) as [Hlt|Hge].
  - rewrite lookup_app_l in Hl by done. eauto.
  - rewrite lookup_app_r in Hl by lia.
    destruct (l - length h) as [|k] eqn:E; simpl in Hl; [|by destruct k].
    injection Hl as <-. auto.
Qed.

Lemma closed_insert (P : loc → Prop) h l o :
  closed P h → (∀ l', l' ∈ obj_refs o → P l') → closed P (<[l := o]> h).
Proof.
  intros Hc Ho l1 o' l' HP Hl Hl'.
  destruct (decide (l = l1)) as [->|Hne].
  - destruct (decide (l1 < length h)) as [Hlt|Hge].
    + rewrite list_lookup_insert_eq in Hl by done. injection Hl as <-. auto.
    + rewrite list_insert_ge in Hl by lia. eauto.
  - rewrite list_lookup_insert_ne in Hl by done. eauto.
Qed.

(** ** [deepcopy] allocates and writes only new objects *)

Lemma copy_items_post n0 copy :
  (∀ st v st' c, copy st v = Ok (st', c) → copy_ok n0 st →
                 copy_post n0 st st' (val_refs c)) →
  ∀ xs st st' ys, copy_items copy st xs = Ok (st', ys) → copy_ok n0 st →
                  copy_post n0 st st' (flat_map val_refs ys).
Proof.
  intros Hcopy. induction xs as [|x xs IH]; intros st st' ys H Hok; simpl in H.
  - injection H as <- <-. split; [done|]. split; [apply heap_ext_refl|constructor].
  - inv_bind H. destruct a as [st1 y]. inv_bind H. destruct a as [st2 ys'].
    injection H as <- <-.
    destruct (Hcopy _ _ _ _ Ha Hok) as (Hok1 & He1 & Hy).
    destruct (IH _ _ _ Ha0 Hok1) as (Hok2 & He2 & Hys).
    split; [done|]. split; [by eapply heap_ext_trans|].
    simpl. apply Forall_app. done.
Qed.

Lemma copy_entries_items copy st es :
  copy_entries copy st es =
  '(st', ys) ← copy_items copy st es.*2; Ok (st', zip es.*1 ys).
Proof.
  revert st. induction es as [|[k x] es IH]; intros st; simpl; [done|].
  destruct (copy st x) as [[st1 y]| | |]; simpl; try done.
  rewrite IH. destruct (copy_items copy st1 _) as [[st2 ys]| | |]; simpl; done.
Qed.

Lemma copy_items_length copy xs : ∀ st st' ys,
  copy_items copy st xs = Ok (st', ys) → length ys = length xs.
Proof.
  induction xs as [|x xs IH]; intros st st' ys H; simpl in H.
  - by injection H as <- <-.
  - inv_bind H. destruct a as [st1 y]. inv_bind H. destruct a as [st2 ys'].
    injection H as <- <-. simpl. f_equal. eauto.
Qed.

Lemma zip_snd_length {A B} (ks : list A) (ys : list B) :
  length ys = length ks → (zip ks ys).*2 = ys.
Proof. intros H. apply snd_zip. lia. Qed.

Lemma deepcopy_memo_post n0 fuel :
  ∀ st v st' c, deepcopy_memo fuel st v = Ok (st', c) → copy_ok n0 st →
                copy_post n0 st st' (val_refs c).
Proof.
  induction fuel as [|fuel IH]; intros st v st' c H Hok; simpl in H; [done|].
  destruct v as [| | | | |xs|l];
    try (injection H as <- <-; split; [done|]; split; [apply heap_ext_refl|constructor]).
  - (* tuple *)
    inv_bind H. destruct a as [st1 ys]. injection H as <- <-.
    by apply (copy_items_post n0 _ IH xs).
  - (* reference *)
    destruct st as [h memo]. destruct Hok as (Hn0 & Hmemo & Hcl). simpl in *.
    destruct (memo !! l) as [l'|] eqn:Hl.
    { injection H as <- <-. split; [done|]. split; [apply heap_ext_refl|].
      simpl. repeat constructor. eauto. }
    assert (Hmid : ∀ o, obj_refs o = [] →
              copy_ok n0 (h ++ [o], <[l := length h]> memo)).
    { intros o Ho. split; [simpl; rewrite length_app; lia|]. split; simpl.
      - intros l1 l1' [[_ <-]|[_ ?]]%lookup_insert_Some; eauto.
      - apply closed_app; [done|]. rewrite Ho. by intros ? ?%elem_of_nil. }
    destruct (h !! l) as [[cls es|cls xs|cls xs]|] eqn:Hobj; [| | |done].
    + rewrite copy_entries_items in H. inv_bind H. destruct a as [[h1 memo1] es'].
      inv_bind Ha. destruct a as [[h2 memo2] ys]. injection Ha as <- <- <-.
      injection H as <- <-.
      pose proof (copy_items_length _ _ _ _ _ Ha0) as Hlen.
      destruct (copy_items_post n0 _ IH _ _ _ _ Ha0 (Hmid (ODict cls []) eq_refl))
        as ((Hn1 & Hmemo1 & Hcl1) & He1 & Hys). simpl in *.
      split; [|split].
      * split; [simpl; by rewrite length_insert|]. split; [done|]. simpl.
        apply closed_insert; [done|]. intros l' Hl'. unfold obj_refs in Hl'. simpl in Hl'.
        rewrite zip_snd_length in Hl' by (by rewrite Hlen, !length_fmap).
        by eapply Forall_forall in Hys.
      * simpl. apply heap_ext_insert_fresh; [|done].
        eapply heap_ext_trans; [apply heap_ext_app|done].
      * simpl. repeat constructor. lia.
    + inv_bind H. destruct a as [[h1 memo1] ys]. injection H as <- <-.
      destruct (copy_items_post n0 _ IH _ _ _ _ Ha (Hmid (OList cls []) eq_refl))
        as ((Hn1 & Hmemo1 & Hcl1) & He1 & Hys). simpl in *.
      split; [|split].
      * split; [simpl; by rewrite length_insert|]. split; [done|]. simpl.
        apply closed_insert; [done|]. intros l' Hl'.
        by eapply Forall_forall in Hys.
      * simpl. apply heap_ext_insert_fresh; [|done].
        eapply heap_ext_trans; [apply heap_ext_app|done].
      * simpl. repeat constructor. lia.
    + inv_bind H. destruct a as [[h1 memo1] ys]. injection H as <- <-.
      destruct (copy_items_post n0 _ IH _ _ _ _ Ha) as ((Hn1 & Hmemo1 & Hcl1) & He1 & Hys);
        [done|]. simpl in *.
      split; [|split].
      * split; [simpl; rewrite length_app; lia|]. split; simpl.
        -- intros l1 l1' [[_ <-]|[_ ?]]%lookup_insert_Some; eauto.
        -- apply closed_app; [done|]. intros l' Hl'.
           by eapply Forall_forall in Hys.
      * simpl. eapply heap_ext_trans; [done|apply heap_ext_app].
      * simpl. repeat constructor. lia.
Qed.

Lemma deepcopy_post fuel h v h1 c :
  deepcopy fuel h v = Ok (h1, c) →
  heap_ext h h1 ∧ closed (le (length h)) h1 ∧ Forall (le (length h)) (val_refs c).
Proof.
  unfold deepcopy. intros H. inv_bind H. destruct a as [[h2 memo] c2].
  injection H as <- <-.
  destruct (deepcopy_memo_post (length h) _ _ _ _ _ Ha) as ((_ & _ & Hcl) & He & Hc).
  - split; [done|]. split; simpl; [done|].
    intros l o l' Hl Ho. apply lookup_lt_Some in Ho. lia.
  - done.
Qed.

Lemma copy_items_no_raise copy xs :
  (∀ st v, no_raise (copy st v)) → ∀ st, no_raise (copy_items copy st xs).
Proof.
  intros Hc. induction xs as [|x xs IH]; intros st; simpl; [done|].
  apply no_raise_bind; [done|]. intros [st1 y].
  apply no_raise_bind; [done|]. by intros [st2 ys].
Qed.

Lemma deepcopy_memo_no_raise fuel : ∀ st v, no_raise (deepcopy_memo fuel st v).
Proof.
  induction fuel as [|fuel IH]; intros st v; simpl; [done|].
  destruct v as [| | | | |xs|l]; try done.
  - apply no_raise_bind; [by apply copy_items_no_raise|]. by intros [st1 ys].
  - destruct st as [h memo]. destruct (memo !! l); [done|].
    destruct (h !! l) as [[cls es|cls xs|cls xs]|]; [| | |done].
    + rewrite copy_entries_items.
      apply no_raise_bind; [|by intros [[h1 memo1] es']].
      apply no_raise_bind; [by apply copy_items_no_raise|]. by intros [st1 ys].
    + apply no_raise_bind; [by apply copy_items_no_raise|]. by intros [[h1 memo1] ys].
    + apply no_raise_bind; [by apply copy_items_no_raise|]. by intros [[h1 memo1] ys].
Qed.

Lemma deepcopy_no_raise fuel h v : no_raise (deepcopy fuel h v).
Proof.
  unfold deepcopy. apply no_raise_bind; [apply deepcopy_memo_no_raise|].
  by intros [[h1 memo] c].
Qed.

(** ** Values, renamings and finite unfoldings *)

Lemma value_ind_nested (P : value → Prop) :
  P VNone → (∀ b, P (VBool b)) → (∀ z, P (VInt z)) → (∀ m e, P (VFloat m e)) →
  (∀ s, P (VStr s)) → (∀ xs, Forall P xs → P (VTuple xs)) → (∀ l, P (VRef l)) →
  ∀ v, P v.
Proof.
  intros HN HB HI HF HS HT HR. fix IH 1.
  intros [| | | | |xs|l];
    [apply HN|apply HB|apply HI|apply HF|apply HS| |apply HR].
  apply HT. induction xs as [|x xs IHxs]; constructor; [apply IH|apply IHxs].
Qed.

Lemma rename_val_mono (ρ ρ' : gmap loc loc) v :
  ρ ⊆ ρ' → (∀ x, x ∈ val_refs v → is_Some (ρ !! x)) →
  rename_val ρ v = rename_val ρ' v.
Proof.
  intros Hsub. induction v as [| | | | |xs IH|l] using value_ind_nested; intros Hd;
    try done.
  - simpl. f_equal. apply list_fmap_ext. intros i x Hx.
    apply list_elem_of_lookup_2 in Hx. eapply Forall_forall in IH; [|done].
    apply IH. intros r Hr. apply Hd. apply val_refs_tuple. eauto.
  - simpl. destruct (Hd l) as [l' Hl']; [simpl; by left|].
    rewrite Hl'. by rewrite (lookup_weaken _ _ _ _ Hl' Hsub).
Qed.

Lemma rename_vals_mono (ρ ρ' : gmap loc loc) (xs : list value) :
  ρ ⊆ ρ' → (∀ x r, x ∈ xs → r ∈ val_refs x → is_Some (ρ !! r)) →
  rename_val ρ <$> xs = rename_val ρ' <$> xs.
Proof.
  intros Hsub Hd. apply list_fmap_ext. intros i x Hx.
  apply rename_val_mono; [done|]. intros r Hr. eapply Hd; [|done].
  by eapply list_elem_of_lookup_2.
Qed.

Lemma rename_obj_mono (ρ ρ' : gmap loc loc) o :
  ρ ⊆ ρ' → (∀ x, x ∈ obj_refs o → is_Some (ρ !! x)) →
  rename_obj ρ o = rename_obj ρ' o.
Proof.
  intros Hsub Hd.
  assert (Hv : ∀ x r, x ∈ obj_vals o → r ∈ val_refs x → is_Some (ρ !! r)).
  { intros x r Hx Hr. apply Hd. apply obj_refs_elem. eauto. }
  destruct o as [c es|c xs|c xs]; simpl in *; f_equal.
  - apply list_fmap_ext. intros i [k x] Hx. unfold prod_map. simpl. f_equal.
    apply rename_val_mono; [done|]. intros r Hr. eapply Hv; [|done].
    apply list_elem_of_fmap. exists (k, x). split; [done|].
    by eapply list_elem_of_lookup_2.
  - by apply rename_vals_mono.
  - by apply rename_vals_mono.
Qed.

Lemma finite_mono n h v : finite n h v = true → finite (S n) h v = true.
Proof.
  revert v. induction n as [|n IH]; intros v; [done|].
  intros H. simpl in H. change (finite (S (S n)) h v) with
    (match v with
     | VTuple xs => forallb (finite (S n) h) xs
     | VRef l => match h !! l with
                 | Some o => forallb (finite (S n) h) (obj_vals o)
                 | None => false
                 end
     | _ => true
     end).
  destruct v as [| | | | |xs|l]; try done.
  - apply forallb_forall. intros x Hx. apply IH.
    by eapply forallb_forall in H.
  - destruct (h !! l) as [o|]; [|done].
    apply forallb_forall. intros x Hx. apply IH.
    by eapply forallb_forall in H.
Qed.

Lemma finite_ext n h h' v : heap_ext h h' → finite n h v = true → finite n h' v = true.
Proof.
  intros [_ He]. revert v. induction n as [|n IH]; intros v; [done|]. simpl.
  destruct v as [| | | | |xs|l]; try done.
  - intros H. apply forallb_forall. intros x Hx. apply IH.
    by eapply forallb_forall in H.
  - destruct (h !! l) as [o|] eqn:Hl; [|done].
    rewrite He by (by eapply lookup_lt_Some). rewrite Hl.
    intros H. apply forallb_forall. intros x Hx. apply IH.
    by eapply forallb_forall in H.
Qed.

Lemma finite_val_refs n h v l :
  finite n h v = true → l ∈ val_refs v → finite n h (VRef l) = true.
Proof.
  revert v. induction n as [|n IH]; intros v; [done|].
  destruct v as [| | | | |xs|l0]; simpl; try (by intros _ ?%elem_of_nil).
  - intros H (x & Hx & Hl)%elem_of_flat_map.
    apply list_elem_of_In in Hx. eapply forallb_forall in H; [|done].
    apply (finite_mono n h (VRef l)). eauto.
  - intros H ->%list_elem_of_singleton. done.
Qed.

Lemma finite_reach n h v l :
  finite n h v = true → reach h v l → finite n h (VRef l) = true.
Proof.
  intros Hf. induction 1 as [l Hl|l o l' Hr IH Ho Hl'].
  - by eapply finite_val_refs.
  - destruct n as [|n]; [done|]. simpl in IH. rewrite Ho in IH.
    apply obj_refs_elem in Hl' as (w & Hw & Hl').
    apply list_elem_of_In in Hw. eapply forallb_forall in IH; [|done].
    apply finite_mono. by eapply finite_val_refs.
Qed.

Lemma reach_item h l o x y :
  h !! l = Some o → x ∈ obj_vals o → reach h x y → reach h (VRef l) y.
Proof.
  intros Ho Hx. induction 1 as [y Hy|y1 o1 y Hr IH Ho1 Hy].
  - eapply reach_obj; [apply reach_val; simpl; left|done|].
    apply obj_refs_elem. eauto.
  - by eapply reach_obj.
Qed.

Lemma reach_tuple_item h xs x y :
  x ∈ xs → reach h x y → reach h (VTuple xs) y.
Proof.
  intros Hx. induction 1 as [y Hy|y1 o1 y Hr IH Ho1 Hy].
  - apply reach_val. apply val_refs_tuple. eauto.
  - by eapply reach_obj.
Qed.

(** A value with a finite unfolding lies on no cycle. *)
Lemma finite_acyclic n h l o x :
  finite n h (VRef l) = true → h !! l = Some o → x ∈ obj_vals o → ¬ reach h x l.
Proof.
  intros Hf Ho Hx Hr. induction n as [|n IH]; [done|].
  apply IH. simpl in Hf. rewrite Ho in Hf.
  apply list_elem_of_In in Hx. eapply forallb_forall in Hf; [|done].
  by eapply finite_reach.
Qed.

(** ** [deepcopy] returns an image of the original *)

Lemma copied_mono (ρ ρ' : gmap loc loc) h0 h h' l l' :
  ρ ⊆ ρ' → h' !! l' = h !! l' → copied ρ h0 h l l' → copied ρ' h0 h' l l'.
Proof.
  intros Hsub Hh (Hl' & o & Ho & Hc & Hd). split; [done|]. exists o.
  split; [done|]. split.
  - rewrite Hh, Hc. f_equal. by apply rename_obj_mono.
  - intros x Hx. destruct (Hd x Hx) as [y Hy]. exists y. by eapply lookup_weaken.
Qed.

Lemma copying_alloc h0 A h (ρ : gmap loc loc) l o :
  copying h0 A (h, ρ) → ρ !! l = None →
  copying h0 (fun x => A x ∨ x = l) (h ++ [o], <[l := length h]> ρ).
Proof.
  intros (He & Hent & Hinj) Hl. simpl in *.
  assert (Hsub : ρ ⊆ <[l := length h]> ρ) by by apply insert_subseteq.
  split; [|split]; simpl.
  - eapply heap_ext_trans; [done|apply heap_ext_app].
  - intros l1 l1' [[<- <-]|[Hne H1]]%lookup_insert_Some.
    + rewrite length_app. simpl. split; [lia|]. left. by right.
    + destruct (Hent _ _ H1) as (Hb & Hc). rewrite length_app. split; [lia|].
      destruct Hc as [Ha|Hc]; [left; by left|right].
      eapply copied_mono; [done| |done]. by apply lookup_app_l.
  - intros l1 l2 l' [[<- <-]|[Hne1 H1]]%lookup_insert_Some
                    [[<- E]|[Hne2 H2]]%lookup_insert_Some; try done.
    + destruct (Hent _ _ H2) as (Hb & _). lia.
    + destruct (Hent _ _ H1) as (Hb & _). lia.
    + eauto.
Qed.

Lemma copying_fill h0 A h1 (ρ1 : gmap loc loc) l l' o0 :
  copying h0 (fun x => A x ∨ x = l) (h1, ρ1) →
  ρ1 !! l = Some l' → length h0 ≤ l' → h0 !! l = Some o0 →
  (∀ x, x ∈ obj_refs o0 → is_Some (ρ1 !! x)) →
  copying h0 A (<[l' := rename_obj ρ1 o0]> h1, ρ1).
Proof.
  intros (He & Hent & Hinj) Hl Hl' Ho0 Hd. simpl in *.
  split; [|split]; simpl.
  - by apply heap_ext_insert_fresh.
  - intros l1 l1' H1. destruct (Hent _ _ H1) as (Hb & Hc).
    rewrite length_insert. split; [done|].
    destruct (decide (l1 = l)) as [->|Hne].
    + right. assert (l1' = l') as -> by congruence.
      split; [done|]. exists o0. split; [done|]. split; [|done].
      by apply list_lookup_insert_eq.
    + destruct Hc as [[Ha|E]|Hc]; [by left|done|right].
      eapply copied_mono; [done| |done].
      apply list_lookup_insert_ne. intros <-. apply Hne. eauto.
  - done.
Qed.

Lemma copy_result_refl h0 A st (reached : loc → Prop) :
  copying h0 A st → copy_result h0 A st reached st.
Proof. intros H. split; [done|]. split; [done|]. split; [apply heap_ext_refl|auto]. Qed.

Lemma copy_items_copies h0 copy (P : value → Prop) :
  (∀ A st v, P v → copying h0 A st →
     ∃ st' c, copy st v = Ok (st', c) ∧ copy_result h0 A st (reach h0 v) st' ∧
              c = rename_val st'.2 v ∧ (∀ x, x ∈ val_refs v → is_Some (st'.2 !! x))) →
  ∀ xs A st, Forall P xs → copying h0 A st →
     ∃ st' ys, copy_items copy st xs = Ok (st', ys) ∧
               copy_result h0 A st (fun r => ∃ x, x ∈ xs ∧ reach h0 x r) st' ∧
               ys = rename_val st'.2 <$> xs ∧
               (∀ x r, x ∈ xs → r ∈ val_refs x → is_Some (st'.2 !! r)).
Proof.
  intros Hcopy. induction xs as [|x xs IH]; intros A st HP Hst.
  - exists st, []. split; [done|]. split; [by apply copy_result_refl|].
    split; [done|]. by intros x r ?%elem_of_nil.
  - apply Forall_cons in HP as [Hx Hxs].
    destruct (Hcopy A st x Hx Hst) as (st1 & y & E1 & (Hst1 & Hs1 & He1 & Hd1) & -> & Hr1).
    destruct (IH A st1 Hxs Hst1) as (st2 & ys & E2 & (Hst2 & Hs2 & He2 & Hd2) & -> & Hr2).
    exists st2, (rename_val st1.2 x :: (rename_val st2.2 <$> xs)).
    split; [simpl; rewrite E1; simpl; rewrite E2; done|].
    split; [|split].
    + split; [done|]. split; [by etrans|]. split; [by eapply heap_ext_trans|].
      intros r Hr. destruct (Hd2 r Hr) as [Hr'|(x' & Hx' & Hr')].
      * destruct (Hd1 r Hr') as [?|?]; [by left|right]. exists x. split; [left|done].
      * right. exists x'. split; [by right|done].
    + simpl. f_equal. by apply rename_val_mono.
    + intros x' r [->|Hx']%elem_of_cons Hr.
      * destruct (Hr1 r Hr) as [y Hy]. exists y. by eapply lookup_weaken.
      * eauto.
Qed.

Lemma zip_fst_rename (ρ : gmap loc loc) (es : list (string * value)) :
  zip es.*1 (rename_val ρ <$> es.*2) = prod_map id (rename_val ρ) <$> es.
Proof. induction es as [|[k x] es IH]; simpl; [done|]. f_equal. apply IH. Qed.

Lemma deepcopy_memo_copies h0 n :
  ∀ fuel A st v, n ≤ fuel → finite n h0 v = true → copying h0 A st →
    ∃ st' c, deepcopy_memo fuel st v = Ok (st', c) ∧
             copy_result h0 A st (reach h0 v) st' ∧
             c = rename_val st'.2 v ∧ (∀ x, x ∈ val_refs v → is_Some (st'.2 !! x)).
Proof.
  induction n as [|n IH]; intros fuel A st v Hfuel Hfin Hst; [done|].
  destruct fuel as [|fuel]; [lia|]. assert (n ≤ fuel) as Hfuel' by lia.
  assert (Hitems : ∀ xs A st, forallb (finite n h0) xs = true → copying h0 A st →
     ∃ st' ys, copy_items (deepcopy_memo fuel) st xs = Ok (st', ys) ∧
               copy_result h0 A st (fun r => ∃ x, x ∈ xs ∧ reach h0 x r) st' ∧
               ys = rename_val st'.2 <$> xs ∧
               (∀ x r, x ∈ xs → r ∈ val_refs x → is_Some (st'.2 !! r))).
  { intros xs A1 st1 Hxs Hst1.
    apply (copy_items_copies h0 _ (fun x => finite n h0 x = true)); [|..|done].
    - intros A2 st2 x Hx Hst2. by apply IH.
    - apply Forall_forall. intros x Hx. apply list_elem_of_In in Hx.
      by eapply forallb_forall in Hxs. }
  simpl in Hfin.
  destruct v as [| | | | |xs|l];
    try (exists st; eexists; split; [done|]; split; [by apply copy_result_refl|];
         split; [done|]; by intros x ?%elem_of_nil).
  - (* tuple *)
    destruct (Hitems xs A st Hfin Hst) as (st' & ys & E & (Hst' & Hs & He & Hd) & -> & Hr).
    exists st', (VTuple (rename_val st'.2 <$> xs)). simpl. rewrite E. simpl.
    split; [done|]. split; [|split; [done|]].
    + split; [done|]. split; [done|]. split; [done|].
      intros r Hr'. destruct (Hd r Hr') as [?|(x & Hx & Hx')]; [by left|right].
      by eapply reach_tuple_item.
    + intros r (x & Hx & Hr')%val_refs_tuple. eauto.
  - (* reference *)
    destruct st as [h ρ]. simpl.
    destruct (ρ !! l) as [l'|] eqn:Hl.
    { exists (h, ρ), (VRef l'). split; [done|]. split; [by apply copy_result_refl|].
      simpl. rewrite Hl. split; [done|].
      intros x ->%list_elem_of_singleton. eauto. }
    destruct (h0 !! l) as [o|] eqn:Ho; [|done].
    pose proof Hst as (He0 & Hent0 & Hinj0). simpl in He0.
    assert (h !! l = Some o) as ->.
    { destruct He0 as [_ E]. rewrite E; [done|]. by eapply lookup_lt_Some. }
    assert (Hsub : ρ ⊆ <[l := length h]> ρ) by by apply insert_subseteq.
    assert (Hreach : ∀ (ρ1 : gmap loc loc) r,
               (is_Some ((<[l := length h]> ρ) !! r) ∨
                ∃ x, x ∈ obj_vals o ∧ reach h0 x r) →
               is_Some (ρ !! r) ∨ reach h0 (VRef l) r).
    { intros _ r [[y [[<- _]|[_ Hy]]%lookup_insert_Some]|(x & Hx & Hx')].
      - right. apply reach_val. simpl. left.
      - left. eauto.
      - right. by eapply reach_item. }
    destruct o as [cls es|cls xs|cls xs]; simpl in Hfin.
    + (* dict *)
      destruct (Hitems es.*2 _ _ Hfin (copying_alloc _ _ _ _ _ (ODict cls []) Hst Hl))
        as ([h1 ρ1] & ys & E & (Hst1 & Hs1 & He1 & Hd1) & -> & Hr1). simpl in *.
      assert (Hl1 : ρ1 !! l = Some (length h)).
      { eapply lookup_weaken; [|done]. apply lookup_insert_eq. }
      exists (<[length h := ODict cls (zip es.*1 (rename_val ρ1 <$> es.*2))]> h1, ρ1),
             (VRef (length h)).
      rewrite copy_entries_items, E. simpl. split; [done|].
      split; [|simpl; rewrite Hl1; split; [done|];
               intros x ->%list_elem_of_singleton; eauto].
      split; [|split; [by etrans|split]]; simpl.
      * rewrite zip_fst_rename.
        apply (copying_fill h0 A h1 ρ1 l (length h) (ODict cls es)); try done.
        -- by destruct He0.
        -- intros x (w & Hw & Hx)%obj_refs_elem. eauto.
      * apply heap_ext_insert_fresh; [|done].
        eapply heap_ext_trans; [apply heap_ext_app|done].
      * intros r Hr. apply (Hreach ρ1). destruct (Hd1 r Hr); eauto.
    + (* list *)
      destruct (Hitems xs _ _ Hfin (copying_alloc _ _ _ _ _ (OList cls []) Hst Hl))
        as ([h1 ρ1] & ys & E & (Hst1 & Hs1 & He1 & Hd1) & -> & Hr1). simpl in *.
      assert (Hl1 : ρ1 !! l = Some (length h)).
      { eapply lookup_weaken; [|done]. apply lookup_insert_eq. }
      exists (<[length h := OList cls (rename_val ρ1 <$> xs)]> h1, ρ1),
             (VRef (length h)).
      rewrite E. simpl. split; [done|].
      split; [|simpl; rewrite Hl1; split; [done|];
               intros x ->%list_elem_of_singleton; eauto].
      split; [|split; [by etrans|split]]; simpl.
      * apply (copying_fill h0 A h1 ρ1 l (length h) (OList cls xs)); try done.
        -- by destruct He0.
        -- intros x (w & Hw & Hx)%obj_refs_elem. eauto.
      * apply heap_ext_insert_fresh; [|done].
        eapply heap_ext_trans; [apply heap_ext_app|done].
      * intros r Hr. apply (Hreach ρ1). destruct (Hd1 r Hr); eauto.
    + (* set *)
      destruct (Hitems xs _ _ Hfin Hst)
        as ([h1 ρ1] & ys & E & (Hst1 & Hs1 & He1 & Hd1) & -> & Hr1). simpl in *.
      assert (Hl1 : ρ1 !! l = None).
      { destruct (ρ1 !! l) as [l1|] eqn:E1; [|done]. exfalso.
        destruct (Hd1 l) as [[? Hc]|(x & Hx & Hx')]; [eauto|congruence|].
        eapply (finite_acyclic (S n) h0 l (OSet cls xs) x); try done.
        simpl. by rewrite Ho. }
      assert (Hsub1 : ρ1 ⊆ <[l := length h1]> ρ1) by by apply insert_subseteq.
      set (ρ2 := <[l := length h1]> ρ1) in *.
      assert (Hys : rename_val ρ1 <$> xs = rename_val ρ2 <$> xs).
      { apply rename_vals_mono; [done|]. eauto. }
      exists (h1 ++ [OSet cls (rename_val ρ1 <$> xs)], ρ2), (VRef (length h1)).
      rewrite E. simpl. split; [done|].
      split; [|unfold ρ2; rewrite lookup_insert_eq; split; [done|];
               intros x ->%list_elem_of_singleton; rewrite lookup_insert_eq; eauto].
      split; [|split; [by etrans|split]]; simpl.
      * pose proof (copying_alloc _ _ _ _ _ (OSet cls (rename_val ρ1 <$> xs)) Hst1 Hl1)
          as Hmid. fold ρ2 in Hmid.
        pose proof (copying_fill h0 A _ ρ2 l (length h1) (OSet cls xs) Hmid) as Hfill.
        simpl in Hfill. rewrite <- Hys in Hfill.
        rewrite list_insert_id in Hfill.
        -- apply Hfill; try done.
           ++ unfold ρ2. apply lookup_insert_eq.
           ++ by destruct Hst1 as [[? _] _].
           ++ intros x (w & Hw & Hx)%obj_refs_elem.
              destruct (Hr1 w x Hw Hx) as [y Hy]. exists y. by eapply lookup_weaken.
        -- rewrite lookup_app_r by lia. by rewrite Nat.sub_diag.
      * eapply heap_ext_trans; [done|apply heap_ext_app].
      * intros r [y [[<- _]|[_ Hy]]%lookup_insert_Some].
        -- right. apply reach_val. simpl. left.
        -- destruct (Hd1 r) as [?|(x & Hx & Hx')]; [eauto|by left|right].
           by eapply reach_item.
Qed.

(** On a value with a finite unfolding, [deepcopy] returns, and what it
    returns is a deep copy. *)
Lemma deepcopy_copies n fuel h v :
  n ≤ fuel → finite n h v = true →
  ∃ h1 c, deepcopy fuel h v = Ok (h1, c) ∧ deep_copy h v h1 c.
Proof.
  intros Hfuel Hfin.
  destruct (deepcopy_memo_copies h n fuel (fun _ => False) (h, ∅) v Hfuel Hfin)
    as ([h1 ρ] & c & E & (Hst & _ & He & _) & -> & Hr).
  { split; [apply heap_ext_refl|]. split; simpl; intros *; by rewrite lookup_empty. }
  exists h1, (rename_val ρ v). unfold deepcopy. rewrite E. simpl. split; [done|].
  exists ρ. split; [done|]. split; [done|]. split; [|done].
  intros l l' Hl. destruct Hst as (_ & Hent & _).
  by destruct (Hent l l' Hl) as (_ & [[]|Hc]).
Qed.

Lemma obj_vals_rename ρ o : obj_vals (rename_obj ρ o) = rename_val ρ <$> obj_vals o.
Proof.
  destruct o as [c es|c xs|c xs]; simpl; try done.
  induction es as [|[k x] es IH]; simpl; [done|]. f_equal. apply IH.
Qed.

Lemma renamed_finite (ρ : gmap loc loc) h h1 n :
  (∀ l l', ρ !! l = Some l' → copied ρ h h1 l l') →
  ∀ v, (∀ x, x ∈ val_refs v → is_Some (ρ !! x)) →
       finite n h v = true → finite n h1 (rename_val ρ v) = true.
Proof.
  intros Hρ. induction n as [|n IH]; intros v Hd Hfin; [done|].
  assert (Hitems : ∀ xs, (∀ x r, x ∈ xs → r ∈ val_refs x → is_Some (ρ !! r)) →
            forallb (finite n h) xs = true →
            forallb (finite n h1) (rename_val ρ <$> xs) = true).
  { intros xs Hxs Hf. apply forallb_forall. intros y Hy.
    apply list_elem_of_In, list_elem_of_fmap in Hy as (x & -> & Hx).
    apply IH; [eauto|]. apply list_elem_of_In in Hx.
    by eapply forallb_forall in Hf. }
  simpl in Hfin. destruct v as [| | | | |xs|l]; try done.
  - simpl. apply Hitems; [|done]. intros x r Hx Hr. apply Hd, val_refs_tuple. eauto.
  - destruct (Hd l) as [l' Hl]; [simpl; left|]. simpl. rewrite Hl. simpl.
    destruct (Hρ l l' Hl) as (_ & o & Ho & Hc & Hdo). rewrite Ho in Hfin.
    rewrite Hc, obj_vals_rename. apply Hitems; [|done].
    intros x r Hx Hr. apply Hdo, obj_refs_elem. eauto.
Qed.

Lemma deep_copy_finite n h v h1 c :
  deep_copy h v h1 c → finite n h v = true → finite n h1 c = true.
Proof. intros (ρ & -> & Hd & Hρ & _). by apply renamed_finite. Qed.

(** ** [==] returns on finite values *)

Lemma all2M_total {A} (f : A → A → outcome bool) xs ys :
  (∀ x y, x ∈ xs → y ∈ ys → ∃ r, f x y = Ok r) → ∃ r, all2M f xs ys = Ok r.
Proof.
  revert ys. induction xs as [|x xs IH]; intros [|y ys] Hf; simpl; eauto.
  destruct (Hf x y) as [[] ->]; [left|left| |]; simpl; eauto.
  apply IH. intros x' y' Hx Hy. apply Hf; by right.
Qed.

Lemma existsM_total {A} (f : A → outcome bool) xs :
  (∀ x, x ∈ xs → ∃ r, f x = Ok r) → ∃ r, existsM f xs = Ok r.
Proof.
  induction xs as [|x xs IH]; intros Hf; simpl; eauto.
  destruct (Hf x) as [[] ->]; [left| |]; simpl; eauto.
  apply IH. intros x' Hx. apply Hf; by right.
Qed.

Lemma forallM_total {A} (f : A → outcome bool) xs :
  (∀ x, x ∈ xs → ∃ r, f x = Ok r) → ∃ r, forallM f xs = Ok r.
Proof.
  induction xs as [|x xs IH]; intros Hf; simpl; eauto.
  destruct (Hf x) as [[] ->]; [left| |]; simpl; eauto.
  apply IH. intros x' Hx. apply Hf; by right.
Qed.

Lemma existsM_true {A} (f : A → outcome bool) xs :
  existsM f xs = Ok true → ∃ x, x ∈ xs ∧ f x = Ok true.
Proof.
  induction xs as [|x xs IH]; simpl; [done|].
  destruct (f x) as [[]| | |] eqn:E; simpl; try done.
  - intros _. exists x. split; [left|done].
  - intros (y & Hy & Hf)%IH. exists y. split; [by right|done].
Qed.

Lemma item_eq_total eq x y :
  (∃ r, eq x y = Ok r) → ∃ r, item_eq eq x y = Ok r.
Proof.
  intros H. unfold item_eq. destruct x, y; try done.
  destruct (_ =? _); eauto.
Qed.

Lemma forallb_elem {A} (f : A → bool) xs x :
  forallb f xs = true → x ∈ xs → f x = true.
Proof. intros H Hx. apply list_elem_of_In in Hx. by eapply forallb_forall in H. Qed.

Lemma py_eq_total n : ∀ fuel h a b,
  n ≤ fuel → finite n h a = true → finite n h b = true →
  ∃ r, py_eq fuel h a b = Ok r.
Proof.
  induction n as [|n IH]; intros fuel h a b Hfuel Ha Hb; [done|].
  destruct fuel as [|fuel]; [lia|]. assert (n ≤ fuel) as Hfuel' by lia.
  assert (Hitem : ∀ xs ys x y, forallb (finite n h) xs = true →
            forallb (finite n h) ys = true → x ∈ xs → y ∈ ys →
            ∃ r, item_eq (py_eq fuel h) x y = Ok r).
  { intros xs ys x y Hxs Hys Hx Hy. apply item_eq_total.
    apply IH; [done|by apply (forallb_elem _ xs)|by apply (forallb_elem _ ys)]. }
  simpl in Ha, Hb. simpl. unfold eq_step.
  destruct a as [| | | | |xs|la], b as [| | | | |ys|lb]; eauto.
  - apply all2M_total. eauto.
  - destruct (h !! la) as [oa|]; [|done]. destruct (h !! lb) as [ob|]; [|done].
    destruct oa as [ca xs|ca xs|ca xs], ob as [cb ys|cb ys|cb ys]; eauto;
      simpl in Ha, Hb; destruct (_ =? _); eauto.
    + apply forallM_total. intros [k v] Hkv. simpl.
      destruct (dict_get k ys) as [w|] eqn:Hw; [|eauto].
      apply dict_get_elem in Hw. eapply Hitem; [exact Ha|exact Hb| |done].
      apply list_elem_of_fmap. by exists (k, v).
    + apply all2M_total. eauto.
    + apply forallM_total. intros x Hx. apply existsM_total. eauto.
Qed.

(** ** [==] does not depend on the budget *)

Lemma all2M_mono {A} (f g : A → A → outcome bool) xs ys r :
  (∀ x y r, f x y = Ok r → g x y = Ok r) →
  all2M f xs ys = Ok r → all2M g xs ys = Ok r.
Proof.
  intros Hfg. revert ys. induction xs as [|x xs IH]; intros [|y ys]; simpl; try done.
  intros H. inv_bind H. rewrite (Hfg _ _ _ Ha). simpl. destruct a; auto.
Qed.

Lemma existsM_mono {A} (f g : A → outcome bool) xs r :
  (∀ x r, f x = Ok r → g x = Ok r) → existsM f xs = Ok r → existsM g xs = Ok r.
Proof.
  intros Hfg. induction xs as [|x xs IH]; simpl; [done|].
  intros H. inv_bind H. rewrite (Hfg _ _ Ha). simpl. destruct a; auto.
Qed.

Lemma forallM_mono {A} (f g : A → outcome bool) xs r :
  (∀ x r, f x = Ok r → g x = Ok r) → forallM f xs = Ok r → forallM g xs = Ok r.
Proof.
  intros Hfg. induction xs as [|x xs IH]; simpl; [done|].
  intros H. inv_bind H. rewrite (Hfg _ _ Ha). simpl. destruct a; auto.
Qed.

Lemma item_eq_mono (eq eq' : value → value → outcome bool) x y r :
  (∀ a b r, eq a b = Ok r → eq' a b = Ok r) →
  item_eq eq x y = Ok r → item_eq eq' x y = Ok r.
Proof.
  intros H. unfold item_eq. destruct x, y; try apply H.
  destruct (_ =? _); [done|apply H].
Qed.

Lemma eq_step_mono (item item' : value → value → outcome bool) h a b r :
  (∀ x y r, item x y = Ok r → item' x y = Ok r) →
  eq_step item h a b = Ok r → eq_step item' h a b = Ok r.
Proof.
  intros H. unfold eq_step. destruct a, b; try done.
  - by apply all2M_mono.
  - destruct (h !! l) as [[]|], (h !! l0) as [[]|]; try done;
      destruct (_ =? _); try done.
    + apply forallM_mono. intros [k v] r'. simpl.
      destruct (dict_get k entries0); [apply H|done].
    + by apply all2M_mono.
    + apply forallM_mono. intros x r'. apply existsM_mono. intros y r''. apply H.
Qed.

Lemma py_eq_S fuel h : ∀ a b r, py_eq fuel h a b = Ok r → py_eq (S fuel) h a b = Ok r.
Proof.
  induction fuel as [|fuel IH]; intros a b r; [done|].
  change (eq_step (item_eq (py_eq fuel h)) h a b = Ok r →
          eq_step (item_eq (py_eq (S fuel) h)) h a b = Ok r).
  apply eq_step_mono. intros x y r'. by apply item_eq_mono.
Qed.

Lemma py_eq_le fuel fuel' h a b r :
  fuel ≤ fuel' → py_eq fuel h a b = Ok r → py_eq fuel' h a b = Ok r.
Proof. intros Hle Hr. induction Hle as [|m Hle IH]; [done|]. by apply py_eq_S. Qed.

Lemma py_eq_agree f1 f2 h a b r1 r2 :
  py_eq f1 h a b = Ok r1 → py_eq f2 h a b = Ok r2 → r1 = r2.
Proof.
  intros H1 H2.
  apply (py_eq_le f1 (f1 `max` f2)) in H1; [|lia].
  apply (py_eq_le f2 (f1 `max` f2)) in H2; [|lia]. congruence.
Qed.

(** ** [==] on a value and itself *)

Lemma atom_eq_refl v :
  match v with VTuple _ | VRef _ => True | _ => atom_eq v v = true end.
Proof.
  destruct v; try done; simpl; try apply String.eqb_refl;
    unfold num_eqb; simpl; by apply Z.eqb_refl.
Qed.

Lemma all2M_refl {A} (f : A → A → outcome bool) xs :
  (∀ x, x ∈ xs → f x x = Ok true) → all2M f xs xs = Ok true.
Proof.
  induction xs as [|x xs IH]; intros Hf; simpl; [done|].
  rewrite Hf by left. simpl. apply IH. intros y Hy. apply Hf. by right.
Qed.

Lemma forallM_all {A} (f : A → outcome bool) xs :
  (∀ x, x ∈ xs → f x = Ok true) → forallM f xs = Ok true.
Proof.
  induction xs as [|x xs IH]; intros Hf; simpl; [done|].
  rewrite Hf by left. simpl. apply IH. intros y Hy. apply Hf. by right.
Qed.

Lemma forallM_true {A} (f : A → outcome bool) xs :
  forallM f xs = Ok true → ∀ x, x ∈ xs → f x = Ok true.
Proof.
  induction xs as [|x xs IH]; simpl; [by intros _ x ?%elem_of_nil|].
  intros H. inv_bind H. destruct a; [|done].
  intros y [->|Hy]%elem_of_cons; auto.
Qed.

Lemma existsM_hit {A} (f : A → outcome bool) xs x :
  x ∈ xs → f x = Ok true → (∀ y, y ∈ xs → ∃ r, f y = Ok r) →
  existsM f xs = Ok true.
Proof.
  induction xs as [|y xs IH]; [by intros ?%elem_of_nil|].
  intros Hx Hf Ht. simpl. destruct (Ht y) as [[] Hy]; [left| |]; rewrite Hy; [done|].
  simpl. apply elem_of_cons in Hx as [->|Hx]; [congruence|].
  apply IH; [done..|]. intros z Hz. apply Ht. by right.
Qed.

Lemma item_eq_refl n : ∀ fuel h v,
  n ≤ fuel → finite n h v = true → item_eq (py_eq fuel h) v v = Ok true.
Proof.
  induction n as [|n IH]; intros fuel h v Hfuel Hv; [done|].
  destruct fuel as [|fuel]; [lia|].
  destruct v as [| | | | |xs|l]; try done; simpl in *.
  - unfold eq_step. f_equal. apply (atom_eq_refl (VBool b)).
  - unfold eq_step. f_equal. apply (atom_eq_refl (VInt z)).
  - unfold eq_step. f_equal. apply (atom_eq_refl (VFloat m e)).
  - unfold eq_step. f_equal. apply (atom_eq_refl (VStr s)).
  - apply all2M_refl. intros x Hx. apply IH; [lia|]. by apply (forallb_elem _ xs).
  - by rewrite Nat.eqb_refl.
Qed.

Lemma py_eq_refl n fuel h v :
  n ≤ fuel → finite n h v = true → is_mapping h v = false →
  py_eq fuel h v v = Ok true.
Proof.
  intros Hfuel Hv Hm. destruct v as [| | | | |xs|l];
    try (by apply (item_eq_refl n fuel h _ Hfuel Hv)).
  destruct n as [|n]; [done|]. destruct fuel as [|fuel]; [lia|].
  simpl in Hv. unfold is_mapping in Hm. simpl in *. unfold eq_step.
  destruct (h !! l) as [[c es|c xs|c xs]|]; try done; rewrite Nat.eqb_refl.
  - apply all2M_refl. intros x Hx. apply (item_eq_refl n); [lia|].
    by apply (forallb_elem _ xs).
  - apply forallM_all. intros x Hx. apply (existsM_hit _ _ x); [done| |].
    + apply (item_eq_refl n); [lia|]. by apply (forallb_elem _ xs).
    + intros y Hy. apply item_eq_total.
      apply (py_eq_total n); [lia|by apply (forallb_elem _ xs)..].
Qed.

Lemma item_eq_of_py_eq fuel h a b :
  py_eq fuel h a b = Ok true → item_eq (py_eq fuel h) a b = Ok true.
Proof. intros H. unfold item_eq. destruct a, b; try done. by destruct (_ =? _). Qed.

(** ** [set.update] *)

Lemma existsM_false {A} (f : A → outcome bool) xs :
  existsM f xs = Ok false → ∀ x, x ∈ xs → f x = Ok false.
Proof.
  induction xs as [|x xs IH]; simpl; [by intros _ y ?%elem_of_nil|].
  intros H. inv_bind H. destruct a; [done|].
  intros y [->|Hy]%elem_of_cons; auto.
Qed.

(** What [s.update(ys)] adds to the elements [xs]: the elements [new], taken
    from [ys] in order, each of them equal to no element that was in the set
    before it, and such that every element of [ys] is then in the set,
    itself or as an element equal to it. *)
Lemma set_add_all_spec eq xs ys :
  (∀ z y, z ∈ xs ++ ys → y ∈ ys → ∃ r, eq z y = Ok r) →
  ∃ new, set_add_all eq xs ys = Ok (xs ++ new) ∧ sublist new ys ∧
         (∀ y, y ∈ ys → y ∈ xs ++ new ∨ ∃ z, z ∈ xs ++ new ∧ eq z y = Ok true) ∧
         (∀ pre y post, new = pre ++ y :: post →
                        ∀ z, z ∈ xs ++ pre → eq z y = Ok false).
Proof.
  revert xs. induction ys as [|y ys IH]; intros xs Heq; simpl.
  - exists []. rewrite app_nil_r. split; [done|]. split; [done|].
    split; [by intros y ?%elem_of_nil|]. by intros [|??] y post.
  - destruct (existsM_total (fun z => eq z y) xs) as [b Hb].
    { intros z Hz. apply Heq; [apply elem_of_app; by left|left]. }
    rewrite Hb. simpl.
    destruct (IH (if b then xs else xs ++ [y])) as (new & E & Hsub & Hin & Hfresh).
    { intros z y' Hz Hy'. apply Heq; [|by right].
      apply elem_of_app. destruct b.
      - apply elem_of_app in Hz as [Hz|Hz]; [by left|right; by right].
      - rewrite <- app_assoc in Hz. by apply elem_of_app in Hz. }
    rewrite E. destruct b.
    + exists new. split; [done|]. split; [by apply sublist_cons|]. split; [|done].
      intros y' [->|Hy']%elem_of_cons; [|by apply Hin].
      right. apply existsM_true in Hb as (z & Hz & Hzy).
      exists z. split; [|done]. apply elem_of_app. by left.
    + exists (y :: new). rewrite <- app_assoc in *. simpl in *.
      split; [done|]. split; [by apply sublist_skip|]. split.
      * intros y' [->|Hy']%elem_of_cons; [|by apply Hin].
        left. apply elem_of_app. right. left.
      * intros [|y1 pre] y0 post; simpl.
        -- intros [= <- <-] z Hz. rewrite app_nil_r in Hz.
           by apply (existsM_false _ _ Hb).
        -- intros [= <- ->] z Hz. apply (Hfresh pre y0 post eq_refl).
           by rewrite <- app_assoc.
Qed.

(** ** The handlers *)

Lemma deepcopy_lookup fuel h v h1 c l o :
  deepcopy fuel h v = Ok (h1, c) → h !! l = Some o → h1 !! l = Some o.
Proof.
  intros (He & _)%deepcopy_post Ho. destruct He as [_ He].
  rewrite He; [done|]. by eapply lookup_lt_Some.
Qed.

Lemma handle_merge_replace_spec fuel h dst src key dc des sv h1 c :
  h !! dst = Some (ODict dc des) → getitem h src key = Ok sv →
  deepcopy fuel h sv = Ok (h1, c) →
  _handle_merge_replace fuel h dst src key =
  Ok (<[dst := ODict dc (dict_set key c des)]> h1).
Proof.
  intros Hd Hs E. unfold _handle_merge_replace. rewrite Hs. simpl. rewrite E. simpl.
  unfold setitem, get_dict. by rewrite (deepcopy_lookup _ _ _ _ _ _ _ E Hd).
Qed.

Lemma deep_copy_by_ref ρ h l o h1 c :
  deep_copy_by ρ h (VRef l) h1 c → h !! l = Some o →
  ∃ lc, c = VRef lc ∧ length h ≤ lc ∧ h1 !! lc = Some (rename_obj ρ o).
Proof.
  intros (-> & Hd & Hρ & _) Ho.
  destruct (Hd l) as [lc Hl]; [simpl; left|]. simpl. rewrite Hl.
  destruct (Hρ l lc Hl) as (Hlc & o' & Ho' & Hc & _).
  exists lc. split; [done|]. split; [done|]. congruence.
Qed.

(** C3. How ADDITIVE resolves a conflict at [key], the source's value
    having a finite unfolding.  [c] is the deep copy of [source[key]] and
    [ρ] maps the source's objects to their copies.  Two lists: the
    destination's list object receives, after its own items, the copies of
    the source's items, in order, all of them.  Two sets: the destination's
    set object keeps its elements and receives the copies [new] of elements
    of the source, so that every copied element is then in it, itself or as
    an element equal to it, and no element of [new] is equal to an element
    that was in the set before it: the result is the union, an element
    already present is not added again ([{1, 2}] and [{2, 3}] give
    [{1, 2, 3}]).  Two tuples: [destination[key]] becomes the tuple
    of the destination's items followed by the copied items.  Otherwise the
    handler is REPLACE, and [destination[key]] becomes [c]. *)
Theorem additive_combines_collections
    fuel n h destination source key dc des sc ses dv sv :
  h !! destination = Some (ODict dc des) → dict_get key des = Some dv →
  h !! source = Some (ODict sc ses) → dict_get key ses = Some sv →
  finite n h dv = true → finite n h sv = true → n ≤ fuel →
  ∃ h1 c ρ,
    deepcopy fuel h sv = Ok (h1, c) ∧ deep_copy_by ρ h sv h1 c ∧
    (∀ ld s1 xs ls s2 ys,
       dv = VRef ld → h !! ld = Some (OList s1 xs) →
       sv = VRef ls → h !! ls = Some (OList s2 ys) →
       _handle_merge_additive fuel h destination source key =
       Ok (<[ld := OList s1 (xs ++ (rename_val ρ <$> ys))]> h1)) ∧
    (∀ ld s1 xs ls s2 ys,
       dv = VRef ld → h !! ld = Some (OSet s1 xs) →
       sv = VRef ls → h !! ls = Some (OSet s2 ys) →
       ∃ new,
         _handle_merge_additive fuel h destination source key =
         Ok (<[ld := OSet s1 (xs ++ new)]> h1) ∧
         sublist new (rename_val ρ <$> ys) ∧
         (∀ y, y ∈ rename_val ρ <$> ys →
               y ∈ xs ++ new ∨
               ∃ z, z ∈ xs ++ new ∧ item_eq (py_eq fuel h1) z y = Ok true) ∧
         (∀ pre y post, new = pre ++ y :: post →
            ∀ z, z ∈ xs ++ pre → item_eq (py_eq fuel h1) z y = Ok false)) ∧
    (∀ xs ys,
       dv = VTuple xs → sv = VTuple ys →
       _handle_merge_additive fuel h destination source key =
       Ok (<[destination :=
               ODict dc (dict_set key (VTuple (xs ++ (rename_val ρ <$> ys))) des)]> h1)) ∧
    (is_list h dv && is_list h sv = false →
     is_set h dv && is_set h sv = false →
     is_tuple dv && is_tuple sv = false →
     _handle_merge_additive fuel h destination source key =
     _handle_merge_replace fuel h destination source key ∧
     _handle_merge_replace fuel h destination source key =
     Ok (<[destination := ODict dc (dict_set key c des)]> h1)).
Proof.
  intros Hd Hdv Hs Hsv Hfd Hfs Hfuel.
  destruct (deepcopy_copies n fuel h sv Hfuel Hfs) as (h1 & c & E & ρ & Hcopy).
  exists h1, c, ρ. split; [done|]. split; [done|].
  pose proof (getitem_intro _ _ _ _ _ _ Hd Hdv) as Gd.
  pose proof (getitem_intro _ _ _ _ _ _ Hs Hsv) as Gs.
  pose proof (deepcopy_lookup _ _ _ _ _ _ _ E Hd) as Hd1.
  unfold _handle_merge_additive at 1 2 3 4. rewrite Gd, Gs. simpl.
  split; [|split; [|split]].
  - (* lists *)
    intros ld s1 xs ls s2 ys -> Hld -> Hls. simpl. rewrite Hld, Hls. simpl.
    rewrite E. simpl.
    destruct (deep_copy_by_ref _ _ _ _ _ _ Hcopy Hls) as (lc & -> & _ & Hlc).
    unfold list_extend.
    by rewrite (deepcopy_lookup _ _ _ _ _ _ _ E Hld), Hlc.
  - (* sets *)
    intros ld s1 xs ls s2 ys -> Hld -> Hls. simpl. rewrite Hld, Hls. simpl.
    rewrite E. simpl.
    destruct (deep_copy_by_ref _ _ _ _ _ _ Hcopy Hls) as (lc & -> & _ & Hlc).
    unfold set_update.
    rewrite (deepcopy_lookup _ _ _ _ _ _ _ E Hld), Hlc. simpl.
    destruct n as [|n]; [done|].
    assert (Hfin1 : ∀ z, z ∈ xs ++ (rename_val ρ <$> ys) → finite n h1 z = true).
    { intros z [Hz|Hz]%elem_of_app.
      - apply (finite_ext n h); [by destruct Hcopy as (_ & _ & _ & ?)|].
        simpl in Hfd. rewrite Hld in Hfd. by eapply forallb_elem.
      - pose proof (deep_copy_finite (S n) _ _ _ _ (ex_intro _ ρ Hcopy) Hfs) as Hc.
        simpl in Hc. rewrite Hlc in Hc. simpl in Hc. by eapply forallb_elem. }
    destruct (set_add_all_spec (item_eq (py_eq fuel h1)) xs (rename_val ρ <$> ys))
      as (new & En & Hsub & Hin & Hfresh).
    { intros z y Hz Hy. apply item_eq_total. apply (py_eq_total n); [lia|..].
      - by apply Hfin1.
      - apply Hfin1, elem_of_app. by right. }
    exists new. rewrite En. split; [done|]. split; [done|]. split; done.
  - (* tuples *)
    intros xs ys -> ->. simpl. rewrite E. simpl.
    destruct Hcopy as (-> & _). simpl.
    unfold setitem, get_dict. by rewrite Hd1.
  - (* anything else *)
    intros -> -> ->. split; [done|].
    by apply (handle_merge_replace_spec _ _ _ _ _ _ _ sv).
Qed.

Lemma additive_combines_collections_witness :
  (let h := heap_lists in
   finite 3 h (VRef 2) = true ∧ finite 3 h (VRef 3) = true ∧
   ∃ h1 c ρ,
     deepcopy 5 h (VRef 3) = Ok (h1, c) ∧ deep_copy_by ρ h (VRef 3) h1 c ∧
     _handle_merge_additive 5 h 0 1 "items" =
     Ok (<[2 := OList None ([VInt 1; VInt 2] ++ (rename_val ρ <$> [VInt 3; VInt 4]))]> h1)) ∧
  (let h := heap_sets in
   finite 3 h (VRef 2) = true ∧ finite 3 h (VRef 3) = true ∧
   ∃ h1 new,
     _handle_merge_additive 5 h 0 1 "tags" =
       Ok (<[2 := OSet None ([VInt 1; VInt 2] ++ new)]> h1) ∧
     (∀ pre y post, new = pre ++ y :: post →
        ∀ z, z ∈ [VInt 1; VInt 2] ++ pre → item_eq (py_eq 5 h1) z y = Ok false) ∧
     _handle_merge_additive 5 h 0 1 "tags" =
       Ok [ODict None [("tags", VRef 2)]; ODict None [("tags", VRef 3)];
           OSet None [VInt 1; VInt 2; VInt 3]; OSet None [VInt 2; VInt 3];
           OSet None [VInt 2; VInt 3]] ∧
     merge 5 (Member ADDITIVE) h 0 [1] =
       Ok ([ODict None [("tags", VRef 2)]; ODict None [("tags", VRef 3)];
            OSet None [VInt 1; VInt 2; VInt 3]; OSet None [VInt 2; VInt 3];
            OSet None [VInt 2; VInt 3]], 0)).
Proof.
  split; intros h; (split; [reflexivity|]); (split; [reflexivity|]).
  - destruct (additive_combines_collections 5 3 h 0 1 "items"
                None [("items", VRef 2)] None [("items", VRef 3)] (VRef 2) (VRef 3))
      as (h1 & c & ρ & E & Hc & Hl & _); try reflexivity; [lia|].
    exists h1, c, ρ. split; [exact E|]. split; [exact Hc|].
    eapply Hl; reflexivity.
  - destruct (additive_combines_collections 5 3 h 0 1 "tags"
                None [("tags", VRef 2)] None [("tags", VRef 3)] (VRef 2) (VRef 3))
      as (h1 & c & ρ & E & Hc & _ & Hs & _); try reflexivity; [lia|].
    destruct (Hs 2 None [VInt 1; VInt 2] 3 None [VInt 2; VInt 3]
                eq_refl eq_refl eq_refl eq_refl) as (new & En & _ & _ & Hfresh).
    exists h1, new. split; [exact En|]. split; [exact Hfresh|].
    split; vm_compute; reflexivity.
Defined.



(** ** Small facts about the primitives *)

Lemma setitem_no_raise h d key v : no_raise (setitem h d key v).
Proof.
  unfold setitem, get_dict. intros e h'.
  by destruct (h !! d) as [[]|].
Qed.

Lemma wlp_no_raise {A} (m : outcome A) (Q : A → Prop) E :
  no_raise m → (∀ a, m = Ok a → Q a) → wlp m Q E.
Proof. intros Hn HQ. destruct m; simpl; auto. by destruct (Hn e h). Qed.

Lemma set_add_all_elem eq xs ys zs :
  set_add_all eq xs ys = Ok zs → ∀ z, z ∈ zs → z ∈ xs ∨ z ∈ ys.
Proof.
  revert xs. induction ys as [|y ys IH]; intros xs; simpl.
  - intros [= <-]. auto.
  - intros H. inv_bind H. intros z Hz.
    destruct (IH _ H z Hz) as [Hx|Hy]; [|right; by right].
    destruct a; [by left|].
    apply elem_of_app in Hx as [?|Hx]; [by left|].
    apply list_elem_of_singleton in Hx as ->. right. left.
Qed.

Lemma set_add_all_no_raise eq xs ys :
  (∀ a b, no_raise (eq a b)) → no_raise (set_add_all eq xs ys).
Proof.
  intros Heq. revert xs. induction ys as [|y ys IH]; intros xs; simpl; [done|].
  apply no_raise_bind; [by apply existsM_no_raise|]. intros b. apply IH.
Qed.

Lemma type_of_no_raise h v : no_raise (type_of h v).
Proof. intros e h'. destruct v; try done. simpl. by destruct (h !! l) as [[]|]. Qed.

Lemma get_dict_inv h d c es : get_dict h d = Ok (c, es) → h !! d = Some (ODict c es).
Proof. unfold get_dict. destruct (h !! d) as [[]|]; try done. by intros [= -> ->]. Qed.

Lemma get_dict_no_raise h d : no_raise (get_dict h d).
Proof. unfold get_dict. intros e h'. by destruct (h !! d) as [[]|]. Qed.

Lemma mapping_loc_inv h v l : mapping_loc h v = Some l → v = VRef l.
Proof.
  destruct v; try done. simpl. destruct (h !! l0) as [[]|]; try done. by intros [= ->].
Qed.

Lemma getitem_region (P : loc → Prop) h d key v x :
  closed P h → P d → getitem h d key = Ok v → x ∈ val_refs v → P x.
Proof.
  intros Hc Hd (c & es & Ho & Hk)%getitem_inv Hx.
  eapply Hc; [done..|]. apply obj_refs_elem. exists v. split; [|done].
  by eapply dict_get_elem.
Qed.

(** ** Regions: what a merge writes

    [R] is the region that the merge may write and [Q] the region of the
    sources; the lemmas of this section follow the code from the handlers
    up to the fold over the sources. *)

Section regions.
Context (R Q : loc → Prop).

Lemma step_refl h : region R h → step R h h.
Proof. intros H. split; [|done]. split; auto. Qed.

Lemma step_trans h1 h2 h3 : step R h1 h2 → step R h2 h3 → step R h1 h3.
Proof.
  intros [[L1 F1] _] [[L2 F2] H3]. split; [|done]. split; [lia|].
  intros l Hl. rewrite F2 by done. by apply F1.
Qed.

Lemma sep_step h h' : sep R Q h → step R h h' → sep R Q h'.
Proof.
  intros (HR & HQ & Hd) [[L F] HR']. split; [done|]. split; [|done].
  intros l o l' Hl Ho Hl'. rewrite F in Ho by auto. eauto.
Qed.

Lemma region_item h l o v x :
  region R h → R l → h !! l = Some o → v ∈ obj_vals o → x ∈ val_refs v → R x.
Proof.
  intros [_ Hc] Hl Ho Hv Hx. eapply Hc; [done..|]. apply obj_refs_elem. eauto.
Qed.

Lemma step_deepcopy fuel h v h1 c :
  region R h → deepcopy fuel h v = Ok (h1, c) →
  step R h h1 ∧ ∀ x, x ∈ val_refs c → R x.
Proof.
  intros [Hf Hc] ([L E] & Hcl & Hrefs)%deepcopy_post.
  split; [split; [split; [done|]|split]|].
  - intros l Hl. apply E. destruct (decide (l < length h)); [done|].
    destruct Hl. apply Hf. lia.
  - intros l Hl. apply Hf. lia.
  - intros l o l' Hl Ho Hl'. destruct (decide (l < length h)) as [Hlt|Hge].
    + rewrite E in Ho by done. eauto.
    + apply Hf. eapply Hcl; [|done..]. lia.
  - intros x Hx. apply Hf. by eapply Forall_forall in Hrefs.
Qed.

Lemma step_insert h l o :
  region R h → R l → (∀ x, x ∈ obj_refs o → R x) → step R h (<[l := o]> h).
Proof.
  intros [Hf Hc] Hl Ho. split; [split|split].
  - by rewrite length_insert.
  - intros l2 Hl2. apply list_lookup_insert_ne. by intros ->.
  - intros l2. rewrite length_insert. apply Hf.
  - by apply closed_insert.
Qed.

Lemma step_setitem h d key v h' :
  region R h → R d → (∀ x, x ∈ val_refs v → R x) →
  setitem h d key v = Ok h' → step R h h'.
Proof.
  intros HR Hd Hv. unfold setitem, get_dict.
  destruct (h !! d) as [[c es| |]|] eqn:E; simpl; try done.
  intros [= <-]. apply step_insert; [done..|].
  intros x (w & Hw & Hx)%obj_refs_elem. simpl in Hw.
  apply dict_set_elem in Hw as [->|Hw]; [by apply Hv|].
  by eapply (region_item h d (ODict c es)).
Qed.

Lemma step_replace fuel h dst src key sv E :
  region R h → R dst → getitem h src key = Ok sv →
  wlp (_handle_merge_replace fuel h dst src key) (step R h) E.
Proof.
  intros HR Hd Gs. unfold _handle_merge_replace. rewrite Gs. simpl.
  apply wlp_no_raise.
  { apply no_raise_bind; [apply deepcopy_no_raise|].
    intros [h1 c]. apply setitem_no_raise. }
  intros h' H. inv_bind H. destruct a as [h1 c].
  destruct (step_deepcopy _ _ _ _ _ HR Ha) as [Hs Hc].
  eapply step_trans; [done|]. eapply step_setitem; [apply Hs|done..].
Qed.

Lemma step_additive fuel h dst src key dv sv E :
  region R h → R dst → getitem h dst key = Ok dv → getitem h src key = Ok sv →
  wlp (_handle_merge_additive fuel h dst src key) (step R h) E.
Proof.
  intros HR Hd Gd Gs. unfold _handle_merge_additive. rewrite Gd, Gs. simpl.
  assert (Hdv : ∀ x, x ∈ val_refs dv → R x).
  { apply getitem_inv in Gd as (c & es & Ho & Hk). intros x Hx.
    eapply (region_item h dst); [done..| |done]. by eapply dict_get_elem. }
  destruct (is_list h dv && is_list h sv);
    [|destruct (is_set h dv && is_set h sv);
      [|destruct (is_tuple dv && is_tuple sv); [|by eapply step_replace]]].
  - (* lists *)
    apply wlp_no_raise.
    { apply no_raise_bind; [apply deepcopy_no_raise|]. intros [h1 c] e h'.
      unfold list_extend. destruct dv, c; try done.
      by destruct (h1 !! l) as [[]|], (h1 !! l0) as [[]|]. }
    intros h' H. inv_bind H. destruct a as [h1 c].
    destruct (step_deepcopy _ _ _ _ _ HR Ha) as [Hs Hc].
    eapply step_trans; [done|]. unfold list_extend in H.
    destruct dv as [| | | | | |ld], c as [| | | | | |lc]; try done.
    destruct (h1 !! ld) as [[|s xs|]|] eqn:Eld; try done.
    destruct (h1 !! lc) as [[|s' ys|]|] eqn:Elc; try done.
    injection H as <-. destruct Hs as [_ HR1].
    apply step_insert; [done|apply Hdv; simpl; left|].
    intros x (w & [Hw|Hw]%elem_of_app & Hx)%obj_refs_elem.
    + eapply (region_item h1 ld); [done|apply Hdv; simpl; left|done..].
    + eapply (region_item h1 lc); [done|apply Hc; simpl; left|done..].
  - (* sets *)
    apply wlp_no_raise.
    { apply no_raise_bind; [apply deepcopy_no_raise|]. intros [h1 c] e h'.
      unfold set_update. destruct dv, c; try done.
      destruct (h1 !! l) as [[| |s xs]|], (h1 !! l0) as [[| |s' ys]|]; try done.
      apply no_raise_bind; [|done].
      apply set_add_all_no_raise. intros a b.
      apply item_eq_no_raise. intros. apply py_eq_no_raise. }
    intros h' H. inv_bind H. destruct a as [h1 c].
    destruct (step_deepcopy _ _ _ _ _ HR Ha) as [Hs Hc].
    eapply step_trans; [done|]. unfold set_update in H.
    destruct dv as [| | | | | |ld], c as [| | | | | |lc]; try done.
    destruct (h1 !! ld) as [[| |s xs]|] eqn:Eld; try done.
    destruct (h1 !! lc) as [[| |s' ys]|] eqn:Elc; try done.
    inv_bind H. injection H as <-. destruct Hs as [_ HR1].
    apply step_insert; [done|apply Hdv; simpl; left|].
    intros x (w & Hw & Hx)%obj_refs_elem. simpl in Hw.
    destruct (set_add_all_elem _ _ _ _ Ha0 w Hw).
    + eapply (region_item h1 ld); [done|apply Hdv; simpl; left|done..].
    + eapply (region_item h1 lc); [done|apply Hc; simpl; left|done..].
  - (* tuples *)
    apply wlp_no_raise.
    { apply no_raise_bind; [apply deepcopy_no_raise|]. intros [h1 c].
      apply no_raise_bind; [by destruct dv, c|]. intros t. apply setitem_no_raise. }
    intros h' H. inv_bind H. destruct a as [h1 c]. inv_bind H.
    destruct (step_deepcopy _ _ _ _ _ HR Ha) as [Hs Hc].
    eapply step_trans; [done|]. eapply step_setitem; [apply Hs|done| |done].
    destruct dv as [| | | | |xs|], c as [| | | | |ys|]; try done.
    injection Ha0 as <-. intros x (w & [Hw|Hw]%elem_of_app & Hx)%val_refs_tuple.
    + apply Hdv, val_refs_tuple. eauto.
    + apply Hc, val_refs_tuple. eauto.
Qed.

Lemma step_typesafe inner fuel h dst src key dv sv (E : exn → heap → Prop) :
  region R h → getitem h dst key = Ok dv → getitem h src key = Ok sv →
  (∀ td ts, E (TypeMismatch td ts key) h) →
  wlp (inner fuel h dst src key) (step R h) E →
  wlp (_handle_merge_typesafe inner fuel h dst src key) (step R h) E.
Proof.
  intros HR Gd Gs HE Hinner. unfold _handle_merge_typesafe. rewrite Gd, Gs. simpl.
  pose proof (type_of_no_raise h dv) as Nd. pose proof (type_of_no_raise h sv) as Ns.
  destruct (type_of h dv) as [td|e h0| |]; simpl; [|by destruct (Nd e h0)|done..].
  destruct (type_of h sv) as [ts|e h0| |]; simpl; [|by destruct (Ns e h0)|done..].
  destruct (decide (td = ts)); [done|]. apply HE.
Qed.

Lemma step_handler s fuel h dst src key dv sv :
  region R h → R dst → getitem h dst key = Ok dv → getitem h src key = Ok sv →
  wlp (_handle_merge s fuel h dst src key) (step R h)
      (fun e h' => step R h h' ∧ allowed (Member s) e).
Proof.
  intros HR Hd Gd Gs.
  destruct s; simpl;
    try (eapply step_typesafe; [done..| |]; [intros; split; [by apply step_refl|done]|]);
    first [by eapply step_replace | by eapply step_additive].
Qed.

Lemma merge_key_sep rec strategy fuel h dst src key sv :
  sep R Q h → R dst → Q src → getitem h src key = Ok sv →
  (∀ d s, R d → Q s →
     wlp (rec h d s) (fun r => step R h r.1)
         (fun e h' => step R h h' ∧ allowed strategy e)) →
  wlp (merge_key rec strategy fuel dst src key h) (step R h)
      (fun e h' => step R h h' ∧ allowed strategy e).
Proof.
  intros (HR & HQ & Hdis) Hd Hs Gs Hrec. unfold merge_key, select_branch.
  pose proof (get_dict_no_raise h dst) as Nd.
  destruct (get_dict h dst) as [[dc des]|e h0| |] eqn:Ed; simpl;
    [|by destruct (Nd e h0)|done..].
  apply get_dict_inv in Ed.
  destruct (dict_get key des) as [dv|] eqn:Ek; simpl.
  - rewrite Gs. simpl.
    pose proof (getitem_intro _ _ _ _ _ _ Ed Ek) as Gd.
    assert (Hcmp : ∀ k : branch → outcome heap,
      k Equal = Ok h →
      k Conflict = call (handle_merge_get strategy) fuel h dst src key →
      wlp ((py_eq fuel h dv sv ≫= fun b => Ok (if b : bool then Equal else Conflict))
           ≫= k)
          (step R h) (fun e h' => step R h h' ∧ allowed strategy e)).
    { intros k HE HC. pose proof (py_eq_no_raise fuel h dv sv) as Ne.
      destruct (py_eq fuel h dv sv) as [[]|e h0| |]; simpl;
        [rewrite HE; by apply step_refl|rewrite HC|by destruct (Ne e h0)|done..].
      destruct strategy as [s|repr]; simpl.
      - by eapply step_handler.
      - split; [by apply step_refl|done]. }
    destruct (mapping_loc h dv) as [d|] eqn:Emd; [|by apply Hcmp].
    destruct (mapping_loc h sv) as [s|] eqn:Ems; [|by apply Hcmp].
    simpl. apply wlp_bind.
    apply mapping_loc_inv in Emd as ->. apply mapping_loc_inv in Ems as ->.
    eapply wlp_mono; [apply (Hrec d s)| |done].
    + destruct HR as [_ HR]. eapply getitem_region; [done..|]. simpl. left.
    + eapply getitem_region; [done..|]. simpl. left.
    + by intros [h1 r].
  - change (wlp (_handle_merge_replace fuel h dst src key) (step R h)
                (fun e h' => step R h h' ∧ allowed strategy e)).
    by eapply step_replace.
Qed.

Lemma frame_lookup h0 h l :
  sep R Q h0 → step R h0 h → Q l → h !! l = h0 !! l.
Proof. intros (_ & _ & Hdis) [[_ F] _] Hl. apply F. by apply Hdis. Qed.

Lemma for_keys_sep body strategy src c es h0 :
  sep R Q h0 → Q src → h0 !! src = Some (ODict c es) →
  (∀ key h, step R h0 h → is_Some (dict_get key es) →
     wlp (body key h) (step R h) (fun e h' => step R h h' ∧ allowed strategy e)) →
  ∀ steps pos h, step R h0 h →
    wlp (for_keys body src (length es) pos steps h) (step R h0)
        (fun e h' => step R h0 h' ∧ allowed strategy e).
Proof.
  intros Hsep Hs Ho Hbody. induction steps as [|steps IH]; intros pos h Hst.
  - simpl. unfold get_dict. rewrite (frame_lookup h0 h src), Ho by done. simpl.
    rewrite Nat.eqb_refl. simpl. done.
  - simpl. unfold get_dict. rewrite (frame_lookup h0 h src), Ho by done. simpl.
    rewrite Nat.eqb_refl. simpl.
    destruct (es !! pos) as [[key v]|] eqn:Ep; [|done].
    apply wlp_bind. eapply wlp_mono.
    + apply Hbody; [done|]. by eapply dict_get_lookup.
    + intros h1 Hst1. simpl. apply IH. by eapply step_trans.
    + intros e h' [Hst1 He]. split; [by eapply step_trans|done].
Qed.

Lemma deepmerge_sep strategy fuel :
  ∀ h dst src, sep R Q h → R dst → Q src →
    wlp (_deepmerge fuel strategy h dst src) (fun r => r.2 = dst ∧ step R h r.1)
        (fun e h' => step R h h' ∧ allowed strategy e).
Proof.
  induction fuel as [|fuel IH]; intros h dst src Hsep Hd Hs; simpl; [done|].
  pose proof (get_dict_no_raise h src) as Ns.
  destruct (get_dict h src) as [[c es]|e h0| |] eqn:Es; simpl;
    [|by destruct (Ns e h0)|done..].
  apply get_dict_inv in Es. apply wlp_bind. eapply wlp_mono.
  - apply (for_keys_sep _ strategy src c es h); [done..| |].
    + intros key h1 Hst [sv Hk].
      apply (merge_key_sep _ _ _ _ _ _ _ sv); [by eapply sep_step|done..| |].
      * eapply getitem_intro; [|done]. by rewrite (frame_lookup h h1 src).
      * intros d s Hd' Hs'. eapply wlp_mono; [apply IH|..]; try done.
        -- by eapply sep_step.
        -- by intros r [_ ?].
    + apply step_refl. by destruct Hsep.
  - intros h1 Hst. simpl. done.
  - done.
Qed.

Lemma reduce_sep strategy fuel dst :
  ∀ sources h, sep R Q h → R dst → (∀ s, s ∈ sources → Q s) →
    wlp (reduce (_deepmerge fuel strategy) sources h dst)
        (fun r => r.2 = dst ∧ step R h r.1)
        (fun e h' => step R h h' ∧ allowed strategy e).
Proof.
  induction sources as [|s ss IH]; intros h Hsep Hd Hss; simpl.
  - split; [done|]. apply step_refl. by destruct Hsep.
  - apply wlp_bind. eapply wlp_mono.
    + apply (deepmerge_sep); [done..|]. apply Hss. left.
    + intros [h1 r] [Er Hst]. simpl in *. subst r. eapply wlp_mono.
      * apply IH; [by eapply sep_step|done|]. intros s' Hs'. apply Hss. by right.
      * intros [h2 r2] [Er Hst2]. simpl in *. split; [done|]. by eapply step_trans.
      * intros e h' [Hst2 He]. split; [by eapply step_trans|done].
    + done.
Qed.

End regions.

(** ** Where a type mismatch is raised *)

Lemma region_all h : region (fun _ => True) h.
Proof. split; [done|]. by intros l o l'. Qed.

Lemma handle_merge_replace_no_raise fuel h dst src key sv :
  getitem h src key = Ok sv → no_raise (_handle_merge_replace fuel h dst src key).
Proof.
  intros Gs e h' Hr.
  pose proof (step_replace (fun _ => True) fuel h dst src key sv (fun _ _ => False)
                (region_all h) I Gs) as H.
  by rewrite Hr in H.
Qed.

Lemma handle_merge_additive_no_raise fuel h dst src key dv sv :
  getitem h dst key = Ok dv → getitem h src key = Ok sv →
  no_raise (_handle_merge_additive fuel h dst src key).
Proof.
  intros Gd Gs e h' Hr.
  pose proof (step_additive (fun _ => True) fuel h dst src key dv sv (fun _ _ => False)
                (region_all h) I Gd Gs) as H.
  by rewrite Hr in H.
Qed.

Lemma call_at_conflict strategy fuel h dst src key dv sv :
  getitem h dst key = Ok dv → getitem h src key = Ok sv →
  is_mapping h dv && is_mapping h sv = false → py_eq fuel h dv sv = Ok false →
  wlp (call (handle_merge_get strategy) fuel h dst src key) (fun _ => True)
      (mismatch_at_conflict strategy).
Proof.
  intros Gd Gs Hm He. destruct strategy as [s|repr]; simpl; [|done].
  assert (Hrep : wlp (_handle_merge_replace fuel h dst src key) (fun _ => True)
                     (mismatch_at_conflict (Member s))).
  { apply wlp_no_raise; [by eapply handle_merge_replace_no_raise|done]. }
  assert (Hadd : wlp (_handle_merge_additive fuel h dst src key) (fun _ => True)
                     (mismatch_at_conflict (Member s))).
  { apply wlp_no_raise; [by eapply handle_merge_additive_no_raise|done]. }
  assert (Hts : typesafe s = true → ∀ inner : handler,
            wlp (inner fuel h dst src key) (fun _ => True)
                (mismatch_at_conflict (Member s)) →
            wlp (_handle_merge_typesafe inner fuel h dst src key) (fun _ => True)
                (mismatch_at_conflict (Member s))).
  { intros Hs inner Hinner. unfold _handle_merge_typesafe. rewrite Gd, Gs. simpl.
    pose proof (type_of_no_raise h dv) as Nd. pose proof (type_of_no_raise h sv) as Ns.
    destruct (type_of h dv) as [td|e h0| |] eqn:Etd; simpl;
      [|by destruct (Nd e h0)|done..].
    destruct (type_of h sv) as [ts|e h0| |] eqn:Ets; simpl;
      [|by destruct (Ns e h0)|done..].
    destruct (decide (td = ts)) as [|Hne]; [done|]. simpl.
    split; [by exists s|]. by exists dst, src, dv, sv, fuel. }
  destruct s; simpl; auto.
Qed.

Lemma merge_key_at_conflict rec strategy fuel dst src key h :
  (∀ d s, wlp (rec h d s) (fun _ => True) (mismatch_at_conflict strategy)) →
  wlp (merge_key rec strategy fuel dst src key h) (fun _ => True)
      (mismatch_at_conflict strategy).
Proof.
  intros Hrec. unfold merge_key, select_branch.
  pose proof (get_dict_no_raise h dst) as Nd.
  destruct (get_dict h dst) as [[dc des]|e h0| |] eqn:Ed; simpl;
    [|by destruct (Nd e h0)|done..].
  apply get_dict_inv in Ed.
  assert (Hget : ∀ e h0, getitem h src key = Raise e h0 →
                         mismatch_at_conflict strategy e h0).
  { intros e h0. unfold getitem.
    destruct (get_dict h src) as [[c es]|e' h'| |] eqn:Es; simpl; try done.
    - destruct (dict_get key es); [done|]. by intros [= <- <-].
    - by destruct (get_dict_no_raise h src e' h'). }
  destruct (dict_get key des) as [dv|] eqn:Ek; simpl.
  - pose proof (getitem_intro _ _ _ _ _ _ Ed Ek) as Gd.
    destruct (getitem h src key) as [sv|e h0| |] eqn:Gs; simpl; [|by apply Hget|done..].
    assert (Hcmp : ∀ k : branch → outcome heap,
      k Equal = Ok h →
      k Conflict = call (handle_merge_get strategy) fuel h dst src key →
      is_mapping h dv && is_mapping h sv = false →
      wlp ((py_eq fuel h dv sv ≫= fun b => Ok (if b : bool then Equal else Conflict))
           ≫= k)
          (fun _ => True) (mismatch_at_conflict strategy)).
    { intros k HE HC Hm. pose proof (py_eq_no_raise fuel h dv sv) as Ne.
      destruct (py_eq fuel h dv sv) as [[]|e h0| |] eqn:Eq; simpl;
        [by rewrite HE|rewrite HC|by destruct (Ne e h0)|done..].
      by eapply call_at_conflict. }
    unfold is_mapping in Hcmp.
    destruct (mapping_loc h dv) as [d|] eqn:Emd; [|by apply Hcmp].
    destruct (mapping_loc h sv) as [s|] eqn:Ems; [|by apply Hcmp].
    simpl. apply wlp_bind. eapply wlp_mono; [apply (Hrec d s)| |done]. by intros [h1 r].
  - destruct (getitem h src key) as [sv|e h0| |] eqn:Gs; simpl; [|by apply Hget|done..].
    apply wlp_no_raise; [|done].
    apply no_raise_bind; [apply deepcopy_no_raise|]. intros [h1 c]. apply setitem_no_raise.
Qed.

Lemma for_keys_at_conflict body strategy src used :
  (∀ key h, wlp (body key h) (fun _ => True) (mismatch_at_conflict strategy)) →
  ∀ steps pos h,
    wlp (for_keys body src used pos steps h) (fun _ => True)
        (mismatch_at_conflict strategy).
Proof.
  intros Hbody. induction steps as [|steps IH]; intros pos h; simpl;
    pose proof (get_dict_no_raise h src) as Ns;
    (destruct (get_dict h src) as [[c es]|e h0| |]; simpl;
      [|by destruct (Ns e h0)|done..]);
    (destruct (negb (length es =? used)); [done|]); [done|].
  destruct (es !! pos) as [[key v]|]; [|done].
  apply wlp_bind. eapply wlp_mono; [apply Hbody| |done]. intros h1 _. apply IH.
Qed.

Lemma deepmerge_at_conflict strategy fuel :
  ∀ h dst src,
    wlp (_deepmerge fuel strategy h dst src) (fun _ => True)
        (mismatch_at_conflict strategy).
Proof.
  induction fuel as [|fuel IH]; intros h dst src; simpl; [done|].
  pose proof (get_dict_no_raise h src) as Ns.
  destruct (get_dict h src) as [[c es]|e h0| |]; simpl;
    [|by destruct (Ns e h0)|done..].
  apply wlp_bind. eapply wlp_mono; [|by intros|done].
  apply for_keys_at_conflict. intros key h1. by apply merge_key_at_conflict.
Qed.

Lemma reduce_at_conflict strategy fuel :
  ∀ sources h dst,
    wlp (reduce (_deepmerge fuel strategy) sources h dst) (fun _ => True)
        (mismatch_at_conflict strategy).
Proof.
  induction sources as [|s ss IH]; intros h dst; simpl; [done|].
  apply wlp_bind. eapply wlp_mono; [apply deepmerge_at_conflict| |done].
  intros [h1 r] _. apply IH.
Qed.

(** ** Equal values are left alone

    Under a member of [Strategy], a key whose two values are equal leaves the
    heap as it was, whether the values are mappings or not. *)

Lemma dict_get_elem_pair key es v : dict_get key es = Some v → (key, v) ∈ es.
Proof.
  induction es as [|[k v0] es IH]; simpl; [done|].
  destruct (String.eqb key k) eqn:E.
  - apply String.eqb_eq in E as ->. intros [= ->]. left.
  - intros H. right. auto.
Qed.

Lemma dict_get_is_Some key es : is_Some (dict_get key es) ↔ key ∈ es.*1.
Proof.
  induction es as [|[k v0] es IH]; simpl.
  - split; [by intros [? ?]|by intros ?%elem_of_nil].
  - destruct (String.eqb key k) eqn:E.
    + apply String.eqb_eq in E as ->. split; [left|eauto].
    + apply String.eqb_neq in E. rewrite IH.
      split; [by right|]. by intros [->|?]%elem_of_cons.
Qed.

Lemma keys_pigeonhole (des ses : list (string * value)) :
  NoDup des.*1 → length des = length ses →
  (∀ k, k ∈ des.*1 → k ∈ ses.*1) → ∀ k, k ∈ ses.*1 → k ∈ des.*1.
Proof.
  intros Hnd Hlen Hsub k Hk.
  assert (des.*1 ≡ₚ ses.*1) as Hp.
  { apply submseteq_length_Permutation; [by apply NoDup_submseteq|].
    rewrite !length_fmap. lia. }
  by rewrite Hp.
Qed.

Lemma py_eq_dicts f h d s dc des sc ses :
  h !! d = Some (ODict dc des) → h !! s = Some (ODict sc ses) →
  py_eq f h (VRef d) (VRef s) = Ok true →
  ∃ f', length des = length ses ∧
        ∀ k v, (k, v) ∈ des →
               ∃ w, dict_get k ses = Some w ∧ item_eq (py_eq f' h) v w = Ok true.
Proof.
  intros Hd Hs. destruct f as [|f]; [done|]. simpl. unfold eq_step. rewrite Hd, Hs.
  destruct (length des =? length ses) eqn:E; [|done]. intros H. exists f.
  split; [by apply Nat.eqb_eq|]. intros k v Hkv.
  pose proof (forallM_true _ _ H (k, v) Hkv) as H1. simpl in H1.
  destruct (dict_get k ses); [eauto|done].
Qed.

Lemma item_eq_inv eq x y :
  item_eq eq x y = Ok true → (∃ l, x = VRef l ∧ y = VRef l) ∨ eq x y = Ok true.
Proof.
  unfold item_eq. destruct x, y; auto.
  destruct (l =? l0) eqn:E; [|auto]. apply Nat.eqb_eq in E as ->. eauto.
Qed.

Lemma for_keys_const body src c es h :
  h !! src = Some (ODict c es) →
  (∀ pos key v, es !! pos = Some (key, v) → body key h = Ok h) →
  ∀ steps pos, for_keys body src (length es) pos steps h = Ok h.
Proof.
  intros Ho Hbody. induction steps as [|steps IH]; intros pos; simpl;
    unfold get_dict; rewrite Ho; simpl; rewrite Nat.eqb_refl; simpl; [done|].
  destruct (es !! pos) as [[key v]|] eqn:E; [|done].
  rewrite (Hbody _ _ _ E). simpl. apply IH.
Qed.

Lemma merge_key_same (st : Strategy) n fuel fuel' f h dst src key dv sv :
  (∀ d s, finite n h (VRef d) = true → finite n h (VRef s) = true →
          mapping_loc h (VRef d) = Some d → mapping_loc h (VRef s) = Some s →
          item_eq (py_eq f h) (VRef d) (VRef s) = Ok true →
          _deepmerge fuel' (Member st) h d s = Ok (h, d)) →
  n ≤ fuel →
  getitem h dst key = Ok dv → getitem h src key = Ok sv →
  finite n h dv = true → finite n h sv = true →
  item_eq (py_eq f h) dv sv = Ok true →
  merge_key (_deepmerge fuel' (Member st)) (Member st) fuel dst src key h = Ok h.
Proof.
  intros Hrec Hfuel Gd Gs Fd Fs Hi.
  destruct (mapping_loc h dv) as [d|] eqn:Emd.
  - destruct (mapping_loc h sv) as [s|] eqn:Ems.
    + rewrite (merge_key_mappings _ _ _ _ _ _ _ _ _ d s Gd Gs Emd Ems).
      pose proof (mapping_loc_inv _ _ _ Emd) as ->.
      pose proof (mapping_loc_inv _ _ _ Ems) as ->.
      by rewrite Hrec.
    + apply (merge_key_equal _ _ _ _ _ _ _ dv sv Gd Gs).
      { unfold is_mapping. rewrite Ems. apply andb_false_r. }
      apply item_eq_inv in Hi as [(l & -> & ->)|Hpy].
      * by rewrite Emd in Ems.
      * destruct (py_eq_total n fuel h dv sv Hfuel Fd Fs) as [r Hr].
        by rewrite (py_eq_agree _ _ _ _ _ _ _ Hr Hpy) in Hr.
  - apply (merge_key_equal _ _ _ _ _ _ _ dv sv Gd Gs).
    { unfold is_mapping. by rewrite Emd. }
    apply item_eq_inv in Hi as [(l & -> & ->)|Hpy].
    * apply (py_eq_refl n); [done..|]. unfold is_mapping. by rewrite Emd.
    * destruct (py_eq_total n fuel h dv sv Hfuel Fd Fs) as [r Hr].
      by rewrite (py_eq_agree _ _ _ _ _ _ _ Hr Hpy) in Hr.
Qed.

Lemma deepmerge_equal (st : Strategy) n : ∀ fuel f h d s,
  keys_wf h → n ≤ fuel →
  finite n h (VRef d) = true → finite n h (VRef s) = true →
  mapping_loc h (VRef d) = Some d → mapping_loc h (VRef s) = Some s →
  item_eq (py_eq f h) (VRef d) (VRef s) = Ok true →
  _deepmerge fuel (Member st) h d s = Ok (h, d).
Proof.
  induction n as [|n IH]; intros fuel f h d s Hwf Hfuel Fd Fs Md Ms Hi; [done|].
  destruct fuel as [|fuel]; [lia|]. simpl in Fd, Fs, Md, Ms.
  destruct (h !! d) as [[dc des| |]|] eqn:Ed; try done.
  destruct (h !! s) as [[sc ses| |]|] eqn:Es; try done.
  simpl in Fd, Fs. simpl. unfold get_dict. rewrite Es. simpl.
  rewrite (for_keys_const _ s sc ses h Es); [done|].
  intros pos key v Hpos.
  assert (∃ dv sv f', dict_get key des = Some dv ∧ dict_get key ses = Some sv ∧
                      item_eq (py_eq f' h) dv sv = Ok true) as (dv & sv & f' & Kd & Ks & Hi').
  { apply item_eq_inv in Hi as [(l & [= ->] & [= ->])|Hpy].
    - rewrite Ed in Es. injection Es as -> ->.
      destruct (dict_get_lookup _ _ _ _ Hpos) as [sv Hsv].
      exists sv, sv, n. split; [done|]. split; [done|].
      apply (item_eq_refl n); [done|].
      apply (forallb_elem _ ses.*2); [done|]. by eapply dict_get_elem.
    - destruct (py_eq_dicts _ _ _ _ _ _ _ _ Ed Es Hpy) as (f' & Hlen & Hall).
      assert (key ∈ des.*1) as [dv Hdv]%dict_get_is_Some.
      { apply (keys_pigeonhole des ses); [|done| |].
        - by apply (Forall_lookup_1 _ _ _ _ Hwf Ed).
        - intros k [[k' v'] [-> Hkv]]%list_elem_of_fmap.
          destruct (Hall _ _ Hkv) as (w & Hw & _).
          apply dict_get_is_Some. eauto.
        - apply list_elem_of_fmap. exists (key, v). split; [done|].
          by eapply list_elem_of_lookup_2. }
      destruct (Hall _ _ (dict_get_elem_pair _ _ _ Hdv)) as (w & Hw & Hiw).
      by exists dv, w, f'. }
  apply (merge_key_same st n fuel fuel f' h d s key dv sv).
  - intros d' s' Fd' Fs' Md' Ms' Hi''. by apply (IH fuel f'); [done|lia|..].
  - lia.
  - by eapply getitem_intro.
  - by eapply getitem_intro.
  - apply (forallb_elem _ des.*2); [done|]. by eapply dict_get_elem.
  - apply (forallb_elem _ ses.*2); [done|]. by eapply dict_get_elem.
  - done.
Qed.

Lemma merge_key_equal_values (st : Strategy) n fuel fuel' f h dst src key dv sv :
  keys_wf h → n ≤ fuel → n ≤ fuel' →
  getitem h dst key = Ok dv → getitem h src key = Ok sv →
  finite n h dv = true → finite n h sv = true →
  py_eq f h dv sv = Ok true →
  merge_key (_deepmerge fuel' (Member st)) (Member st) fuel dst src key h = Ok h.
Proof.
  intros Hwf Hfuel Hfuel' Gd Gs Fd Fs He.
  apply (merge_key_same st n fuel fuel' f h dst src key dv sv); try done.
  - intros d s Fd' Fs' Md Ms Hi. by apply (deepmerge_equal st n fuel' f).
  - by apply item_eq_of_py_eq.
Qed.

Lemma keys_wf_check h : bool_decide (keys_wf h) = true → keys_wf h.
Proof. apply bool_decide_eq_true_1. Qed.

(** C8 (amended).  For a key present on both sides, the strategy's handler
    is called exactly when the two values are not both mappings and are
    unequal; either of them may be a mapping.  When both are mappings the
    body recurses and calls no handler; when they are not both mappings and
    are equal, the body does nothing. *)
Theorem handler_called_iff_conflict rec strategy fuel h dst src key dv sv :
  getitem h dst key = Ok dv → getitem h src key = Ok sv →
  (select_branch fuel h dst src key = Ok Conflict ↔
   is_mapping h dv && is_mapping h sv = false ∧ py_eq fuel h dv sv = Ok false) ∧
  (is_mapping h dv && is_mapping h sv = false → py_eq fuel h dv sv = Ok false →
   merge_key rec strategy fuel dst src key h =
   call (handle_merge_get strategy) fuel h dst src key) ∧
  (∀ d s, mapping_loc h dv = Some d → mapping_loc h sv = Some s →
   merge_key rec strategy fuel dst src key h = '(h1, _) ← rec h d s; Ok h1) ∧
  (is_mapping h dv && is_mapping h sv = false → py_eq fuel h dv sv = Ok true →
   merge_key rec strategy fuel dst src key h = Ok h).
Proof.
  intros Hd Hs. split; [by apply select_branch_conflict|].
  split; [by apply merge_key_conflict|].
  split; [intros d s; by apply merge_key_mappings|by apply merge_key_equal].
Qed.

Lemma handler_called_iff_conflict_witness :
  let h := heap_mapping_scalar in
  (select_branch 5 h 0 1 "k" = Ok Conflict ↔
   is_mapping h (VRef 2) && is_mapping h (VInt 5) = false ∧
   py_eq 5 h (VRef 2) (VInt 5) = Ok false) ∧
  merge_key (_deepmerge 5 (Member REPLACE)) (Member REPLACE) 5 0 1 "k" h =
  call (handle_merge_get (Member REPLACE)) 5 h 0 1 "k".
Proof.
  intros h.
  destruct (handler_called_iff_conflict (_deepmerge 5 (Member REPLACE))
              (Member REPLACE) 5 h 0 1 "k" (VRef 2) (VInt 5)) as (H1 & H2 & _);
    [vm_compute; reflexivity|vm_compute; reflexivity|].
  split; [exact H1|]. apply H2; vm_compute; reflexivity.
Defined.

(** C8 as stated fails: with [D = {"k": {"a": 1}}] and [S = {"k": 5}] the
    destination's value at ["k"] is a mapping, and yet the handler is
    called; under REPLACE it puts 5 in the place of the mapping. *)
Lemma handler_called_on_a_mapping :
  let h := heap_mapping_scalar in
  getitem h 0 "k" = Ok (VRef 2) ∧ is_mapping h (VRef 2) = true ∧
  getitem h 1 "k" = Ok (VInt 5) ∧
  select_branch 5 h 0 1 "k" = Ok Conflict ∧
  merge_key (_deepmerge 5 (Member REPLACE)) (Member REPLACE) 5 0 1 "k" h =
    call (handle_merge_get (Member REPLACE)) 5 h 0 1 "k" ∧
  merge 5 (Member REPLACE) h 0 [1] =
    Ok ([ODict None [("k", VInt 5)]; ODict None [("k", VInt 5)];
         ODict None [("a", VInt 1)]], 0) ∧
  ¬ (∀ fuel h dst src key dv sv,
       getitem h dst key = Ok dv → getitem h src key = Ok sv →
       select_branch fuel h dst src key = Ok Conflict →
       is_mapping h dv = false ∧ is_mapping h sv = false).
Proof.
  intros h. repeat (split; [vm_compute; reflexivity|]).
  intros H.
  destruct (H 5 h 0 1 "k" (VRef 2) (VInt 5)) as [H1 _]; try (vm_compute; reflexivity).
  vm_compute in H1. discriminate.
Qed.

(** C10. Under the three type-safe strategies the types are compared only
    at a conflict: a type mismatch that a merge raises, at any depth, names
    a key at which some destination mapping and some source mapping hold,
    in the heap at that moment, two values that are not both mappings, that
    are unequal, and whose types are the two types reported.  A key whose
    two values are equal is left alone and raises nothing, whatever their
    types ([1] and [1.0], or a [dict] and an equal instance of a subclass);
    a key whose two values are both mappings is merged by the recursive
    call, with no comparison of their types. *)
Theorem type_check_only_at_conflict :
  (∀ fuel strategy h D sources td ts key h',
     merge fuel strategy h D sources = Raise (TypeMismatch td ts key) h' →
     (∃ s, strategy = Member s ∧ typesafe s = true) ∧ conflict_site h' td ts key) ∧
  (∀ rec s fuel h dst src key dv sv,
     typesafe s = true →
     getitem h dst key = Ok dv → getitem h src key = Ok sv →
     (is_mapping h dv && is_mapping h sv = false → py_eq fuel h dv sv = Ok true →
      merge_key rec (Member s) fuel dst src key h = Ok h) ∧
     (∀ d s', mapping_loc h dv = Some d → mapping_loc h sv = Some s' →
      merge_key rec (Member s) fuel dst src key h = '(h1, _) ← rec h d s'; Ok h1) ∧
     (∀ td ts h',
        merge_key rec (Member s) fuel dst src key h = Raise (TypeMismatch td ts key) h' →
        is_mapping h dv && is_mapping h sv = false →
        py_eq fuel h dv sv = Ok false)) ∧
  (∀ s n fuel fuel' f h dst src key dv sv,
     typesafe s = true → keys_wf h → n ≤ fuel → n ≤ fuel' →
     getitem h dst key = Ok dv → getitem h src key = Ok sv →
     finite n h dv = true → finite n h sv = true →
     py_eq f h dv sv = Ok true →
     merge_key (_deepmerge fuel' (Member s)) (Member s) fuel dst src key h = Ok h).
Proof.
  split; [|split].
  - intros fuel strategy h D sources td ts key h' Hr.
    pose proof (reduce_at_conflict strategy fuel sources h D) as H.
    unfold merge in Hr. by rewrite Hr in H.
  - intros rec s fuel h dst src key dv sv _ Hd Hs.
    split; [by apply merge_key_equal|].
    split; [intros d s'; by apply merge_key_mappings|].
    intros td ts h' Hr Hm. unfold merge_key in Hr.
    rewrite (select_branch_compare _ _ _ _ _ _ _ Hd Hs Hm) in Hr.
    pose proof (py_eq_no_raise fuel h dv sv) as Hn.
    destruct (py_eq fuel h dv sv) as [[]| | |]; simpl in Hr; try done.
    by destruct (Hn e h0).
  - intros s n fuel fuel' f h dst src key dv sv _ Hwf Hfuel Hfuel' Gd Gs Fd Fs He.
    by apply (merge_key_equal_values s n fuel fuel' f h dst src key dv sv).
Qed.

Lemma type_check_only_at_conflict_witness :
  (let h := heap_int_float in
   type_of h (VInt 1) = Ok TInt ∧ type_of h (VFloat 1 0) = Ok TFloat ∧
   merge_key (_deepmerge 5 (Member TYPESAFE)) (Member TYPESAFE) 5 0 1 "a" h = Ok h ∧
   merge 5 (Member TYPESAFE) h 0 [1] = Ok (h, 0)) ∧
  (let h := heap_nested in
   type_of h (VRef 2) = Ok (TDict None) ∧
   type_of h (VRef 3) = Ok (TDict (Some "Settings")) ∧
   merge_key (_deepmerge 5 (Member TYPESAFE_ADDITIVE)) (Member TYPESAFE_ADDITIVE) 5 0 1 "x" h =
     ('(h1, _) ← _deepmerge 5 (Member TYPESAFE_ADDITIVE) h 2 3; Ok h1) ∧
   merge 5 (Member TYPESAFE_ADDITIVE) h 0 [1] =
     Ok ([ODict None [("x", VRef 2)]; ODict None [("x", VRef 3)];
          ODict None [("a", VInt 1); ("b", VInt 2)];
          ODict (Some "Settings") [("b", VInt 2)]], 0)) ∧
  (let h := heap_equal_nested in
   type_of h (VRef 2) = Ok (TDict None) ∧
   type_of h (VRef 3) = Ok (TDict (Some "Settings")) ∧
   merge_key (_deepmerge 5 (Member TYPESAFE)) (Member TYPESAFE) 5 0 1 "x" h = Ok h) ∧
  (let h := heap_mismatch in
   merge 5 (Member TYPESAFE) h 0 [1] = Raise (TypeMismatch (TList None) TStr "k") h ∧
   conflict_site h (TList None) TStr "k").
Proof.
  destruct type_check_only_at_conflict as (Hwhole & Hkey & Hequal).
  split; [|split; [|split]]; intros h.
  - do 2 (split; [vm_compute; reflexivity|]). split; [|vm_compute; reflexivity].
    destruct (Hkey (_deepmerge 5 (Member TYPESAFE)) TYPESAFE
                5 h 0 1 "a" (VInt 1) (VFloat 1 0)) as (H1 & _);
      [vm_compute; reflexivity..|].
    apply H1; vm_compute; reflexivity.
  - do 2 (split; [vm_compute; reflexivity|]). split; [|vm_compute; reflexivity].
    destruct (Hkey (_deepmerge 5 (Member TYPESAFE_ADDITIVE)) TYPESAFE_ADDITIVE
                5 h 0 1 "x" (VRef 2) (VRef 3)) as (_ & H2 & _);
      [vm_compute; reflexivity..|].
    apply H2; vm_compute; reflexivity.
  - do 2 (split; [vm_compute; reflexivity|]).
    apply (Hequal TYPESAFE 3 5 5 5 h 0 1 "x" (VRef 2) (VRef 3));
      first [lia | by apply keys_wf_check | vm_compute; reflexivity].
  - assert (merge 5 (Member TYPESAFE) h 0 [1] =
            Raise (TypeMismatch (TList None) TStr "k") h) as Hr
      by (vm_compute; reflexivity).
    split; [exact Hr|]. exact (proj2 (Hwhole _ _ _ _ _ _ _ _ _ Hr)).
Defined.

(** ** Reachability and regions *)

Lemma reach_closed (P : loc → Prop) h v l :
  closed P h → (∀ x, x ∈ val_refs v → P x) → reach h v l → P l.
Proof. intros Hc Hv. induction 1; eauto. Qed.

Lemma reach_allocated h v l :
  heap_wf h → (∀ x, x ∈ val_refs v → x < length h) → reach h v l → l < length h.
Proof.
  intros Hwf Hv. induction 1 as [l Hl|l o l' Hr IH Ho Hl']; [auto|].
  apply list_elem_of_lookup_2 in Ho.
  eapply Forall_forall in Hwf; [|done]. by eapply Forall_forall in Hwf.
Qed.

Lemma closedb_sound ls h : closedb ls h = true → closed (.∈ ls) h.
Proof.
  intros Hb l o l' Hl Ho Hl'. unfold closedb in Hb.
  eapply forallb_elem in Hb; [|done]. rewrite Ho in Hb.
  eapply forallb_elem in Hb; [|done]. by apply bool_decide_eq_true in Hb.
Qed.

(** Two closed regions that do not meet keep the destination and the
    sources apart. *)
Lemma separate_check h D sources (rd rs : list loc) :
  closedb rd h = true → closedb rs h = true →
  bool_decide (D ∈ rd) = true →
  forallb (fun s => bool_decide (s ∈ rs)) sources = true →
  forallb (fun l => bool_decide (l ∉ rs)) rd = true →
  separate h D sources.
Proof.
  intros Hd%closedb_sound Hs%closedb_sound HD%bool_decide_eq_true Hss Hdis s l Hsl Hrs Hrd.
  eapply forallb_elem in Hss; [|done]. apply bool_decide_eq_true in Hss.
  assert (l ∈ rd) as Hl.
  { apply (reach_closed (.∈ rd) h (VRef D) l Hd); [|done].
    by intros x ->%list_elem_of_singleton. }
  assert (l ∈ rs).
  { apply (reach_closed (.∈ rs) h (VRef s) l Hs); [|done].
    by intros x ->%list_elem_of_singleton. }
  eapply forallb_elem in Hdis; [|done]. by apply bool_decide_eq_true in Hdis.
Qed.

Lemma heap_wf_check h : bool_decide (heap_wf h) = true → heap_wf h.
Proof. apply bool_decide_eq_true_1. Qed.

Lemma allocated_check (h : heap) (ls : list nat) :
  forallb (fun x => x <? length h) ls = true → Forall (fun x => x < length h) ls.
Proof.
  intros H. apply Forall_forall. intros x Hx.
  eapply forallb_elem in H; [|done]. by apply Nat.ltb_lt.
Qed.

Lemma separate_sep h D sources :
  heap_wf h → Forall (fun s => s < length h) sources → separate h D sources →
  sep (fun l => reach h (VRef D) l ∨ length h ≤ l)
      (fun l => ∃ s, s ∈ sources ∧ reach h (VRef s) l) h.
Proof.
  intros Hwf Hall Hsep. split; [split|split].
  - auto.
  - intros l o l' [Hl|Hl] Ho Hl'.
    + left. by eapply reach_obj.
    + apply lookup_lt_Some in Ho. lia.
  - intros l o l' (s & Hs & Hl) Ho Hl'. exists s. split; [done|]. by eapply reach_obj.
  - intros l (s & Hs & Hl) [Hd|Hge].
    + by eapply Hsep.
    + assert (l < length h); [|lia].
      eapply reach_allocated; [done| |done].
      intros x ->%list_elem_of_singleton. by eapply Forall_forall in Hall.
Qed.

Lemma merge_apart fuel strategy h D sources :
  heap_wf h → Forall (fun s => s < length h) sources → separate h D sources →
  let R := fun l => reach h (VRef D) l ∨ length h ≤ l in
  wlp (merge fuel strategy h D sources) (fun r => r.2 = D ∧ step R h r.1)
      (fun e h' => step R h h' ∧ allowed strategy e).
Proof.
  intros Hwf Hall Hsep R. unfold merge.
  apply (reduce_sep R (fun l => ∃ s, s ∈ sources ∧ reach h (VRef s) l)).
  - by apply separate_sep.
  - left. apply reach_val. simpl. left.
  - intros s Hs. exists s. split; [done|]. apply reach_val. simpl. left.
Qed.

Lemma ends_in_wlp {A} (m : outcome (heap * A)) (P : heap → Prop) E h' :
  wlp m (fun r => P r.1) (fun e h0 => P h0 ∧ E e h0) → ends_in m h' → P h'.
Proof. destruct m as [[h1 a]|e h1| |]; simpl; try done; [by intros ? <-|by intros [? _] <-]. Qed.

(** C7 (amended).  When no object that the destination reaches is reached
    by a source, a merge that returns or raises, under any strategy, has
    left every object reachable from a source as it was, and afterwards
    still no object that the destination reaches is reached by a source:
    writing to objects of the sources afterwards changes no object that the
    destination reaches. *)
Theorem sources_untouched_when_apart fuel strategy h D sources h' :
  heap_wf h → Forall (fun s => s < length h) sources → separate h D sources →
  ends_in (merge fuel strategy h D sources) h' →
  (∀ s l, s ∈ sources → reach h (VRef s) l → h' !! l = h !! l) ∧
  separate h' D sources ∧
  (∀ h'' : heap,
     (∀ l, (∀ s, s ∈ sources → ¬ reach h' (VRef s) l) → h'' !! l = h' !! l) →
          ∀ l, reach h' (VRef D) l → h'' !! l = h' !! l).
Proof.
  intros Hwf Hall Hsep Hend.
  pose proof (separate_sep h D sources Hwf Hall Hsep) as Hs0.
  set (R := fun l => reach h (VRef D) l ∨ length h ≤ l) in *.
  set (Q := fun l => ∃ s, s ∈ sources ∧ reach h (VRef s) l) in *.
  assert (Hst : step R h h').
  { eapply (ends_in_wlp _ (step R h) (fun e _ => allowed strategy e)); [|done].
    eapply wlp_mono; [by apply merge_apart|by intros r [_ ?]|done]. }
  pose proof (sep_step R Q h h' Hs0 Hst) as ((_ & HR') & HQ' & Hdis).
  assert (Hsep' : separate h' D sources).
  { intros s l Hs Hrs Hrd. apply (Hdis l).
    - apply (reach_closed Q h' (VRef s) l HQ'); [|done].
      intros x ->%list_elem_of_singleton. exists s. split; [done|].
      apply reach_val. simpl. left.
    - apply (reach_closed R h' (VRef D) l HR'); [|done].
      intros x ->%list_elem_of_singleton. left. apply reach_val. simpl. left. }
  split; [|split; [done|]].
  - intros s l Hs Hl. destruct Hst as [[_ F] _]. apply F, Hdis. by exists s.
  - intros h'' Hh'' l Hl. apply Hh''. intros s Hs Hrs. by eapply Hsep'.
Qed.

Lemma sources_untouched_when_apart_witness :
  let h := heap_two_sources in
  let h' := [ODict None [("a", VInt 1); ("b", VRef 5); ("c", VInt 4)];
             ODict None [("b", VRef 3)];
             ODict None [("b", VRef 4); ("c", VInt 4)];
             OList None [VInt 2]; OList None [VInt 3];
             OList None [VInt 2; VInt 3]; OList None [VInt 3]] in
  merge 5 (Member ADDITIVE) h 0 [1; 2] = Ok (h', 0) ∧
  separate h 0 [1; 2] ∧
  (∀ s l, s ∈ [1; 2] → reach h (VRef s) l → h' !! l = h !! l) ∧
  separate h' 0 [1; 2].
Proof.
  intros h h'. split; [vm_compute; reflexivity|].
  assert (Hsep : separate h 0 [1; 2]).
  { apply (separate_check h 0 [1; 2] [0] [1; 2; 3; 4]); vm_compute; reflexivity. }
  split; [exact Hsep|].
  destruct (sources_untouched_when_apart 5 (Member ADDITIVE) h 0 [1; 2] h')
    as (H1 & H2 & _).
  - apply heap_wf_check. vm_compute. reflexivity.
  - apply allocated_check. vm_compute. reflexivity.
  - exact Hsep.
  - vm_compute. reflexivity.
  - split; [exact H1|exact H2].
Defined.

(** C7 as stated fails when the destination shares an object with a
    source.  With [L = [1]], [D = {"k": L}] and [S = {"k": [2], "z": L}],
    [merge(D, S, strategy=ADDITIVE)] extends [L] in place: the source's
    [S["z"]] has changed from [[1]] to [[1, 2]], and [D["k"]] and [S["z"]]
    are still one object. *)
Lemma shared_list_is_mutated :
  let h := heap_shared_list in
  let h' := [ODict None [("k", VRef 2); ("z", VRef 5)];
             ODict None [("k", VRef 3); ("z", VRef 2)];
             OList None [VInt 1; VInt 2]; OList None [VInt 2];
             OList None [VInt 2]; OList None [VInt 1; VInt 2]] in
  merge 5 (Member ADDITIVE) h 0 [1] = Ok (h', 0) ∧
  reach h (VRef 1) 2 ∧
  h !! 2 = Some (OList None [VInt 1]) ∧
  h' !! 2 = Some (OList None [VInt 1; VInt 2]) ∧
  reach h' (VRef 0) 2 ∧ reach h' (VRef 1) 2.
Proof.
  intros h h'. split; [vm_compute; reflexivity|].
  assert (Hr : ∀ (g : heap) d es, g !! d = Some (ODict None es) →
                 2 ∈ obj_refs (ODict None es) → reach g (VRef d) 2).
  { intros g d es Hd H2. eapply reach_obj; [apply reach_val; simpl; left|done..]. }
  split; [eapply (Hr h 1); [reflexivity|vm_compute; set_solver]|].
  split; [reflexivity|]. split; [reflexivity|].
  split; [eapply (Hr h' 0)|eapply (Hr h' 1)];
    first [reflexivity | vm_compute; set_solver].
Qed.




(** * Further properties of the code *)

(** ** A loop invariant for [_deepmerge]

    [T] relates the heap before a piece of the merge to the heap after it,
    [I h d] is what is known of a destination [d] in [h], and [Ex] is what
    is known of an exception.  If the insertion of a copy and the call of
    the handler respect them, so does the whole merge.  The loop reads
    [src[key]] for keys it has just taken from [src], in the same heap:
    those reads find the key. *)

Section loop.
Context (strategy : strategy_arg).
Context (T : heap → heap → Prop) (I : heap → loc → Prop) (Ex : exn → Prop).
Hypothesis T_refl : ∀ h d, I h d → T h h.
Hypothesis T_trans : ∀ h1 h2 h3, T h1 h2 → T h2 h3 → T h1 h3.
Hypothesis I_step : ∀ h h' d, I h d → T h h' → I h' d.
Hypothesis I_item : ∀ h dst key d, I h dst → getitem h dst key = Ok (VRef d) → I h d.
Hypothesis Ex_size : Ex DictChangedSize.
Hypothesis H_insert : ∀ fuel h dst key sv, I h dst →
  wlp ('(h1, c) ← deepcopy fuel h sv; setitem h1 dst key c)
      (T h) (fun e h' => T h h' ∧ Ex e).
Hypothesis H_call : ∀ fuel h dst src key dv sv, I h dst →
  getitem h dst key = Ok dv → getitem h src key = Ok sv →
  is_mapping h dv && is_mapping h sv = false →
  wlp (call (handle_merge_get strategy) fuel h dst src key)
      (T h) (fun e h' => T h h' ∧ Ex e).

Lemma merge_key_loop rec fuel h dst src key sv :
  I h dst → getitem h src key = Ok sv →
  (∀ d s, I h d → wlp (rec h d s) (fun r => T h r.1) (fun e h' => T h h' ∧ Ex e)) →
  wlp (merge_key rec strategy fuel dst src key h) (T h) (fun e h' => T h h' ∧ Ex e).
Proof.
  intros Hd Gs Hrec. unfold merge_key, select_branch.
  pose proof (get_dict_no_raise h dst) as Nd.
  destruct (get_dict h dst) as [[dc des]|e h0| |] eqn:Ed; simpl;
    [|by destruct (Nd e h0)|done..].
  apply get_dict_inv in Ed.
  destruct (dict_get key des) as [dv|] eqn:Ek; simpl.
  - rewrite Gs. simpl.
    pose proof (getitem_intro _ _ _ _ _ _ Ed Ek) as Gd.
    assert (Hcmp : ∀ k : branch → outcome heap,
      k Equal = Ok h →
      k Conflict = call (handle_merge_get strategy) fuel h dst src key →
      is_mapping h dv && is_mapping h sv = false →
      wlp ((py_eq fuel h dv sv ≫= fun b => Ok (if b : bool then Equal else Conflict))
           ≫= k)
          (T h) (fun e h' => T h h' ∧ Ex e)).
    { intros k HE HC Hm. pose proof (py_eq_no_raise fuel h dv sv) as Ne.
      destruct (py_eq fuel h dv sv) as [[]|e h0| |]; simpl;
        [rewrite HE; by eapply T_refl|rewrite HC|by destruct (Ne e h0)|done..].
      by eapply H_call. }
    unfold is_mapping in Hcmp.
    destruct (mapping_loc h dv) as [d|] eqn:Emd; [|by apply Hcmp].
    destruct (mapping_loc h sv) as [s|] eqn:Ems; [|by apply Hcmp].
    simpl. apply wlp_bind.
    apply mapping_loc_inv in Emd as ->.
    eapply wlp_mono; [apply (Hrec d s); by eapply I_item| |done]. by intros [h1 r].
  - rewrite Gs. simpl. by apply H_insert.
Qed.

Lemma for_keys_loop body src used h0 :
  (∀ key h sv, T h0 h → getitem h src key = Ok sv →
     wlp (body key h) (T h) (fun e h' => T h h' ∧ Ex e)) →
  ∀ steps pos h, T h0 h →
    wlp (for_keys body src used pos steps h) (T h0) (fun e h' => T h0 h' ∧ Ex e).
Proof.
  intros Hbody. induction steps as [|steps IH]; intros pos h Hst; simpl;
    pose proof (get_dict_no_raise h src) as Ns;
    (destruct (get_dict h src) as [[c es]|e h1| |] eqn:Es; simpl;
      [|by destruct (Ns e h1)|done..]);
    (destruct (negb (length es =? used)); [done|]); [done|].
  destruct (es !! pos) as [[key v]|] eqn:Ep; [|done].
  destruct (dict_get_lookup _ _ _ _ Ep) as [sv Hsv].
  apply get_dict_inv in Es.
  apply wlp_bind. eapply wlp_mono.
  - apply (Hbody key h sv); [done|]. by eapply getitem_intro.
  - intros h1 Hst1. simpl. apply IH. by eapply T_trans.
  - intros e h' [Hst1 He]. split; [by eapply T_trans|done].
Qed.

Lemma deepmerge_loop fuel :
  ∀ h dst src, I h dst →
    wlp (_deepmerge fuel strategy h dst src) (fun r => T h r.1 ∧ r.2 = dst)
        (fun e h' => T h h' ∧ Ex e).
Proof.
  induction fuel as [|fuel IH]; intros h dst src Hd; simpl; [done|].
  pose proof (get_dict_no_raise h src) as Ns.
  destruct (get_dict h src) as [[c es]|e h0| |] eqn:Es; simpl;
    [|by destruct (Ns e h0)|done..].
  apply wlp_bind. eapply wlp_mono.
  - apply (for_keys_loop _ src (length es) h); [|by eapply T_refl].
    intros key h1 sv Hst Gs. apply (merge_key_loop _ _ _ _ _ _ sv); [by eapply I_step|done|].
    intros d s Hd'. eapply wlp_mono; [by apply IH| |done]. by intros r [? _].
  - by intros h1 Hst.
  - done.
Qed.

Lemma reduce_loop fuel dst :
  ∀ sources h, I h dst →
    wlp (reduce (_deepmerge fuel strategy) sources h dst)
        (fun r => T h r.1 ∧ r.2 = dst) (fun e h' => T h h' ∧ Ex e).
Proof.
  induction sources as [|s ss IH]; intros h Hd; simpl.
  - split; [by eapply T_refl|done].
  - apply wlp_bind. eapply wlp_mono.
    + by apply deepmerge_loop.
    + intros [h1 r] [Hst Er]. simpl in *. subst r. eapply wlp_mono.
      * apply IH. by eapply I_step.
      * intros [h2 r2] [Hst2 Er]. simpl in *. split; [by eapply T_trans|done].
      * intros e h' [Hst2 He]. split; [by eapply T_trans|done].
    + done.
Qed.

End loop.

(** ** Nothing is removed *)

Lemma obj_grows_refl o : obj_grows o o.
Proof. by destruct o. Qed.

Lemma obj_grows_trans o1 o2 o3 : obj_grows o1 o2 → obj_grows o2 o3 → obj_grows o1 o3.
Proof.
  destruct o1, o2, o3; simpl; try done;
    intros [-> H1] [-> H2]; (split; [done|by etrans]).
Qed.

Lemma heap_grows_refl h : heap_grows h h.
Proof. intros l o Ho. exists o. split; [done|apply obj_grows_refl]. Qed.

Lemma heap_grows_trans h1 h2 h3 : heap_grows h1 h2 → heap_grows h2 h3 → heap_grows h1 h3.
Proof.
  intros H1 H2 l o Ho. destruct (H1 l o Ho) as (o2 & Ho2 & G1).
  destruct (H2 l o2 Ho2) as (o3 & Ho3 & G2). exists o3.
  split; [done|by eapply obj_grows_trans].
Qed.

Lemma heap_ext_grows h h' : heap_ext h h' → heap_grows h h'.
Proof.
  intros [_ He] l o Ho. exists o. split; [|apply obj_grows_refl].
  rewrite He; [done|]. by eapply lookup_lt_Some.
Qed.

Lemma heap_grows_insert (h : heap) l o o' :
  h !! l = Some o → obj_grows o o' → heap_grows h (<[l := o']> h).
Proof.
  intros Ho Hg l2 o2 Ho2. destruct (decide (l2 = l)) as [->|Hne].
  - exists o'. rewrite list_lookup_insert_eq by (by eapply lookup_lt_Some).
    split; [done|]. congruence.
  - exists o2. rewrite list_lookup_insert_ne by done. split; [done|apply obj_grows_refl].
Qed.

Lemma dict_set_keys key v es : es.*1 `prefix_of` (dict_set key v es).*1.
Proof.
  induction es as [|[k v0] es IH]; simpl; [apply prefix_nil|].
  destruct (String.eqb key k); simpl; [done|]. by apply prefix_cons.
Qed.

Lemma setitem_grows h d key v h' : setitem h d key v = Ok h' → heap_grows h h'.
Proof.
  unfold setitem, get_dict. destruct (h !! d) as [[c es| |]|] eqn:E; simpl; try done.
  intros [= <-]. eapply heap_grows_insert; [done|]. split; [done|apply dict_set_keys].
Qed.

Lemma set_add_all_prefix eq ys : ∀ xs zs,
  set_add_all eq xs ys = Ok zs → xs `prefix_of` zs.
Proof.
  induction ys as [|y ys IH]; intros xs zs; simpl.
  - by intros [= <-].
  - intros H. inv_bind H. apply IH in H. destruct a; [done|].
    etrans; [|done]. by apply prefix_app_r.
Qed.

Lemma deepcopy_grows fuel h v h1 c : deepcopy fuel h v = Ok (h1, c) → heap_grows h h1.
Proof. intros (He & _)%deepcopy_post. by apply heap_ext_grows. Qed.

Lemma list_extend_grows h dv c h' : list_extend h dv c = Ok h' → heap_grows h h'.
Proof.
  unfold list_extend. destruct dv as [| | | | | |ld], c as [| | | | | |lc]; try done.
  destruct (h !! ld) as [[|s xs|]|] eqn:Eld; try done.
  destruct (h !! lc) as [[|s' ys|]|]; try done.
  intros [= <-]. eapply heap_grows_insert; [done|]. split; [done|by apply prefix_app_r].
Qed.

Lemma set_update_grows fuel h dv c h' : set_update fuel h dv c = Ok h' → heap_grows h h'.
Proof.
  unfold set_update. destruct dv as [| | | | | |ld], c as [| | | | | |lc]; try done.
  destruct (h !! ld) as [[| |s xs]|] eqn:Eld; try done.
  destruct (h !! lc) as [[| |s' ys]|]; try done.
  intros H. inv_bind H. injection H as <-.
  eapply heap_grows_insert; [done|]. split; [done|by eapply set_add_all_prefix].
Qed.

Lemma list_extend_no_raise h dv c : no_raise (list_extend h dv c).
Proof.
  intros e h'. unfold list_extend. destruct dv, c; try done.
  by destruct (h !! l) as [[]|], (h !! l0) as [[]|].
Qed.

Lemma set_update_no_raise fuel h dv c : no_raise (set_update fuel h dv c).
Proof.
  unfold set_update. destruct dv, c; try done.
  destruct (h !! l) as [[| |s xs]|], (h !! l0) as [[| |s' ys]|]; try done.
  apply no_raise_bind; [|done].
  apply set_add_all_no_raise. intros a b.
  apply item_eq_no_raise. intros. apply py_eq_no_raise.
Qed.

Lemma insert_copy_grows fuel h dst key sv E :
  wlp ('(h1, c) ← deepcopy fuel h sv; setitem h1 dst key c) (heap_grows h) E.
Proof.
  apply wlp_no_raise.
  { apply no_raise_bind; [apply deepcopy_no_raise|]. intros [h1 c]. apply setitem_no_raise. }
  intros h' H. inv_bind H. destruct a as [h1 c].
  eapply heap_grows_trans; [by eapply deepcopy_grows|by eapply setitem_grows].
Qed.

Lemma replace_grows fuel h dst src key sv E :
  getitem h src key = Ok sv →
  wlp (_handle_merge_replace fuel h dst src key) (heap_grows h) E.
Proof.
  intros Gs. unfold _handle_merge_replace. rewrite Gs. simpl. apply insert_copy_grows.
Qed.

Lemma additive_grows fuel h dst src key dv sv E :
  getitem h dst key = Ok dv → getitem h src key = Ok sv →
  wlp (_handle_merge_additive fuel h dst src key) (heap_grows h) E.
Proof.
  intros Gd Gs. unfold _handle_merge_additive. rewrite Gd, Gs. simpl.
  destruct (is_list h dv && is_list h sv);
    [|destruct (is_set h dv && is_set h sv);
      [|destruct (is_tuple dv && is_tuple sv); [|by eapply replace_grows]]].
  - apply wlp_no_raise.
    { apply no_raise_bind; [apply deepcopy_no_raise|]. intros [h1 c].
      apply list_extend_no_raise. }
    intros h' H. inv_bind H. destruct a as [h1 c].
    eapply heap_grows_trans; [by eapply deepcopy_grows|by eapply list_extend_grows].
  - apply wlp_no_raise.
    { apply no_raise_bind; [apply deepcopy_no_raise|]. intros [h1 c].
      apply set_update_no_raise. }
    intros h' H. inv_bind H. destruct a as [h1 c].
    eapply heap_grows_trans; [by eapply deepcopy_grows|by eapply set_update_grows].
  - apply wlp_no_raise.
    { apply no_raise_bind; [apply deepcopy_no_raise|]. intros [h1 c].
      apply no_raise_bind; [by destruct dv, c|]. intros t. apply setitem_no_raise. }
    intros h' H. inv_bind H. destruct a as [h1 c]. inv_bind H.
    eapply heap_grows_trans; [by eapply deepcopy_grows|by eapply setitem_grows].
Qed.

Lemma wlp_typesafe inner fuel h dst src key dv sv (Q : heap → Prop) (E : exn → heap → Prop) :
  getitem h dst key = Ok dv → getitem h src key = Ok sv →
  (∀ td ts, E (TypeMismatch td ts key) h) →
  wlp (inner fuel h dst src key) Q E →
  wlp (_handle_merge_typesafe inner fuel h dst src key) Q E.
Proof.
  intros Gd Gs HE Hinner. unfold _handle_merge_typesafe. rewrite Gd, Gs. simpl.
  pose proof (type_of_no_raise h dv) as Nd. pose proof (type_of_no_raise h sv) as Ns.
  destruct (type_of h dv) as [td|e h0| |]; simpl; [|by destruct (Nd e h0)|done..].
  destruct (type_of h sv) as [ts|e h0| |]; simpl; [|by destruct (Ns e h0)|done..].
  destruct (decide (td = ts)); [done|]. apply HE.
Qed.

Lemma call_grows strategy fuel h dst src key dv sv :
  getitem h dst key = Ok dv → getitem h src key = Ok sv →
  wlp (call (handle_merge_get strategy) fuel h dst src key)
      (heap_grows h) (fun e h' => heap_grows h h' ∧ expected strategy e).
Proof.
  intros Gd Gs. destruct strategy as [s|repr]; simpl.
  - destruct s; simpl;
      try (eapply wlp_typesafe; [done..| |];
           [intros; split; [apply heap_grows_refl|by left]|]);
      first [by eapply replace_grows | by eapply additive_grows].
  - split; [apply heap_grows_refl|by left].
Qed.

Lemma reduce_grows strategy fuel sources h D :
  wlp (reduce (_deepmerge fuel strategy) sources h D)
      (fun r => heap_grows h r.1 ∧ r.2 = D)
      (fun e h' => heap_grows h h' ∧ expected strategy e).
Proof.
  apply (reduce_loop strategy heap_grows (fun _ _ => True) (expected strategy));
    try done.
  - intros. apply heap_grows_refl.
  - apply heap_grows_trans.
  - by right.
  - intros. apply insert_copy_grows.
  - intros fuel' h0 dst src key dv sv _ Gd Gs _. by eapply call_grows.
Qed.

Lemma heap_grows_keys h h' d : heap_grows h h' → dict_keys h d `prefix_of` dict_keys h' d.
Proof.
  intros Hg. unfold dict_keys. destruct (h !! d) as [o|] eqn:Ho; [|apply prefix_nil].
  destruct (Hg d o Ho) as (o' & -> & Ho'). destruct o, o'; try done; try apply prefix_nil.
  by destruct Ho'.
Qed.

(** A merge that returns or raises has removed nothing: every object is
    still there and has its class; every dictionary, the destination among
    them, has kept all its keys, in their order and before the new ones; no
    list and no set has lost an item. *)
Theorem merge_removes_nothing fuel strategy h D sources h' :
  ends_in (merge fuel strategy h D sources) h' →
  heap_grows h h' ∧ dict_keys h D `prefix_of` dict_keys h' D.
Proof.
  intros He. assert (heap_grows h h') as Hg.
  { apply (ends_in_wlp (merge fuel strategy h D sources) (heap_grows h)
             (fun e _ => expected strategy e)); [|done].
    eapply wlp_mono; [apply reduce_grows|by intros r [? _]|done]. }
  split; [done|by apply heap_grows_keys].
Qed.

Lemma merge_removes_nothing_witness :
  let h' := [ODict None [("items", VRef 2)]; ODict None [("items", VRef 3)];
             OList None [VInt 1; VInt 2; VInt 3; VInt 4]; OList None [VInt 3; VInt 4];
             OList None [VInt 3; VInt 4]] in
  ends_in (merge 5 (Member ADDITIVE) heap_lists 0 [1]) h' ∧
  heap_grows heap_lists h' ∧ dict_keys heap_lists 0 `prefix_of` dict_keys h' 0.
Proof.
  intros h'. assert (ends_in (merge 5 (Member ADDITIVE) heap_lists 0 [1]) h') as He
    by (vm_compute; reflexivity).
  split; [exact He|]. exact (merge_removes_nothing 5 (Member ADDITIVE) heap_lists 0 [1] h' He).
Defined.

(** Whatever the input, shared or not, a merge raises nothing but the type
    mismatch (under a type-safe strategy), the failed call of the default
    (for a strategy that is not a member), and the error of the iterator
    over a dictionary that has changed size.  In particular it never raises
    [KeyError]: it reads [dst[key]] and [src[key]] only for keys it has just
    found there. *)
Theorem merge_raises_no_key_error fuel strategy h D sources e h' :
  merge fuel strategy h D sources = Raise e h' →
  expected strategy e ∧ ∀ key, e ≠ KeyError key.
Proof.
  intros Hr. pose proof (reduce_grows strategy fuel sources h D) as H.
  unfold merge in Hr. rewrite Hr in H. destruct H as [_ He].
  split; [done|]. intros key ->. destruct He as [He|He]; [|done].
  by destruct strategy.
Qed.

Lemma merge_raises_no_key_error_witness :
  merge 5 (Member REPLACE) heap_nested_alias 0 [1] =
    Raise DictChangedSize
      [ODict None [("a", VRef 1)]; ODict None [("a", VRef 2); ("q", VInt 1)];
       ODict None [("q", VInt 1)]] ∧
  expected (Member REPLACE) DictChangedSize ∧ ∀ key, DictChangedSize ≠ KeyError key.
Proof.
  assert (merge 5 (Member REPLACE) heap_nested_alias 0 [1] =
    Raise DictChangedSize
      [ODict None [("a", VRef 1)]; ODict None [("a", VRef 2); ("q", VInt 1)];
       ODict None [("q", VInt 1)]]) as Hr by (vm_compute; reflexivity).
  split; [exact Hr|]. exact (merge_raises_no_key_error _ _ _ _ _ _ _ Hr).
Defined.

(** ** A merge writes only what the destination reaches *)

Lemma insert_copy_step (R : loc → Prop) fuel h dst key sv E :
  region R h → R dst →
  wlp ('(h1, c) ← deepcopy fuel h sv; setitem h1 dst key c) (step R h) E.
Proof.
  intros HR Hd. apply wlp_no_raise.
  { apply no_raise_bind; [apply deepcopy_no_raise|]. intros [h1 c]. apply setitem_no_raise. }
  intros h' H. inv_bind H. destruct a as [h1 c].
  destruct (step_deepcopy R _ _ _ _ _ HR Ha) as [Hs Hc].
  eapply step_trans; [done|]. eapply step_setitem; [apply Hs|done..].
Qed.

Lemma reduce_step (R : loc → Prop) strategy fuel sources h D :
  region R h → R D →
  wlp (reduce (_deepmerge fuel strategy) sources h D)
      (fun r => step R h r.1 ∧ r.2 = D) (fun e h' => step R h h' ∧ True).
Proof.
  intros HR HD.
  apply (reduce_loop strategy (step R) (fun h d => region R h ∧ R d) (fun _ => True)).
  - intros h0 d [? _]. by apply step_refl.
  - apply step_trans.
  - intros h0 h1 d [_ ?] [_ ?]. done.
  - intros h0 dst key d [HR0 Hdst] G. split; [done|]. destruct HR0 as [_ Hc].
    eapply getitem_region; [done..|]. simpl. left.
  - done.
  - intros fuel' h0 dst key sv [? ?]. by apply insert_copy_step.
  - intros fuel' h0 dst src key dv sv [? ?] Gd Gs _. destruct strategy as [s|repr]; simpl.
    + eapply wlp_mono; [by eapply step_handler|done|]. by intros e h1 [? _].
    + split; [by apply step_refl|done].
  - done.
Qed.

(** A merge that returns or raises has changed no object but those the
    destination reached when the merge began; every other object that
    existed then is as it was.  (What it creates is new.) *)
Theorem merge_writes_only_destination fuel strategy h D sources h' :
  ends_in (merge fuel strategy h D sources) h' →
  ∀ l, l < length h → ¬ reach h (VRef D) l → h' !! l = h !! l.
Proof.
  intros He l Hl Hr.
  set (R := fun l => reach h (VRef D) l ∨ length h ≤ l).
  assert (step R h h') as [[_ F] _].
  { apply (ends_in_wlp (merge fuel strategy h D sources) (step R h) (fun _ _ => True));
      [|done].
    eapply wlp_mono; [apply (reduce_step R)| |done].
    - split; [by right|]. intros l1 o l2 [H1|H1] Ho Hl2.
      + left. by eapply reach_obj.
      + apply lookup_lt_Some in Ho. lia.
    - left. apply reach_val. simpl. left.
    - by intros r [? _]. }
  apply F. intros [?|?]; [done|lia].
Qed.

Lemma merge_writes_only_destination_witness :
  let h' := [ODict None [("k", VRef 2); ("z", VRef 5)];
             ODict None [("k", VRef 3); ("z", VRef 2)];
             OList None [VInt 1; VInt 2]; OList None [VInt 2]; OList None [VInt 2];
             OList None [VInt 1; VInt 2]] in
  ends_in (merge 5 (Member ADDITIVE) heap_shared_list 0 [1]) h' ∧
  h' !! 1 = heap_shared_list !! 1 ∧ h' !! 3 = heap_shared_list !! 3.
Proof.
  intros h'. assert (ends_in (merge 5 (Member ADDITIVE) heap_shared_list 0 [1]) h') as He
    by (vm_compute; reflexivity).
  assert (closed (.∈ [0; 2]) heap_shared_list) as Hc
    by (apply closedb_sound; vm_compute; reflexivity).
  assert (∀ l, reach heap_shared_list (VRef 0) l → l ∈ [0; 2]) as Hr.
  { intros l. apply (reach_closed (.∈ [0; 2]) _ _ l Hc).
    intros x ->%list_elem_of_singleton. left. }
  split; [exact He|]. split.
  - apply (merge_writes_only_destination 5 (Member ADDITIVE) heap_shared_list 0 [1] h' He);
      [simpl; lia|]. intros H%Hr. revert H.
    apply (bool_decide_eq_false_1 (1 ∈ [0; 2])). vm_compute. reflexivity.
  - apply (merge_writes_only_destination 5 (Member ADDITIVE) heap_shared_list 0 [1] h' He);
      [simpl; lia|]. intros H%Hr. revert H.
    apply (bool_decide_eq_false_1 (3 ∈ [0; 2])). vm_compute. reflexivity.
Defined.

(** ** The destination receives every key of a source *)

Lemma deepmerge_grows strategy fuel h dst src :
  wlp (_deepmerge fuel strategy h dst src) (fun r => heap_grows h r.1 ∧ r.2 = dst)
      (fun e h' => heap_grows h h' ∧ expected strategy e).
Proof.
  apply (deepmerge_loop strategy heap_grows (fun _ _ => True) (expected strategy));
    try done.
  - intros. apply heap_grows_refl.
  - apply heap_grows_trans.
  - by right.
  - intros. apply insert_copy_grows.
  - intros fuel' h0 d s key dv sv _ Gd Gs _. by eapply call_grows.
Qed.

Lemma merge_key_grows strategy fuel f dst src key h sv :
  getitem h src key = Ok sv →
  wlp (merge_key (_deepmerge f strategy) strategy fuel dst src key h) (heap_grows h)
      (fun e h' => heap_grows h h' ∧ expected strategy e).
Proof.
  intros Gs.
  apply (merge_key_loop strategy heap_grows (fun _ _ => True) (expected strategy)) with sv;
    try done.
  - intros. apply heap_grows_refl.
  - intros. apply insert_copy_grows.
  - intros fuel' h0 d s key' dv sv' _ Gd Gs' _. by eapply call_grows.
  - intros d s _. eapply wlp_mono; [apply deepmerge_grows| |done]. by intros r [? _].
Qed.

Lemma dict_keys_lookup h d c es : h !! d = Some (ODict c es) → dict_keys h d = es.*1.
Proof. intros H. unfold dict_keys. by rewrite H. Qed.

Lemma merge_key_adds_key rec strategy fuel dst src key h h2 :
  merge_key rec strategy fuel dst src key h = Ok h2 → heap_grows h h2 →
  key ∈ dict_keys h2 dst.
Proof.
  unfold merge_key, select_branch. intros H Hg. inv_bind H. inv_bind Ha.
  destruct a0 as [dc des]. apply get_dict_inv in Ha0.
  destruct (dict_get key des) as [dv|] eqn:Ek.
  - eapply elem_of_prefix; [|by apply heap_grows_keys].
    rewrite (dict_keys_lookup _ _ _ _ Ha0). apply dict_get_is_Some. eauto.
  - injection Ha as <-. inv_bind H. inv_bind H. destruct a0 as [h1 c].
    unfold setitem in H. inv_bind H. destruct a0 as [c1 es1].
    apply get_dict_inv in Ha2. injection H as <-.
    erewrite dict_keys_lookup;
      [|apply list_lookup_insert_eq; by eapply lookup_lt_Some].
    apply dict_get_is_Some. rewrite dict_get_set_eq. eauto.
Qed.

Lemma for_keys_takes_keys strategy f dst src h ks :
  dict_keys h src = ks →
  ∀ steps pos h1 h',
    heap_grows h h1 → length ks ≤ pos + steps →
    (∀ i key, i < pos → ks !! i = Some key → key ∈ dict_keys h1 dst) →
    for_keys (merge_key (_deepmerge f strategy) strategy f dst src) src
             (length ks) pos steps h1 = Ok h' →
    ∀ key, key ∈ ks → key ∈ dict_keys h' dst.
Proof.
  intros Hks.
  assert (Hend : ∀ pos h1, length ks ≤ pos →
            (∀ i key, i < pos → ks !! i = Some key → key ∈ dict_keys h1 dst) →
            ∀ key, key ∈ ks → key ∈ dict_keys h1 dst).
  { intros pos h1 Hlen Hdone key [i Hi]%list_elem_of_lookup.
    apply (Hdone i); [|done]. apply lookup_lt_Some in Hi. lia. }
  induction steps as [|steps IH]; intros pos h1 h' Hg Hlen Hdone; simpl; intros H;
    inv_bind H; destruct a as [c1 es1]; apply get_dict_inv in Ha;
    destruct (length es1 =? length ks) eqn:El; simpl in H; try done;
    apply Nat.eqb_eq in El.
  - injection H as <-. apply (Hend pos); [lia|done].
  - destruct (es1 !! pos) as [[key0 v]|] eqn:Ep.
    + assert (ks = es1.*1) as Hk.
      { apply prefix_length_eq; [|rewrite length_fmap; lia].
        rewrite <- Hks, <- (dict_keys_lookup h1 src c1 es1 Ha). by apply heap_grows_keys. }
      inv_bind H.
      destruct (dict_get_lookup _ _ _ _ Ep) as [sv Hsv].
      assert (heap_grows h1 a) as Hg1.
      { pose proof (merge_key_grows strategy f f dst src key0 h1 sv
                      (getitem_intro _ _ _ _ _ _ Ha Hsv)) as Hw.
        by rewrite Ha0 in Hw. }
      apply (IH (S pos) a h'); [by eapply heap_grows_trans|lia| |done].
      intros i key Hi Hkey. destruct (decide (i = pos)) as [->|Hne].
      * rewrite Hk, list_lookup_fmap, Ep in Hkey. injection Hkey as <-.
        by eapply merge_key_adds_key.
      * eapply elem_of_prefix; [|by apply heap_grows_keys].
        apply (Hdone i); [lia|done].
    + injection H as <-. apply (Hend pos); [|done].
      apply lookup_ge_None in Ep. lia.
Qed.

Lemma deepmerge_takes_keys fuel strategy h dst src h' r :
  _deepmerge fuel strategy h dst src = Ok (h', r) →
  ∀ key, key ∈ dict_keys h src → key ∈ dict_keys h' dst.
Proof.
  destruct fuel as [|fuel]; simpl; [done|]. intros H. inv_bind H.
  destruct a as [c es]. apply get_dict_inv in Ha. inv_bind H. injection H as <- _.
  pose proof (dict_keys_lookup _ _ _ _ Ha) as Hks.
  replace (length es) with (length (dict_keys h src)) in Ha0
    by (by rewrite Hks, length_fmap).
  apply (for_keys_takes_keys strategy fuel dst src h (dict_keys h src) eq_refl
           (length (dict_keys h src)) 0 h a);
    [apply heap_grows_refl|lia| |done].
  intros i key Hi. lia.
Qed.

Lemma reduce_takes_keys fuel strategy D :
  ∀ sources h h' r,
    reduce (_deepmerge fuel strategy) sources h D = Ok (h', r) →
    ∀ s key, s ∈ sources → key ∈ dict_keys h s → key ∈ dict_keys h' D.
Proof.
  induction sources as [|s0 ss IH]; intros h h' r; simpl.
  - by intros _ s key ?%elem_of_nil.
  - intros H. inv_bind H. destruct a as [h1 r1].
    pose proof (deepmerge_returns_dst _ _ _ _ _ _ _ Ha) as ->.
    assert (heap_grows h h1) as Hg1.
    { pose proof (deepmerge_grows strategy fuel h D s0) as Hw. rewrite Ha in Hw.
      by destruct Hw. }
    assert (heap_grows h1 h') as Hg2.
    { pose proof (reduce_grows strategy fuel ss h1 D) as Hw. rewrite H in Hw.
      by destruct Hw. }
    intros s key [->|Hs]%elem_of_cons Hkey.
    + eapply elem_of_prefix; [|by apply heap_grows_keys].
      by eapply deepmerge_takes_keys.
    + apply (IH h1 h' r H s key Hs).
      eapply elem_of_prefix; [done|by apply heap_grows_keys].
Qed.

(** When a merge returns, the destination has every key that a source had
    when the merge began. *)
Theorem merge_takes_every_key fuel strategy h D sources h' r :
  merge fuel strategy h D sources = Ok (h', r) →
  ∀ s key, s ∈ sources → key ∈ dict_keys h s → key ∈ dict_keys h' D.
Proof. apply reduce_takes_keys. Qed.

Lemma merge_takes_every_key_witness :
  let h' := [ODict None [("a", VInt 1); ("b", VRef 6); ("c", VInt 4)];
             ODict None [("b", VRef 3)];
             ODict None [("b", VRef 4); ("c", VInt 4)];
             OList None [VInt 2]; OList None [VInt 3];
             OList None [VInt 2]; OList None [VInt 3]] in
  merge 5 (Member REPLACE) heap_two_sources 0 [1; 2] = Ok (h', 0) ∧
  "b" ∈ dict_keys h' 0 ∧ "c" ∈ dict_keys h' 0.
Proof.
  intros h'.
  assert (merge 5 (Member REPLACE) heap_two_sources 0 [1; 2] = Ok (h', 0)) as Hm
    by (vm_compute; reflexivity).
  split; [exact Hm|]. split.
  - apply (merge_takes_every_key _ _ _ _ _ _ _ Hm 1 "b"); [left|vm_compute; left].
  - apply (merge_takes_every_key _ _ _ _ _ _ _ Hm 2 "c");
      [right; left|vm_compute; right; left].
Defined.

(** ** The type-safe strategies add a check and nothing else *)

Lemma refines_refl {A} (m : outcome A) : refines m m.
Proof. destruct m; simpl; auto. Qed.

Lemma refines_bind {A B} (m1 m2 : outcome A) (f1 f2 : A → outcome B) :
  refines m1 m2 → (∀ a, refines (f1 a) (f2 a)) → refines (m1 ≫= f1) (m2 ≫= f2).
Proof.
  intros Hm Hf. destruct m1 as [a|e h| |]; simpl in *; try done.
  - rewrite Hm. simpl. apply Hf.
  - destruct Hm as [? | ->]; auto.
Qed.

Lemma select_branch_conflict_inv fuel h dst src key :
  select_branch fuel h dst src key = Ok Conflict →
  ∃ dv sv, getitem h dst key = Ok dv ∧ getitem h src key = Ok sv.
Proof.
  unfold select_branch. intros H. inv_bind H. destruct a as [dc des].
  apply get_dict_inv in Ha.
  destruct (dict_get key des) as [dv|] eqn:Ek; [|done].
  inv_bind H. exists dv, a. split; [by eapply getitem_intro|done].
Qed.

Lemma handle_merge_refines s fuel h dst src key dv sv :
  getitem h dst key = Ok dv → getitem h src key = Ok sv →
  refines (_handle_merge s fuel h dst src key)
          (_handle_merge (delegate s) fuel h dst src key).
Proof.
  intros Gd Gs.
  assert (Hts : ∀ inner : handler,
            refines (_handle_merge_typesafe inner fuel h dst src key)
                    (inner fuel h dst src key)).
  { intros inner. unfold _handle_merge_typesafe. rewrite Gd, Gs. simpl.
    pose proof (type_of_no_raise h dv) as Nd. pose proof (type_of_no_raise h sv) as Ns.
    destruct (type_of h dv) as [td|e h0| |]; simpl; [|by destruct (Nd e h0)|done..].
    destruct (type_of h sv) as [ts|e h0| |]; simpl; [|by destruct (Ns e h0)|done..].
    destruct (decide (td = ts)); [apply refines_refl|]. simpl. by left. }
  destruct s; simpl; first [apply refines_refl | apply Hts].
Qed.

Lemma merge_key_refines rec1 rec2 s fuel dst src key h :
  (∀ d s', refines (rec1 h d s') (rec2 h d s')) →
  refines (merge_key rec1 (Member s) fuel dst src key h)
          (merge_key rec2 (Member (delegate s)) fuel dst src key h).
Proof.
  intros Hrec. unfold merge_key.
  destruct (select_branch fuel h dst src key) as [b|e h0| |] eqn:Eb; simpl; auto.
  destruct b as [d s'| | |]; simpl.
  - apply refines_bind; [apply Hrec|]. intros [h1 r]. apply refines_refl.
  - done.
  - destruct (select_branch_conflict_inv _ _ _ _ _ Eb) as (dv & sv & Gd & Gs).
    by eapply handle_merge_refines.
  - apply refines_refl.
Qed.

Lemma for_keys_refines body1 body2 src used :
  (∀ key h, refines (body1 key h) (body2 key h)) →
  ∀ steps pos h,
    refines (for_keys body1 src used pos steps h) (for_keys body2 src used pos steps h).
Proof.
  intros Hb. induction steps as [|steps IH]; intros pos h; simpl; [apply refines_refl|].
  destruct (get_dict h src) as [[c es]|e h0| |]; simpl; auto.
  destruct (negb (length es =? used)); simpl; [auto|].
  destruct (es !! pos) as [[key v]|]; [|done].
  apply refines_bind; [apply Hb|]. intros h1. apply IH.
Qed.

Lemma deepmerge_refines s fuel :
  ∀ h dst src,
    refines (_deepmerge fuel (Member s) h dst src)
            (_deepmerge fuel (Member (delegate s)) h dst src).
Proof.
  induction fuel as [|fuel IH]; intros h dst src; simpl; [done|].
  destruct (get_dict h src) as [[c es]|e h0| |]; simpl; auto.
  apply refines_bind; [|intros h1; done].
  apply for_keys_refines. intros key h1. by apply merge_key_refines.
Qed.

Lemma reduce_refines f g sources :
  (∀ h d s, refines (f h d s) (g h d s)) →
  ∀ h acc, refines (reduce f sources h acc) (reduce g sources h acc).
Proof.
  intros Hfg. induction sources as [|s ss IH]; intros h acc; simpl; [done|].
  apply refines_bind; [apply Hfg|]. intros [h1 acc1]. apply IH.
Qed.

(** A merge under a type-safe strategy that returns has done exactly what
    the merge under the strategy it wraps does (REPLACE for TYPESAFE and
    TYPESAFE_REPLACE, ADDITIVE for TYPESAFE_ADDITIVE); and if it raises
    anything but the type mismatch, so does the other, with the same heap. *)
Theorem typesafe_adds_only_the_check s fuel h D sources :
  (∀ r, merge fuel (Member s) h D sources = Ok r →
        merge fuel (Member (delegate s)) h D sources = Ok r) ∧
  (∀ e h', merge fuel (Member s) h D sources = Raise e h' →
           is_type_mismatch e ∨
           merge fuel (Member (delegate s)) h D sources = Raise e h').
Proof.
  pose proof (reduce_refines _ _ sources (deepmerge_refines s fuel) h D) as H.
  unfold merge. split.
  - intros r Hr. by rewrite Hr in H.
  - intros e h' Hr. by rewrite Hr in H.
Qed.

Lemma typesafe_adds_only_the_check_witness :
  let r := ([ODict None [("items", VRef 2)]; ODict None [("items", VRef 3)];
             OList None [VInt 1; VInt 2; VInt 3; VInt 4]; OList None [VInt 3; VInt 4];
             OList None [VInt 3; VInt 4]], 0) in
  merge 5 (Member TYPESAFE_ADDITIVE) heap_lists 0 [1] = Ok r ∧
  merge 5 (Member ADDITIVE) heap_lists 0 [1] = Ok r.
Proof.
  intros r.
  assert (merge 5 (Member TYPESAFE_ADDITIVE) heap_lists 0 [1] = Ok r) as Hr
    by (vm_compute; reflexivity).
  split; [exact Hr|].
  exact (proj1 (typesafe_adds_only_the_check TYPESAFE_ADDITIVE 5 heap_lists 0 [1]) r Hr).
Defined.

(** ** Merging a source that equals the destination *)

(** Merging sources that each are the destination itself, or compare equal
    to it, returns the destination and leaves the whole heap as it was,
    under every member of [Strategy].  This is for mappings that unfold to
    finite trees, in a heap whose dictionaries hold each key once, with a
    budget above their height.  (A float that is a NaN is equal to no value,
    itself included: at such a value the handler is reached, and under a
    member of [Strategy] it stores the value that is there.) *)
Theorem merge_of_equal_sources s n fuel f h D sources :
  keys_wf h → n ≤ fuel →
  finite n h (VRef D) = true → mapping_loc h (VRef D) = Some D →
  Forall (fun S => finite n h (VRef S) = true ∧ mapping_loc h (VRef S) = Some S ∧
                   (S = D ∨ py_eq f h (VRef D) (VRef S) = Ok true)) sources →
  merge fuel (Member s) h D sources = Ok (h, D).
Proof.
  intros Hwf Hfuel FD MD Hall. unfold merge.
  induction Hall as [|S ss (Fs & Ms & Hs) _ IH]; simpl; [done|].
  rewrite (deepmerge_equal s n fuel f h D S); try done.
  destruct Hs as [->|Hs]; [|by apply item_eq_of_py_eq].
  unfold item_eq. by rewrite Nat.eqb_refl.
Qed.

Lemma merge_of_equal_sources_witness :
  let h := heap_equal_nested in
  py_eq 5 h (VRef 0) (VRef 1) = Ok true ∧
  merge 5 (Member TYPESAFE_ADDITIVE) h 0 [1; 0; 1] = Ok (h, 0).
Proof.
  intros h. split; [vm_compute; reflexivity|].
  apply (merge_of_equal_sources TYPESAFE_ADDITIVE 4 5 5 h 0 [1; 0; 1]);
    [by apply keys_wf_check|lia|vm_compute; reflexivity|vm_compute; reflexivity|].
  repeat constructor; first [vm_compute; reflexivity | by left | right; vm_compute; reflexivity].
Defined.

(** ** A source that shares no key with the destination *)







(** ** The handlers on a missing key *)

(** Called for a key that the source lacks, every handler raises
    [KeyError] and leaves the heap as it was.  Called for a key that only
    the destination lacks, [_handle_merge_replace] inserts a copy of the
    source's value, while the four other handlers raise [KeyError]: they
    read [destination[key]] first. *)
Theorem handlers_on_missing_key fuel h dst src key dc des sc ses :
  h !! dst = Some (ODict dc des) → h !! src = Some (ODict sc ses) →
  (dict_get key ses = None →
   ∀ s, _handle_merge s fuel h dst src key = Raise (KeyError key) h) ∧
  (dict_get key des = None → ∀ sv, dict_get key ses = Some sv →
   _handle_merge REPLACE fuel h dst src key =
     ('(h1, c) ← deepcopy fuel h sv; setitem h1 dst key c) ∧
   ∀ s, s ≠ REPLACE → _handle_merge s fuel h dst src key = Raise (KeyError key) h).
Proof.
  intros Hd Hs.
  assert (Gs : dict_get key ses = None → getitem h src key = Raise (KeyError key) h).
  { intros E. unfold getitem, get_dict. rewrite Hs. simpl. by rewrite E. }
  assert (Gd : dict_get key des = None → getitem h dst key = Raise (KeyError key) h).
  { intros E. unfold getitem, get_dict. rewrite Hd. simpl. by rewrite E. }
  split.
  - intros E s. specialize (Gs E).
    assert (getitem h dst key = Raise (KeyError key) h ∨ ∃ dv, getitem h dst key = Ok dv)
      as [G|[dv G]].
    { destruct (dict_get key des) as [dv|] eqn:Ed; [right|left; auto].
      exists dv. by eapply getitem_intro. }
    + destruct s; simpl; unfold _handle_merge_typesafe, _handle_merge_additive,
        _handle_merge_replace; rewrite ?G, ?Gs; done.
    + destruct s; simpl; unfold _handle_merge_typesafe, _handle_merge_additive,
        _handle_merge_replace; rewrite ?G, ?Gs; done.
  - intros Ed sv Es. specialize (Gd Ed). split.
    + simpl. unfold _handle_merge_replace.
      by rewrite (getitem_intro _ _ _ _ _ _ Hs Es).
    + intros s Hne. destruct s; try done; simpl;
        unfold _handle_merge_typesafe, _handle_merge_additive; by rewrite Gd.
Qed.

Lemma handlers_on_missing_key_witness :
  let h := heap_replace in
  _handle_merge TYPESAFE 5 h 0 1 "b" = Raise (KeyError "b") h ∧
  _handle_merge ADDITIVE 5 h 0 1 "c" = Raise (KeyError "c") h ∧
  _handle_merge REPLACE 5 h 0 1 "c" =
    Ok [ODict None [("a", VInt 1); ("b", VInt 2); ("c", VInt 3)];
        ODict None [("a", VInt 9); ("c", VInt 3)]].
Proof.
  intros h.
  destruct (handlers_on_missing_key 5 h 0 1 "b" None [("a", VInt 1); ("b", VInt 2)]
              None [("a", VInt 9); ("c", VInt 3)] eq_refl eq_refl) as [H1 _].
  destruct (handlers_on_missing_key 5 h 0 1 "c" None [("a", VInt 1); ("b", VInt 2)]
              None [("a", VInt 9); ("c", VInt 3)] eq_refl eq_refl) as [_ H2].
  split; [by apply H1|]. destruct (H2 eq_refl (VInt 3) eq_refl) as [H3 H4].
  split; [by apply H4|]. rewrite H3. vm_compute. reflexivity.
Defined.

(** ** The keys that no source has *)


Lemma wlp_conj {A} (m : outcome A) (Q1 Q2 : A → Prop) (E1 E2 : exn → heap → Prop) :
  wlp m Q1 E1 → wlp m Q2 E2 →
  wlp m (fun a => Q1 a ∧ Q2 a) (fun e h => E1 e h ∧ E2 e h).
Proof. destruct m; simpl; auto. Qed.

Section top.
Context (R : loc → Prop) (D : loc).















End top.




(** ** [==] returns when one side is finite *)

Lemma heap_wf_refs h l o x :
  heap_wf h → h !! l = Some o → x ∈ obj_refs o → x < length h.
Proof.
  intros Hwf Ho Hx. apply list_elem_of_lookup_2 in Ho.
  eapply Forall_forall in Hwf; [|done]. by eapply Forall_forall in Hwf.
Qed.

Lemma heap_wf_valid h l o v :
  heap_wf h → h !! l = Some o → v ∈ obj_vals o → valid h v.
Proof.
  intros Hwf Ho Hv x Hx. eapply heap_wf_refs; [done..|]. apply obj_refs_elem. eauto.
Qed.

Lemma valid_tuple h xs x : valid h (VTuple xs) → x ∈ xs → valid h x.
Proof. intros Hv Hx r Hr. apply Hv, val_refs_tuple. eauto. Qed.

Lemma py_eq_total_one_side n : ∀ fuel h a b,
  heap_wf h → n ≤ fuel → valid h a → valid h b →
  finite n h a = true ∨ finite n h b = true →
  ∃ r, py_eq fuel h a b = Ok r.
Proof.
  induction n as [|n IH]; intros fuel h a b Hwf Hfuel Va Vb Hfin; [by destruct Hfin|].
  destruct fuel as [|fuel]; [lia|]. assert (n ≤ fuel) as Hfuel' by lia.
  assert (Hitem : ∀ x y, valid h x → valid h y →
            finite n h x = true ∨ finite n h y = true →
            ∃ r, item_eq (py_eq fuel h) x y = Ok r).
  { intros x y Vx Vy Hf. apply item_eq_total. by apply IH. }
  assert (Hside : ∀ xs ys x y,
            forallb (finite n h) xs = true ∨ forallb (finite n h) ys = true →
            x ∈ xs → y ∈ ys → finite n h x = true ∨ finite n h y = true).
  { intros xs ys x y [H|H] Hx Hy; [left|right]; by eapply forallb_elem. }
  simpl. unfold eq_step. simpl in Hfin.
  destruct a as [| | | | |xs|la], b as [| | | | |ys|lb]; eauto.
  - apply all2M_total. intros x y Hx Hy.
    apply Hitem; [by apply (valid_tuple h xs)|by apply (valid_tuple h ys)|by eapply Hside].
  - destruct (lookup_lt_is_Some_2 h la) as [oa Hoa]; [apply Va; simpl; left|].
    destruct (lookup_lt_is_Some_2 h lb) as [ob Hob]; [apply Vb; simpl; left|].
    rewrite Hoa, Hob in *.
    destruct oa as [ca xs|ca xs|ca xs], ob as [cb ys|cb ys|cb ys]; eauto;
      simpl in Hfin; destruct (_ =? _); eauto.
    + apply forallM_total. intros [k v] Hkv. simpl.
      destruct (dict_get k ys) as [w|] eqn:Hw; [|eauto].
      apply dict_get_elem in Hw.
      assert (v ∈ xs.*2) as Hv by (apply list_elem_of_fmap; by exists (k, v)).
      apply Hitem; [by eapply (heap_wf_valid h la)|by eapply (heap_wf_valid h lb)|].
      by eapply Hside.
    + apply all2M_total. intros x y Hx Hy.
      apply Hitem; [by eapply (heap_wf_valid h la)|by eapply (heap_wf_valid h lb)|].
      by eapply Hside.
    + apply forallM_total. intros x Hx. apply existsM_total. intros y Hy.
      apply Hitem; [by eapply (heap_wf_valid h lb)|by eapply (heap_wf_valid h la)|].
      destruct (Hside xs ys x y Hfin Hx Hy); auto.
Qed.

(** ** Finiteness looks at reachable objects only *)

Lemma forallb_ext_elem {A} (f g : A → bool) xs :
  (∀ x, x ∈ xs → f x = g x) → forallb f xs = forallb g xs.
Proof.
  induction xs as [|x xs IH]; intros H; simpl; [done|].
  rewrite H by left. f_equal. apply IH. intros y Hy. apply H. by right.
Qed.

Lemma finite_agree (P : loc → Prop) n h h' :
  closed P h → (∀ l, P l → h' !! l = h !! l) →
  ∀ v, (∀ x, x ∈ val_refs v → P x) → finite n h' v = finite n h v.
Proof.
  intros Hc Hagree. induction n as [|n IH]; intros v Hv; [done|]. simpl.
  destruct v as [| | | | |xs|l]; try done.
  - apply forallb_ext_elem. intros x Hx. apply IH. intros r Hr.
    apply Hv, val_refs_tuple. eauto.
  - rewrite Hagree by (apply Hv; simpl; left).
    destruct (h !! l) as [o|] eqn:Ho; [|done].
    apply forallb_ext_elem. intros x Hx. apply IH. intros r Hr.
    eapply Hc; [apply Hv; simpl; left|done|]. apply obj_refs_elem. eauto.
Qed.

(** ** No reference is left dangling *)

Lemma heap_wf_intro h :
  (∀ l o x, h !! l = Some o → x ∈ obj_refs o → x < length h) → heap_wf h.
Proof.
  intros H. apply Forall_forall. intros o [l Ho]%list_elem_of_lookup.
  apply Forall_forall. intros x Hx. eauto.
Qed.

Lemma heap_wf_app h o :
  heap_wf h → (∀ x, x ∈ obj_refs o → x < S (length h)) → heap_wf (h ++ [o]).
Proof.
  intros Hwf Ho. apply heap_wf_intro. intros l o' x Hl Hx. rewrite length_app. simpl.
  apply lookup_app_Some in Hl as [Hl|[_ Hl]].
  - pose proof (heap_wf_refs _ _ _ _ Hwf Hl Hx). lia.
  - apply list_lookup_singleton_Some in Hl as [_ <-]. apply Ho in Hx. lia.
Qed.

Lemma heap_wf_insert h l o :
  heap_wf h → (∀ x, x ∈ obj_refs o → x < length h) → heap_wf (<[l := o]> h).
Proof.
  intros Hwf Ho. apply heap_wf_intro. intros l1 o' x Hl Hx. rewrite length_insert.
  destruct (decide (l = l1)) as [->|Hne].
  - destruct (decide (l1 < length h)) as [Hlt|Hge].
    + rewrite list_lookup_insert_eq in Hl by done. injection Hl as <-. auto.
    + rewrite list_insert_ge in Hl by lia. by eapply heap_wf_refs.
  - rewrite list_lookup_insert_ne in Hl by done. by eapply heap_wf_refs.
Qed.

(** The state of a copy: no dangling reference, and the memo maps to
    allocated locations. *)
Lemma copy_items_wf copy :
  (∀ st v st' c, copy st v = Ok (st', c) →
     heap_wf st.1 → (∀ l l', st.2 !! l = Some l' → l' < length st.1) →
     heap_wf st'.1 ∧ (∀ l l', st'.2 !! l = Some l' → l' < length st'.1) ∧
     length st.1 ≤ length st'.1 ∧ valid st'.1 c) →
  ∀ xs st st' ys, copy_items copy st xs = Ok (st', ys) →
     heap_wf st.1 → (∀ l l', st.2 !! l = Some l' → l' < length st.1) →
     heap_wf st'.1 ∧ (∀ l l', st'.2 !! l = Some l' → l' < length st'.1) ∧
     length st.1 ≤ length st'.1 ∧ ∀ y, y ∈ ys → valid st'.1 y.
Proof.
  intros Hcopy. induction xs as [|x xs IH]; intros st st' ys H Hwf Hm; simpl in H.
  - injection H as <- <-. split; [done|]. split; [done|]. split; [done|].
    by intros y ?%elem_of_nil.
  - inv_bind H. destruct a as [st1 y]. inv_bind H. destruct a as [st2 ys'].
    injection H as <- <-.
    destruct (Hcopy _ _ _ _ Ha Hwf Hm) as (Hwf1 & Hm1 & L1 & Vy).
    destruct (IH _ _ _ Ha0 Hwf1 Hm1) as (Hwf2 & Hm2 & L2 & Vys).
    split; [done|]. split; [done|]. split; [lia|].
    intros z [->|Hz]%elem_of_cons; [|by apply Vys].
    intros r Hr. apply Vy in Hr. lia.
Qed.

Lemma deepcopy_memo_wf fuel :
  ∀ st v st' c, deepcopy_memo fuel st v = Ok (st', c) →
     heap_wf st.1 → (∀ l l', st.2 !! l = Some l' → l' < length st.1) →
     heap_wf st'.1 ∧ (∀ l l', st'.2 !! l = Some l' → l' < length st'.1) ∧
     length st.1 ≤ length st'.1 ∧ valid st'.1 c.
Proof.
  induction fuel as [|fuel IH]; intros st v st' c H Hwf Hm; simpl in H; [done|].
  destruct v as [| | | | |xs|l];
    try (injection H as <- <-; split; [done|]; split; [done|]; split; [done|];
         by intros x ?%elem_of_nil).
  - inv_bind H. destruct a as [st1 ys]. injection H as <- <-.
    destruct (copy_items_wf _ IH _ _ _ _ Ha Hwf Hm) as (Hwf1 & Hm1 & L1 & Vys).
    split; [done|]. split; [done|]. split; [done|].
    intros r (y & Hy & Hr)%val_refs_tuple. by eapply Vys.
  - destruct st as [h memo]. simpl in *.
    destruct (memo !! l) as [l'|] eqn:Hl.
    { injection H as <- <-. split; [done|]. split; [done|]. split; [done|].
      intros r ->%list_elem_of_singleton. simpl. eauto. }
    assert (Hmid : ∀ o, obj_refs o = [] →
              heap_wf (h ++ [o]) ∧
              ∀ l1 l1', <[l := length h]> memo !! l1 = Some l1' → l1' < length (h ++ [o])).
    { intros o Ho. split.
      - apply heap_wf_app; [done|]. rewrite Ho. by intros x ?%elem_of_nil.
      - intros l1 l1'. rewrite length_app. simpl.
        intros [[_ <-]|[_ H1]]%lookup_insert_Some; [lia|]. apply Hm in H1. lia. }
    destruct (h !! l) as [[cls es|cls xs|cls xs]|] eqn:Hobj; [| | |done].
    + rewrite copy_entries_items in H. inv_bind H. destruct a as [[h1 memo1] es'].
      inv_bind Ha. destruct a as [[h2 memo2] ys]. injection Ha as <- <- <-.
      injection H as <- <-.
      pose proof (copy_items_length _ _ _ _ _ Ha0) as Hlen.
      destruct (Hmid (ODict cls []) eq_refl) as [W0 M0].
      destruct (copy_items_wf _ IH _ _ _ _ Ha0 W0 M0) as (Hwf1 & Hm1 & L1 & Vys).
      simpl in *. rewrite length_app in L1. simpl in L1. rewrite length_insert.
      split; [|split; [done|split; [lia|]]].
      * apply heap_wf_insert; [done|]. intros x (w & Hw & Hx)%obj_refs_elem.
        simpl in Hw. rewrite zip_snd_length in Hw by (by rewrite Hlen, !length_fmap).
        by eapply Vys.
      * intros r ->%list_elem_of_singleton. rewrite length_insert. lia.
    + inv_bind H. destruct a as [[h1 memo1] ys]. injection H as <- <-.
      destruct (Hmid (OList cls []) eq_refl) as [W0 M0].
      destruct (copy_items_wf _ IH _ _ _ _ Ha W0 M0) as (Hwf1 & Hm1 & L1 & Vys).
      simpl in *. rewrite length_app in L1. simpl in L1. rewrite length_insert.
      split; [|split; [done|split; [lia|]]].
      * apply heap_wf_insert; [done|]. intros x (w & Hw & Hx)%obj_refs_elem.
        by eapply Vys.
      * intros r ->%list_elem_of_singleton. rewrite length_insert. lia.
    + inv_bind H. destruct a as [[h1 memo1] ys]. injection H as <- <-.
      destruct (copy_items_wf _ IH _ _ _ _ Ha Hwf Hm) as (Hwf1 & Hm1 & L1 & Vys).
      simpl in *. rewrite length_app. simpl.
      split; [|split; [|split; [lia|]]].
      * apply heap_wf_app; [done|]. intros x (w & Hw & Hx)%obj_refs_elem.
        pose proof (Vys w Hw x Hx). lia.
      * intros l1 l1' [[_ <-]|[_ H1]]%lookup_insert_Some; [lia|]. apply Hm1 in H1. lia.
      * intros r ->%list_elem_of_singleton. rewrite length_app. simpl. lia.
Qed.

Lemma deepcopy_wf fuel h v h1 c :
  heap_wf h → deepcopy fuel h v = Ok (h1, c) → heap_wf h1 ∧ valid h1 c.
Proof.
  intros Hwf H. unfold deepcopy in H. inv_bind H. destruct a as [[h2 memo] c2].
  injection H as <- <-.
  destruct (deepcopy_memo_wf _ _ _ _ _ Ha Hwf) as (Hwf1 & _ & _ & Vc); [|done].
  simpl. intros l l'. by rewrite lookup_empty.
Qed.

Lemma setitem_wf h d key v h' :
  heap_wf h → valid h v → setitem h d key v = Ok h' → heap_wf h'.
Proof.
  intros Hwf Hv. unfold setitem, get_dict.
  destruct (h !! d) as [[c es| |]|] eqn:E; simpl; try done.
  intros [= <-]. apply heap_wf_insert; [done|].
  intros x (w & Hw & Hx)%obj_refs_elem. simpl in Hw.
  apply dict_set_elem in Hw as [->|Hw]; [by apply Hv|].
  by eapply (heap_wf_valid h d (ODict c es)).
Qed.

Lemma list_extend_wf h dv c h' : heap_wf h → list_extend h dv c = Ok h' → heap_wf h'.
Proof.
  intros Hwf. unfold list_extend.
  destruct dv as [| | | | | |ld], c as [| | | | | |lc]; try done.
  destruct (h !! ld) as [[|s xs|]|] eqn:Eld; try done.
  destruct (h !! lc) as [[|s' ys|]|] eqn:Elc; try done.
  intros [= <-]. apply heap_wf_insert; [done|].
  intros x (w & [Hw|Hw]%elem_of_app & Hx)%obj_refs_elem.
  - by eapply (heap_wf_valid h ld).
  - by eapply (heap_wf_valid h lc).
Qed.

Lemma set_update_wf fuel h dv c h' :
  heap_wf h → set_update fuel h dv c = Ok h' → heap_wf h'.
Proof.
  intros Hwf. unfold set_update.
  destruct dv as [| | | | | |ld], c as [| | | | | |lc]; try done.
  destruct (h !! ld) as [[| |s xs]|] eqn:Eld; try done.
  destruct (h !! lc) as [[| |s' ys]|] eqn:Elc; try done.
  intros H. inv_bind H. injection H as <-. apply heap_wf_insert; [done|].
  intros x (w & Hw & Hx)%obj_refs_elem. simpl in Hw.
  destruct (set_add_all_elem _ _ _ _ Ha w Hw).
  - by eapply (heap_wf_valid h ld).
  - by eapply (heap_wf_valid h lc).
Qed.

Lemma insert_copy_wf fuel h dst key sv E :
  heap_wf h →
  wlp ('(h1, c) ← deepcopy fuel h sv; setitem h1 dst key c) heap_wf E.
Proof.
  intros Hwf. apply wlp_no_raise.
  { apply no_raise_bind; [apply deepcopy_no_raise|]. intros [h1 c]. apply setitem_no_raise. }
  intros h' H. inv_bind H. destruct a as [h1 c].
  destruct (deepcopy_wf _ _ _ _ _ Hwf Ha) as [Hwf1 Vc]. by eapply setitem_wf.
Qed.

Lemma additive_wf fuel h dst src key dv sv E :
  heap_wf h → getitem h dst key = Ok dv → getitem h src key = Ok sv →
  wlp (_handle_merge_additive fuel h dst src key) heap_wf E.
Proof.
  intros Hwf Gd Gs. unfold _handle_merge_additive. rewrite Gd, Gs. simpl.
  destruct (is_list h dv && is_list h sv);
    [|destruct (is_set h dv && is_set h sv);
      [|destruct (is_tuple dv && is_tuple sv)]].
  - apply wlp_no_raise.
    { apply no_raise_bind; [apply deepcopy_no_raise|]. intros [h1 c].
      apply list_extend_no_raise. }
    intros h' H. inv_bind H. destruct a as [h1 c].
    destruct (deepcopy_wf _ _ _ _ _ Hwf Ha) as [Hwf1 Vc]. by eapply list_extend_wf.
  - apply wlp_no_raise.
    { apply no_raise_bind; [apply deepcopy_no_raise|]. intros [h1 c].
      apply set_update_no_raise. }
    intros h' H. inv_bind H. destruct a as [h1 c].
    destruct (deepcopy_wf _ _ _ _ _ Hwf Ha) as [Hwf1 Vc]. by eapply set_update_wf.
  - apply wlp_no_raise.
    { apply no_raise_bind; [apply deepcopy_no_raise|]. intros [h1 c].
      apply no_raise_bind; [by destruct dv, c|]. intros t. apply setitem_no_raise. }
    intros h' H. inv_bind H. destruct a as [h1 c]. inv_bind H.
    destruct (deepcopy_wf _ _ _ _ _ Hwf Ha) as [Hwf1 Vc].
    eapply setitem_wf; [done| |done].
    assert (valid h dv) as Vd.
    { apply getitem_inv in Gd as (c0 & es & Ho & Hk).
      eapply (heap_wf_valid h dst); [done..|]. by eapply dict_get_elem. }
    apply deepcopy_post in Ha as ([L _] & _).
    destruct dv as [| | | | |xs|], c as [| | | | |ys|]; try done.
    injection Ha0 as <-. intros x (w & [Hw|Hw]%elem_of_app & Hx)%val_refs_tuple.
    + assert (x < length h); [|lia]. apply Vd, val_refs_tuple. eauto.
    + apply Vc, val_refs_tuple. eauto.
  - unfold _handle_merge_replace. rewrite Gs. simpl. by apply insert_copy_wf.
Qed.

Lemma call_wf strategy fuel h dst src key dv sv :
  heap_wf h → getitem h dst key = Ok dv → getitem h src key = Ok sv →
  wlp (call (handle_merge_get strategy) fuel h dst src key) heap_wf
      (fun _ h' => heap_wf h').
Proof.
  intros Hwf Gd Gs. destruct strategy as [s|repr]; simpl; [|done].
  assert (wlp (_handle_merge_replace fuel h dst src key) heap_wf (fun _ h' => heap_wf h'))
    as Hrep.
  { unfold _handle_merge_replace. rewrite Gs. simpl. by apply insert_copy_wf. }
  destruct s; simpl;
    try (eapply wlp_typesafe; [done..| |]; [done|]);
    first [done | by eapply additive_wf].
Qed.

Lemma wlp_imp {A} (P : Prop) (m : outcome A) (Q : A → Prop) (E : exn → heap → Prop) :
  (P → wlp m Q E) → wlp m (fun a => P → Q a) (fun e h => (P → E e h) ∧ True).
Proof. destruct m; simpl; auto. Qed.

Lemma deepmerge_wf strategy fuel h dst src :
  heap_wf h →
  wlp (_deepmerge fuel strategy h dst src) (fun r => heap_wf r.1) (fun _ h' => heap_wf h').
Proof.
  intros Hwf. eapply wlp_mono.
  - apply (deepmerge_loop strategy (fun h h' => heap_wf h → heap_wf h')
             (fun _ _ => True) (fun _ => True)); try done.
    + auto.
    + intros fuel' h0 d key sv _. apply wlp_imp. intros. by apply insert_copy_wf.
    + intros fuel' h0 d s key dv sv _ Gd Gs _. apply wlp_imp. intros. by eapply call_wf.
  - intros r [H _]. auto.
  - intros e h' [H _]. auto.
Qed.

Lemma merge_key_wf strategy fuel f dst src key h sv :
  heap_wf h → getitem h src key = Ok sv →
  wlp (merge_key (_deepmerge f strategy) strategy fuel dst src key h) heap_wf
      (fun _ h' => heap_wf h').
Proof.
  intros Hwf Gs. eapply wlp_mono.
  - apply (merge_key_loop strategy (fun h h' => heap_wf h → heap_wf h')
             (fun _ _ => True) (fun _ => True)) with sv; try done.
    + intros fuel' h0 d key' sv' _. apply wlp_imp. intros. by apply insert_copy_wf.
    + intros fuel' h0 d s key' dv sv' _ Gd Gs' _. apply wlp_imp. intros. by eapply call_wf.
    + intros d s _. apply wlp_imp. intros. by apply deepmerge_wf.
  - auto.
  - intros e h' [H _]. auto.
Qed.

(** ** A merge of finite sources returns or raises *)

Lemma runs_bind {A B} (m : outcome A) (f : A → outcome B) :
  runs m → wlp m (fun a => runs (f a)) (fun _ _ => True) → runs (m ≫= f).
Proof. destruct m; simpl; auto. Qed.

Lemma insert_copy_runs n fuel h dst key sv c es :
  n ≤ fuel → finite n h sv = true → h !! dst = Some (ODict c es) →
  runs ('(h1, c) ← deepcopy fuel h sv; setitem h1 dst key c).
Proof.
  intros Hfuel Hfin Hd.
  destruct (deepcopy_copies n fuel h sv Hfuel Hfin) as (h1 & c1 & E & _).
  rewrite E. simpl. unfold setitem, get_dict.
  by rewrite (deepcopy_lookup _ _ _ _ _ _ _ E Hd).
Qed.

Lemma type_of_valid h v : valid h v → ∃ t, type_of h v = Ok t.
Proof.
  destruct v as [| | | | | |l]; simpl; eauto. intros Hv.
  destruct (lookup_lt_is_Some_2 h l) as [o ->]; [apply Hv; simpl; left|].
  destruct o; eauto.
Qed.

Lemma additive_runs n fuel h dst src key dv sv c es :
  heap_wf h → n ≤ fuel → h !! dst = Some (ODict c es) →
  getitem h dst key = Ok dv → getitem h src key = Ok sv → finite n h sv = true →
  runs (_handle_merge_additive fuel h dst src key).
Proof.
  intros Hwf Hfuel Hd Gd Gs Hfin. unfold _handle_merge_additive. rewrite Gd, Gs. simpl.
  destruct (deepcopy_copies n fuel h sv Hfuel Hfin) as (h1 & c1 & E & ρ & Hcopy).
  pose proof (deepcopy_wf _ _ _ _ _ Hwf E) as [Hwf1 Vc].
  destruct (is_list h dv && is_list h sv) eqn:Hl;
    [|destruct (is_set h dv && is_set h sv) eqn:Hs;
      [|destruct (is_tuple dv && is_tuple sv) eqn:Ht]].
  - rewrite E. simpl. apply andb_true_iff in Hl as [Hl1 Hl2].
    destruct dv as [| | | | | |ld]; try done. destruct sv as [| | | | | |ls]; try done.
    simpl in Hl1, Hl2.
    destruct (h !! ld) as [[|s xs|]|] eqn:Eld; try done.
    destruct (h !! ls) as [[|s' ys|]|] eqn:Els; try done.
    destruct (deep_copy_by_ref _ _ _ _ _ _ Hcopy Els) as (lc & -> & _ & Hlc).
    unfold list_extend. by rewrite (deepcopy_lookup _ _ _ _ _ _ _ E Eld), Hlc.
  - rewrite E. simpl. apply andb_true_iff in Hs as [Hs1 Hs2].
    destruct dv as [| | | | | |ld]; try done. destruct sv as [| | | | | |ls]; try done.
    simpl in Hs1, Hs2.
    destruct (h !! ld) as [[| |s xs]|] eqn:Eld; try done.
    destruct (h !! ls) as [[| |s' ys]|] eqn:Els; try done.
    destruct (deep_copy_by_ref _ _ _ _ _ _ Hcopy Els) as (lc & -> & _ & Hlc).
    pose proof (deepcopy_lookup _ _ _ _ _ _ _ E Eld) as Eld1.
    unfold set_update. rewrite Eld1, Hlc. simpl.
    assert (finite n h1 (VRef lc) = true) as Hfc
      by (eapply deep_copy_finite; [by exists ρ|done]).
    destruct n as [|n]; [done|]. simpl in Hfc. rewrite Hlc in Hfc. simpl in Hfc.
    destruct (set_add_all_spec (item_eq (py_eq fuel h1)) xs (rename_val ρ <$> ys))
      as (new & -> & _); [|done].
    intros z y Hz Hy. apply item_eq_total.
    apply (py_eq_total_one_side n); [done|lia| | |].
    + apply elem_of_app in Hz as [Hz|Hz].
      * by eapply (heap_wf_valid h1 ld).
      * by eapply (heap_wf_valid h1 lc).
    + by eapply (heap_wf_valid h1 lc).
    + right. by eapply forallb_elem.
  - rewrite E. simpl. apply andb_true_iff in Ht as [Ht1 Ht2].
    destruct dv as [| | | | |xs|]; try done. destruct sv as [| | | | |ys|]; try done.
    destruct Hcopy as (-> & _). simpl. unfold setitem, get_dict.
    by rewrite (deepcopy_lookup _ _ _ _ _ _ _ E Hd).
  - unfold _handle_merge_replace. rewrite Gs. simpl. by eapply insert_copy_runs.
Qed.

Lemma call_runs strategy n fuel h dst src key dv sv c es :
  heap_wf h → n ≤ fuel → h !! dst = Some (ODict c es) →
  getitem h dst key = Ok dv → getitem h src key = Ok sv → finite n h sv = true →
  runs (call (handle_merge_get strategy) fuel h dst src key).
Proof.
  intros Hwf Hfuel Hd Gd Gs Hfin. destruct strategy as [s|repr]; simpl; [|done].
  assert (runs (_handle_merge_replace fuel h dst src key)) as Hrep.
  { unfold _handle_merge_replace. rewrite Gs. simpl. by eapply insert_copy_runs. }
  assert (runs (_handle_merge_additive fuel h dst src key)) as Hadd
    by (by eapply additive_runs).
  assert (Hts : ∀ inner : handler, runs (inner fuel h dst src key) →
            runs (_handle_merge_typesafe inner fuel h dst src key)).
  { intros inner Hinner. unfold _handle_merge_typesafe. rewrite Gd, Gs. simpl.
    destruct (type_of_valid h dv) as [td ->].
    { apply getitem_inv in Gd as (c0 & es0 & Ho & Hk).
      eapply (heap_wf_valid h dst); [done..|]. by eapply dict_get_elem. }
    destruct (type_of_valid h sv) as [ts ->].
    { apply getitem_inv in Gs as (c0 & es0 & Ho & Hk).
      eapply (heap_wf_valid h src); [done..|]. by eapply dict_get_elem. }
    simpl. by destruct (decide (td = ts)). }
  destruct s; simpl; auto.
Qed.

Lemma runs_fst {A B C} (m : outcome (A * B)) (g : A → C) :
  runs m → runs ('(a, _) ← m; Ok (g a)).
Proof. by destruct m as [[]| | |]. Qed.

Lemma merge_key_runs rec strategy n fuel h dst src key sv c es :
  heap_wf h → n ≤ fuel → h !! dst = Some (ODict c es) →
  getitem h src key = Ok sv → finite n h sv = true →
  (∀ d s, mapping_loc h sv = Some s →
          (∃ dv, getitem h dst key = Ok dv ∧ mapping_loc h dv = Some d) →
          runs (rec h d s)) →
  runs (merge_key rec strategy fuel dst src key h).
Proof.
  intros Hwf Hfuel Hd Gs Hfin Hrec. unfold merge_key, select_branch, get_dict.
  rewrite Hd. simpl. destruct (dict_get key es) as [dv|] eqn:Ek; simpl.
  - rewrite Gs. simpl. pose proof (getitem_intro _ _ _ _ _ _ Hd Ek) as Gd.
    assert (Hcmp : ∀ k : branch → outcome heap,
      k Equal = Ok h →
      k Conflict = call (handle_merge_get strategy) fuel h dst src key →
      runs ((py_eq fuel h dv sv ≫= fun b => Ok (if b : bool then Equal else Conflict))
            ≫= k)).
    { intros k HE HC.
      destruct (py_eq_total_one_side n fuel h dv sv) as [r ->]; try done.
      - eapply (heap_wf_valid h dst); [done..|]. by eapply dict_get_elem.
      - apply getitem_inv in Gs as (c0 & es0 & Ho & Hk).
        eapply (heap_wf_valid h src); [done..|]. by eapply dict_get_elem.
      - by right.
      - simpl. destruct r; [by rewrite HE|rewrite HC]. by eapply call_runs. }
    destruct (mapping_loc h dv) as [d|] eqn:Emd; [|by apply Hcmp].
    destruct (mapping_loc h sv) as [s|] eqn:Ems; [|by apply Hcmp].
    simpl. apply (runs_fst (rec h d s) id). apply Hrec; eauto.
  - rewrite Gs. simpl. by eapply insert_copy_runs.
Qed.

Lemma heap_grows_mapping h h' d :
  heap_grows h h' → mapping_loc h (VRef d) = Some d → mapping_loc h' (VRef d) = Some d.
Proof.
  intros Hg. simpl. destruct (h !! d) as [[c es| |]|] eqn:Ho; try done. intros _.
  destruct (Hg d _ Ho) as (o' & -> & Ho'). by destruct o'.
Qed.

Section progress.
Context (R Q : loc → Prop).

Lemma finite_source n h0 h v :
  sep R Q h0 → step R h0 h → (∀ x, x ∈ val_refs v → Q x) →
  finite n h v = finite n h0 v.
Proof.
  intros Hsep Hst Hv. apply (finite_agree Q); [by destruct Hsep as (_ & ? & _)| |done].
  intros l Hl. by apply (frame_lookup R Q h0).
Qed.

Lemma for_keys_runs strategy n f dst src h0 sc ses :
  sep R Q h0 → R dst → Q src → n ≤ f →
  h0 !! src = Some (ODict sc ses) → forallb (finite n h0) ses.*2 = true →
  mapping_loc h0 (VRef dst) = Some dst →
  (∀ h d s, sep R Q h → heap_wf h → R d → Q s →
     mapping_loc h (VRef d) = Some d → mapping_loc h (VRef s) = Some s →
     finite n h (VRef s) = true → runs (_deepmerge f strategy h d s)) →
  ∀ steps pos h, step R h0 h → heap_grows h0 h → heap_wf h →
    runs (for_keys (merge_key (_deepmerge f strategy) strategy f dst src) src
                   (length ses) pos steps h).
Proof.
  intros Hsep Hd Hs Hf Hsrc Hfin Hdst Hrec.
  induction steps as [|steps IH]; intros pos h Hst Hg Hwf; simpl;
    unfold get_dict; rewrite (frame_lookup R Q h0 h src), Hsrc by done; simpl;
    rewrite Nat.eqb_refl; simpl; [done|].
  destruct (ses !! pos) as [[key v]|] eqn:Ep; [|done].
  destruct (dict_get_lookup _ _ _ _ Ep) as [sv Hsv].
  assert (h !! src = Some (ODict sc ses)) as Hsrc'
    by (by rewrite (frame_lookup R Q h0 h src)).
  pose proof (getitem_intro _ _ _ _ _ _ Hsrc' Hsv) as Gs.
  pose proof (sep_step R Q _ _ Hsep Hst) as Hsep'.
  assert (∀ x, x ∈ val_refs sv → Q x) as Hsvq.
  { destruct Hsep as (_ & Hcq & _). intros x Hx.
    eapply (getitem_region Q h0 src key sv); [done..| |done]. by eapply getitem_intro. }
  assert (finite n h sv = true) as Hfsv.
  { rewrite (finite_source n h0 h sv) by done.
    apply (forallb_elem _ ses.*2); [done|]. by eapply dict_get_elem. }
  pose proof (heap_grows_mapping _ _ _ Hg Hdst) as Hdst'. simpl in Hdst'.
  destruct (h !! dst) as [[dc des| |]|] eqn:Ed; try done.
  apply runs_bind.
  - apply (merge_key_runs _ strategy n f h dst src key sv dc des); try done.
    intros d s Ems (dv & Gd & Emd).
    pose proof (mapping_loc_inv _ _ _ Ems) as ->.
    pose proof (mapping_loc_inv _ _ _ Emd) as ->.
    apply Hrec; try done.
    + destruct Hsep' as ([_ Hcr] & _).
      eapply (getitem_region R h dst key (VRef d)); [done..|]. simpl. left.
    + apply Hsvq. simpl. left.
  - eapply wlp_mono.
    + apply wlp_conj; [|apply wlp_conj].
      * apply (merge_key_sep R Q (_deepmerge f strategy) strategy f h dst src key sv);
          [done..|].
        intros d s Hd' Hs'. eapply wlp_mono; [by apply (deepmerge_sep R Q)| |done].
        by intros r [_ ?].
      * apply (merge_key_grows strategy f f dst src key h sv Gs).
      * apply (merge_key_wf strategy f f dst src key h sv Hwf Gs).
    + intros h1 (Hst1 & Hg1 & Hwf1). simpl.
      apply IH; [by eapply step_trans|by eapply heap_grows_trans|done].
    + done.
Qed.

Lemma deepmerge_runs strategy n :
  ∀ fuel h d s, n ≤ fuel → sep R Q h → heap_wf h → R d → Q s →
    mapping_loc h (VRef d) = Some d → mapping_loc h (VRef s) = Some s →
    finite n h (VRef s) = true → runs (_deepmerge fuel strategy h d s).
Proof.
  induction n as [|n IH]; intros fuel h d s Hfuel Hsep Hwf Hd Hs Md Ms Hfin; [done|].
  destruct fuel as [|fuel]; [lia|]. simpl in Hfin, Ms. simpl.
  destruct (h !! s) as [[sc ses| |]|] eqn:Es; try done.
  unfold get_dict. rewrite Es. simpl.
  assert (runs (for_keys (merge_key (_deepmerge fuel strategy) strategy fuel d s) s
                         (length ses) 0 (length ses) h)) as Hr.
  { apply (for_keys_runs strategy n fuel d s h sc ses); try done; [lia| |..].
    - intros h1 d1 s1 ???????. apply IH; [lia|done..].
    - apply step_refl. by destruct Hsep.
    - apply heap_grows_refl. }
  by destruct (for_keys _ _ _ _ _ _).
Qed.

Lemma reduce_runs strategy n fuel D :
  ∀ sources h, n ≤ fuel → sep R Q h → heap_wf h → R D →
    mapping_loc h (VRef D) = Some D →
    Forall (fun s => Q s ∧ mapping_loc h (VRef s) = Some s ∧
                     finite n h (VRef s) = true) sources →
    runs (reduce (_deepmerge fuel strategy) sources h D).
Proof.
  induction sources as [|s ss IH]; intros h Hfuel Hsep Hwf HD MD Hall; simpl; [done|].
  apply Forall_cons in Hall as [(Hs & Ms & Fs) Hall].
  apply runs_bind; [by apply (deepmerge_runs strategy n)|].
  eapply wlp_mono.
  - apply wlp_conj; [|apply wlp_conj].
    + by apply (deepmerge_sep R Q strategy fuel h D s).
    + apply (deepmerge_grows strategy fuel h D s).
    + by apply (deepmerge_wf strategy fuel h D s).
  - intros [h1 r] ([Er Hst] & [Hg _] & Hwf1). simpl in *. subst r.
    apply IH; try done.
    + by eapply sep_step.
    + by eapply heap_grows_mapping.
    + eapply Forall_impl; [done|]. intros s' (Hs' & Ms' & Fs'). split; [done|].
      split.
      * simpl in *. by rewrite (frame_lookup R Q h h1 s').
      * rewrite (finite_source n h h1); [done..|].
        by intros x ->%list_elem_of_singleton.
  - done.
Qed.

End progress.

(** A merge into a mapping, of sources that are mappings with a finite
    unfolding and that share no object with what the destination reaches,
    returns the destination or raises an exception of its strategy, provided
    the budget is above the height of the sources: it does not run out of
    budget, whatever the height of the destination, and it does not leave
    the types the model covers.  Under REPLACE and ADDITIVE it returns. *)
Theorem merge_returns_or_raises n fuel strategy h D sources :
  heap_wf h → n ≤ fuel → mapping_loc h (VRef D) = Some D →
  Forall (fun s => mapping_loc h (VRef s) = Some s ∧ finite n h (VRef s) = true) sources →
  separate h D sources →
  ((∃ h', merge fuel strategy h D sources = Ok (h', D)) ∨
   (∃ e h', merge fuel strategy h D sources = Raise e h' ∧ allowed strategy e)) ∧
  (strategy = Member REPLACE ∨ strategy = Member ADDITIVE →
   ∃ h', merge fuel strategy h D sources = Ok (h', D)).
Proof.
  intros Hwf Hfuel MD Hall Hsep.
  assert (Forall (fun s => s < length h) sources) as Halloc.
  { eapply Forall_impl; [done|]. intros s [Ms _]. simpl in Ms.
    destruct (h !! s) eqn:E; [|done]. by eapply lookup_lt_Some. }
  pose proof (merge_apart fuel strategy h D sources Hwf Halloc Hsep) as Hw.
  simpl in Hw.
  assert (runs (merge fuel strategy h D sources)) as Hr.
  { apply (reduce_runs (fun l => reach h (VRef D) l ∨ length h ≤ l)
             (fun l => ∃ s, s ∈ sources ∧ reach h (VRef s) l) strategy n);
      try done.
    - by apply separate_sep.
    - left. apply reach_val. simpl. left.
    - apply Forall_forall. intros s Hs.
      pose proof (proj1 (Forall_forall _ _) Hall s Hs) as [Ms Fs].
      split; [|done]. exists s. split; [done|]. apply reach_val. simpl. left. }
  assert ((∃ h', merge fuel strategy h D sources = Ok (h', D)) ∨
          (∃ e h', merge fuel strategy h D sources = Raise e h' ∧ allowed strategy e))
    as Hres.
  { destruct (merge fuel strategy h D sources) as [[h' r]|e h'| |]; simpl in *; try done.
    - left. exists h'. by destruct Hw as [-> _].
    - right. exists e, h'. by destruct Hw as [_ ?]. }
  split; [done|]. intros Hs. destruct Hres as [?|(e & h' & _ & He)]; [done|].
  destruct Hs as [-> | ->]; by destruct e.
Qed.

Lemma merge_returns_or_raises_witness :
  (∃ h', merge 5 (Member ADDITIVE) heap_two_sources 0 [1; 2] = Ok (h', 0)) ∧
  ((∃ h', merge 5 (Member TYPESAFE) heap_mismatch 0 [1] = Ok (h', 0)) ∨
   (∃ e h', merge 5 (Member TYPESAFE) heap_mismatch 0 [1] = Raise e h' ∧
            allowed (Member TYPESAFE) e)).
Proof.
  split.
  - apply (merge_returns_or_raises 3 5 (Member ADDITIVE) heap_two_sources 0 [1; 2]);
      [by apply heap_wf_check|lia|reflexivity| | |by right].
    + repeat (apply Forall_cons; split; [split; vm_compute; reflexivity|]).
      by apply Forall_nil.
    + apply (separate_check _ _ _ [0] [1; 2; 3; 4]); vm_compute; reflexivity.
  - apply (merge_returns_or_raises 3 5 (Member TYPESAFE) heap_mismatch 0 [1]);
      [by apply heap_wf_check|lia|reflexivity| |].
    + repeat (apply Forall_cons; split; [split; vm_compute; reflexivity|]).
      by apply Forall_nil.
    + apply (separate_check _ _ _ [0; 2] [1]); vm_compute; reflexivity.
Defined.

(** ** A copy compares equal to its original *)

Lemma dict_get_rename (f : value → value) key es :
  dict_get key (prod_map id f <$> es) = f <$> dict_get key es.
Proof.
  induction es as [|[k v] es IH]; simpl; [done|]. by destruct (String.eqb key k).
Qed.

Lemma dict_get_NoDup key v es : NoDup es.*1 → (key, v) ∈ es → dict_get key es = Some v.
Proof.
  induction es as [|[k v0] es IH]; simpl; [by intros _ ?%elem_of_nil|].
  intros [Hk Hnd]%NoDup_cons [[= -> ->]|Hin]%elem_of_cons.
  - by rewrite String.eqb_refl.
  - destruct (String.eqb key k) eqn:E; [|auto].
    apply String.eqb_eq in E as ->. destruct Hk.
    apply list_elem_of_fmap. by exists (k, v).
Qed.

Lemma all2M_fmap_l {A} (f : A → A → outcome bool) (g : A → A) xs :
  (∀ x, x ∈ xs → f (g x) x = Ok true) → all2M f (g <$> xs) xs = Ok true.
Proof.
  induction xs as [|x xs IH]; intros Hf; simpl; [done|].
  rewrite Hf by left. simpl. apply IH. intros y Hy. apply Hf. by right.
Qed.

Lemma all2M_fmap_r {A} (f : A → A → outcome bool) (g : A → A) xs :
  (∀ x, x ∈ xs → f x (g x) = Ok true) → all2M f xs (g <$> xs) = Ok true.
Proof.
  induction xs as [|x xs IH]; intros Hf; simpl; [done|].
  rewrite Hf by left. simpl. apply IH. intros y Hy. apply Hf. by right.
Qed.

Lemma py_eq_renamed (ρ : gmap loc loc) h h1 :
  keys_wf h → heap_ext h h1 → (∀ l l', ρ !! l = Some l' → copied ρ h h1 l l') →
  ∀ n fuel v, n ≤ fuel → finite n h v = true →
    (∀ x, x ∈ val_refs v → is_Some (ρ !! x)) →
    py_eq fuel h1 (rename_val ρ v) v = Ok true ∧
    py_eq fuel h1 v (rename_val ρ v) = Ok true.
Proof.
  intros Hk He Hρ. induction n as [|n IH]; intros fuel v Hfuel Hfin Hd; [done|].
  destruct fuel as [|fuel]; [lia|].
  assert (Hitems : ∀ xs, forallb (finite n h) xs = true →
            (∀ x r, x ∈ xs → r ∈ val_refs x → is_Some (ρ !! r)) →
            ∀ x, x ∈ xs →
              item_eq (py_eq fuel h1) (rename_val ρ x) x = Ok true ∧
              item_eq (py_eq fuel h1) x (rename_val ρ x) = Ok true).
  { intros xs Hf Hr x Hx.
    destruct (IH fuel x) as [H1 H2]; [lia|by eapply forallb_elem|by eauto|].
    split; by apply item_eq_of_py_eq. }
  assert (Htot : ∀ xs, forallb (finite n h) xs = true →
            (∀ x r, x ∈ xs → r ∈ val_refs x → is_Some (ρ !! r)) →
            ∀ x y, x ∈ xs → y ∈ xs →
              (∃ r, item_eq (py_eq fuel h1) y (rename_val ρ x) = Ok r) ∧
              (∃ r, item_eq (py_eq fuel h1) (rename_val ρ y) x = Ok r)).
  { intros xs Hf Hr x y Hx Hy.
    assert (∀ z, z ∈ xs → finite n h1 z = true ∧ finite n h1 (rename_val ρ z) = true)
      as Hz.
    { intros z Hz. split.
      - eapply finite_ext; [done|]. by eapply forallb_elem.
      - eapply renamed_finite; [done|by eauto|]. by eapply forallb_elem. }
    split; apply item_eq_total; apply (py_eq_total n); try lia; by apply Hz. }
  simpl in Hfin.
  destruct v as [| | | | |xs|l];
    try (split; (apply (py_eq_refl 1); [lia|done|done])).
  - simpl. unfold eq_step.
    assert (∀ x r, x ∈ xs → r ∈ val_refs x → is_Some (ρ !! r)) as Hr.
    { intros x r Hx Hxr. apply Hd, val_refs_tuple. eauto. }
    split; [apply all2M_fmap_l|apply all2M_fmap_r]; intros x Hx;
      by destruct (Hitems xs Hfin Hr x Hx).
  - destruct (Hd l) as [l' Hl]; [simpl; left|]. simpl. rewrite Hl.
    destruct (Hρ l l' Hl) as (Hlen & o & Ho & Hc & Hdo). rewrite Ho in Hfin.
    assert (h1 !! l = Some o) as Ho1.
    { destruct He as [_ He]. rewrite He; [done|]. by eapply lookup_lt_Some. }
    assert (∀ x r, x ∈ obj_vals o → r ∈ val_refs x → is_Some (ρ !! r)) as Hr.
    { intros x r Hx Hxr. apply Hdo, obj_refs_elem. eauto. }
    unfold eq_step. rewrite Hc, Ho1.
    destruct o as [c es|c xs|c xs]; simpl in *; rewrite length_fmap, Nat.eqb_refl.
    + assert (NoDup es.*1) as Hnd by apply (Forall_lookup_1 _ _ _ _ Hk Ho).
      split; apply forallM_all.
      * intros kv [[k v0] [-> Hkv]]%list_elem_of_fmap. simpl.
        rewrite (dict_get_NoDup _ _ _ Hnd Hkv).
        apply (Hitems es.*2 Hfin Hr). apply list_elem_of_fmap. by exists (k, v0).
      * intros [k v0] Hkv. simpl.
        rewrite dict_get_rename, (dict_get_NoDup _ _ _ Hnd Hkv). simpl.
        apply (Hitems es.*2 Hfin Hr). apply list_elem_of_fmap. by exists (k, v0).
    + split; [apply all2M_fmap_l|apply all2M_fmap_r]; intros x Hx;
        by destruct (Hitems xs Hfin Hr x Hx).
    + split; apply forallM_all.
      * intros x' [x0 [-> Hx0]]%list_elem_of_fmap.
        apply (existsM_hit _ _ x0); [done|by apply (Hitems xs Hfin Hr)|].
        intros y Hy. by destruct (Htot xs Hfin Hr x0 y Hx0 Hy).
      * intros x0 Hx0.
        apply (existsM_hit _ _ (rename_val ρ x0)).
        -- apply list_elem_of_fmap. by exists x0.
        -- by apply (Hitems xs Hfin Hr).
        -- intros y' [y [-> Hy]]%list_elem_of_fmap.
           by destruct (Htot xs Hfin Hr x0 y Hx0 Hy).
Qed.

Lemma all2M_ext_elem {A} (f g : A → A → outcome bool) xs ys :
  (∀ x y, x ∈ xs → y ∈ ys → f x y = g x y) → all2M f xs ys = all2M g xs ys.
Proof.
  revert ys. induction xs as [|x xs IH]; intros [|y ys] H; simpl; try done.
  rewrite H by left. destruct (g x y) as [[]| | |]; simpl; try done.
  apply IH. intros x' y' Hx Hy. apply H; by right.
Qed.

Lemma existsM_ext_elem {A} (f g : A → outcome bool) xs :
  (∀ x, x ∈ xs → f x = g x) → existsM f xs = existsM g xs.
Proof.
  induction xs as [|x xs IH]; intros H; simpl; [done|].
  rewrite H by left. destruct (g x) as [[]| | |]; simpl; try done.
  apply IH. intros y Hy. apply H. by right.
Qed.

Lemma forallM_ext_elem {A} (f g : A → outcome bool) xs :
  (∀ x, x ∈ xs → f x = g x) → forallM f xs = forallM g xs.
Proof.
  induction xs as [|x xs IH]; intros H; simpl; [done|].
  rewrite H by left. destruct (g x) as [[]| | |]; simpl; try done.
  apply IH. intros y Hy. apply H. by right.
Qed.

Lemma item_eq_ext (eq eq' : value → value → outcome bool) x y :
  eq x y = eq' x y → item_eq eq x y = item_eq eq' x y.
Proof. intros H. unfold item_eq. destruct x, y; try done. by destruct (_ =? _). Qed.

(** [==] reads only what its two arguments reach. *)
Lemma py_eq_heaps (P : loc → Prop) h h' :
  closed P h → (∀ l, P l → h' !! l = h !! l) →
  ∀ fuel a b, (∀ x, x ∈ val_refs a → P x) → (∀ x, x ∈ val_refs b → P x) →
    py_eq fuel h' a b = py_eq fuel h a b.
Proof.
  intros Hc Hagree. induction fuel as [|fuel IH]; intros a b Ha Hb; [done|].
  simpl. unfold eq_step.
  assert (Hitem : ∀ x y, (∀ r, r ∈ val_refs x → P r) → (∀ r, r ∈ val_refs y → P r) →
            item_eq (py_eq fuel h') x y = item_eq (py_eq fuel h) x y).
  { intros x y Hx Hy. apply item_eq_ext. by apply IH. }
  destruct a as [| | | | |xs|la], b as [| | | | |ys|lb]; try done.
  - apply all2M_ext_elem. intros x y Hx Hy. apply Hitem; intros r Hr.
    + apply Ha, val_refs_tuple. eauto.
    + apply Hb, val_refs_tuple. eauto.
  - assert (P la) as Pa by (apply Ha; simpl; left).
    assert (P lb) as Pb by (apply Hb; simpl; left).
    rewrite !Hagree by done.
    destruct (h !! la) as [oa|] eqn:Hoa; [|done].
    destruct (h !! lb) as [ob|] eqn:Hob; [|by destruct oa].
    assert (∀ x r, x ∈ obj_vals oa → r ∈ val_refs x → P r) as Hra.
    { intros x r Hx Hr. eapply Hc; [exact Pa|done|]. apply obj_refs_elem. eauto. }
    assert (∀ x r, x ∈ obj_vals ob → r ∈ val_refs x → P r) as Hrb.
    { intros x r Hx Hr. eapply Hc; [exact Pb|done|]. apply obj_refs_elem. eauto. }
    destruct oa as [ca xs|ca xs|ca xs], ob as [cb ys|cb ys|cb ys]; try done;
      simpl in Hra, Hrb; destruct (_ =? _); try done.
    + apply forallM_ext_elem. intros [k v] Hkv. simpl.
      destruct (dict_get k ys) as [w|] eqn:Hw; [|done].
      apply Hitem; [|by eauto using dict_get_elem].
      intros r Hr. eapply Hra; [|done]. apply list_elem_of_fmap. by exists (k, v).
    + apply all2M_ext_elem. intros x y Hx Hy. apply Hitem; eauto.
    + apply forallM_ext_elem. intros x Hx. apply existsM_ext_elem. intros y Hy.
      apply Hitem; eauto.
Qed.

Lemma reach_ext h h1 v l :
  heap_wf h → heap_ext h h1 → valid h v → reach h1 v l → reach h v l.
Proof.
  intros Hwf [_ He] Hv. induction 1 as [l Hl|l o l' Hr IH Ho Hl']; [by apply reach_val|].
  eapply reach_obj; [done| |done]. rewrite <- He; [done|].
  by eapply reach_allocated.
Qed.

(** After [_handle_merge_replace] the destination holds at [key] a copy of
    the source's value: the handler returns and the source still holds its
    value; a float is held by the destination as it is, the same float; for
    any other value [destination[key] == source[key]] holds, in both
    directions.  (A float is set apart because a NaN is equal to no value,
    itself included.)  This is for a source value that unfolds to a finite
    tree and does not contain the destination, in a heap without dangling
    references whose dictionaries hold each key once. *)
Theorem replace_makes_equal n fuel h dst src key dc des sv :
  keys_wf h → heap_wf h → n ≤ fuel →
  h !! dst = Some (ODict dc des) → dst ≠ src →
  getitem h src key = Ok sv → finite n h sv = true → ¬ reach h sv dst →
  ∃ h' c, _handle_merge_replace fuel h dst src key = Ok h' ∧
          getitem h' dst key = Ok c ∧ getitem h' src key = Ok sv ∧
          (is_float sv = true → c = sv) ∧
          (is_float sv = false →
           py_eq fuel h' c sv = Ok true ∧ py_eq fuel h' sv c = Ok true).
Proof.
  intros Hk Hwf Hfuel Hd Hne Gs Hfin Hnr.
  destruct (deepcopy_copies n fuel h sv Hfuel Hfin) as (h1 & c & E & ρ & Hcopy).
  pose proof Hcopy as (Hc & Hdom & Hρ & He).
  pose proof (deepcopy_post _ _ _ _ _ E) as (_ & Hnew & Hcnew).
  set (h' := <[dst := ODict dc (dict_set key c des)]> h1).
  pose proof (lookup_lt_Some _ _ _ Hd) as Hlt.
  assert (dst < length h1) as Hlt1 by (destruct He; lia).
  assert (valid h sv) as Hv.
  { apply getitem_inv in Gs as (c0 & es0 & Ho & Hg).
    eapply (heap_wf_valid h src); [done..|]. by eapply dict_get_elem. }
  exists h', c. split; [by eapply handle_merge_replace_spec|].
  split; [|split; [|split]].
  - eapply getitem_intro; [apply list_lookup_insert_eq; done|apply dict_get_set_eq].
  - apply getitem_inv in Gs as (c0 & es0 & Ho & Hg).
    eapply getitem_intro; [|done]. unfold h'. rewrite list_lookup_insert_ne by done.
    destruct He as [_ He]. rewrite He; [done|]. by eapply lookup_lt_Some.
  - intros Hfl. rewrite Hc. by destruct sv.
  - intros _. set (P := fun l => reach h1 c l ∨ reach h1 sv l).
    assert (closed P h1) as HP.
    { intros l o l' [Hl|Hl] Ho Hl'; [left|right]; by eapply reach_obj. }
    assert (¬ P dst) as HPd.
    { intros [Hr|Hr].
      - assert (length h ≤ dst); [|lia].
        apply (reach_closed (le (length h)) h1 c dst Hnew); [|done].
        intros x Hx. by eapply Forall_forall in Hcnew.
      - apply Hnr. by eapply reach_ext. }
    assert (∀ l, P l → h' !! l = h1 !! l) as Hagree.
    { intros l Hl. unfold h'. apply list_lookup_insert_ne. by intros ->. }
    assert (∀ x, x ∈ val_refs c → P x) as Pc by (intros x Hx; left; by apply reach_val).
    assert (∀ x, x ∈ val_refs sv → P x) as Ps by (intros x Hx; right; by apply reach_val).
    rewrite !(py_eq_heaps P h1 h' HP Hagree) by done. subst c.
    by apply (py_eq_renamed ρ h h1 Hk He Hρ n).
Qed.

Lemma replace_makes_equal_witness :
  ∃ h' c, _handle_merge_replace 5 heap_same_type 0 1 "k" = Ok h' ∧
          getitem h' 0 "k" = Ok c ∧ getitem h' 1 "k" = Ok (VRef 3) ∧
          py_eq 5 h' c (VRef 3) = Ok true ∧ py_eq 5 h' (VRef 3) c = Ok true.
Proof.
  destruct (replace_makes_equal 2 5 heap_same_type 0 1 "k" None [("k", VRef 2)] (VRef 3))
    as (h' & c & E & Gd & Gs & _ & Heq);
    try reflexivity; [by apply keys_wf_check|by apply heap_wf_check|lia|lia| |].
  - assert (closed (.∈ [3]) heap_same_type) as Hc
      by (apply closedb_sound; vm_compute; reflexivity).
    intros Hr. apply (reach_closed (.∈ [3]) _ _ 0 Hc) in Hr.
    + revert Hr. apply (bool_decide_eq_false_1 (0 ∈ [3])). vm_compute. reflexivity.
    + intros x ->%list_elem_of_singleton. left.
  - exists h', c. split; [exact E|]. split; [exact Gd|]. split; [exact Gs|].
    exact (Heq eq_refl).
Defined.
